(** * The visit lifecycle of swup: hook registry, render stage, animation waiter

    A shallow embedding of [src/modules/Hooks.ts], [renderPage] and
    [getAnimationPromises.js], and the properties of the specification that
    concern them.

    Conventions of the embedding.
    - JavaScript is single threaded: one call of a method is one function
      from state to state.  An [await] is the point where a promise is
      settled; tasks interleaved at an [await] are not modelled.
    - A function object is identified by a name ([hname]); two handlers are
      the same [Map] key exactly when their names agree (reference equality).
    - A hook handler is client code.  It is given as a small program
      ([HProg]) that may return, throw, or call the default handler it was
      handed, with a visit and arguments of its choice; an exception of the
      default handler passes through the handler that called it.  The
      interpreter records every invocation of a handler in the [calls] log
      of the world, so that the order of invocations can be observed.
      Handlers do not call back into the registry.
    - [Map] is an association list in insertion order, as [Map.prototype]
      iterates; [Array.prototype.sort] is a stable sort. *)

From Stdlib Require Import ZArith List String Lia Sorting.Sorted Sorting.Permutation.
From stdpp Require Import gmap strings list fin_maps.

Local Open Scope string_scope.

(** ** JavaScript values, promises and built-ins *)

Module JS.

(** Values that are not promises. *)
Inductive Plain :=
| PUndefined
| PBool (b : bool)
| PNum (n : Z)
| PStr (s : string).

(** How a promise settles once it does. *)
Inductive Settle :=
| Fulfils (v : Plain)
| Rejects (e : Plain).

Inductive Value :=
| VPlain (v : Plain)
| VPromise (pid : nat) (s : Settle).

Definition undefined : Value := VPlain PUndefined.

(** The result of running code: a value or an exception. *)
Inductive Outcome (A : Type) :=
| Normal (a : A)
| Thrown (e : Value).
Arguments Normal {A} a.
Arguments Thrown {A} e.

Inductive Level := LogError | LogWarn.

(** [Map.prototype.set]: an existing key keeps its position and gets the
    new value, a new key goes last. *)
Fixpoint Map_set {K V} (same : K -> K -> bool) (k : K) (v : V) (m : list (K * V))
  : list (K * V) :=
  match m with
  | [] => [(k, v)]
  | (k', v') :: m' =>
      if same k' k then (k', v) :: m' else (k', v') :: Map_set same k v m'
  end.

(** [Map.prototype.delete]: the flag tells whether an entry was removed. *)
Fixpoint Map_delete {K V} (same : K -> K -> bool) (k : K) (m : list (K * V))
  : bool * list (K * V) :=
  match m with
  | [] => (false, [])
  | (k', v') :: m' =>
      if same k' k then (true, m')
      else let '(d, m'') := Map_delete same k m' in (d, (k', v') :: m'')
  end.

Definition Map_values {K V} (m : list (K * V)) : list V := map snd m.
Definition Map_size {K V} (m : list (K * V)) : nat := length m.

Fixpoint Map_get {K V} (same : K -> K -> bool) (k : K) (m : list (K * V)) : option V :=
  match m with
  | [] => None
  | (k', v') :: m' => if same k' k then Some v' else Map_get same k m'
  end.

(** [Array.prototype.sort(compareFn)]: a stable sort; [x] stays in front of
    the elements it does not compare greater than. *)
Fixpoint Array_sort_insert {A} (compareFn : A -> A -> Z) (x : A) (l : list A) : list A :=
  match l with
  | [] => [x]
  | y :: l' =>
      if (0 <? compareFn x y)%Z then y :: Array_sort_insert compareFn x l'
      else x :: y :: l'
  end.

Definition Array_sort {A} (compareFn : A -> A -> Z) (l : list A) : list A :=
  foldr (Array_sort_insert compareFn) [] l.

End JS.
Import JS.

(** ** The hook registry ([class Hooks]) *)

Module Hooks.

Definition Visit := nat.

(** What is dispatched on [document]: [new CustomEvent(`swup:${hook}`, { detail })]. *)
Record DomEvent := {
  ev_type : string;
  ev_hook : string;
  ev_args : Value;
  ev_visit : Visit
}.

(** The part of the environment the registry reads and writes: the current
    visit of the swup instance, the console, the events dispatched on the
    document, the promises that were awaited to settlement, and the log of
    handler invocations. *)
Record World := {
  visit : Visit;
  console : list (Level * string);
  domEvents : list DomEvent;
  settled : list nat;
  calls : list nat
}.

Definition log (lvl : Level) (msg : string) (w : World) : World :=
  {| visit := visit w; console := console w ++ [(lvl, msg)];
     domEvents := domEvents w; settled := settled w; calls := calls w |}.

Definition dispatch (e : DomEvent) (w : World) : World :=
  {| visit := visit w; console := console w;
     domEvents := domEvents w ++ [e]; settled := settled w; calls := calls w |}.

Definition settle (pid : nat) (w : World) : World :=
  {| visit := visit w; console := console w;
     domEvents := domEvents w; settled := settled w ++ [pid]; calls := calls w |}.

Definition record_call (name : nat) (w : World) : World :=
  {| visit := visit w; console := console w;
     domEvents := domEvents w; settled := settled w; calls := calls w ++ [name] |}.

(** The body of a handler: it returns, throws, or calls the default handler
    it received with a visit and arguments and goes on with the result. *)
Inductive HProg :=
| Ret (v : Value)
| Throw (e : Value)
| CallDefault (v : Visit) (args : Value) (k : Value -> HProg).

(** [type Handler<T> = (visit, args, defaultHandler?) => Promise<any> | any] *)
Record Handler := {
  hname : nat;
  hbody : Visit -> Value -> HProg
}.

(** A default handler as the handler that receives it can call it. *)
Definition DefaultFn := Visit -> Value -> World -> Outcome Value * World.

Definition TypeError_not_a_function : Value := VPlain (PStr "TypeError: defaultHandler is not a function").

Fixpoint exec (p : HProg) (defaultHandler : option DefaultFn) (w : World)
  : Outcome Value * World :=
  match p with
  | Ret v => (Normal v, w)
  | Throw e => (Thrown e, w)
  | CallDefault v args k =>
      match defaultHandler with
      | None => (Thrown TypeError_not_a_function, w)
      | Some d =>
          match d v args w with
          | (Normal r, w') => exec (k r) defaultHandler w'
          | (Thrown e, w') => (Thrown e, w')
          end
      end
  end.

(** The call [handler(visit, args, defaultHandler)]. *)
Definition invoke (h : Handler) (v : Visit) (args : Value)
  (defaultHandler : option DefaultFn) (w : World) : Outcome Value * World :=
  exec (hbody h v args) defaultHandler (record_call (hname h) w).

Definition same_fn (a b : Handler) : bool := Nat.eqb (hname a) (hname b).

(** [type HookOptions]; an absent flag is [false], an absent priority [None]. *)
Record HookOptions := {
  opt_once : bool;
  opt_before : bool;
  opt_priority : option Z;
  opt_replace : bool
}.

Definition no_options : HookOptions :=
  {| opt_once := false; opt_before := false; opt_priority := None; opt_replace := false |}.

(** [type HookRegistration<T> = { id, hook, handler, defaultHandler? } & HookOptions] *)
Record HookRegistration := {
  reg_id : Z;
  reg_hook : string;
  reg_handler : Handler;
  reg_defaultHandler : option DefaultFn;
  reg_options : HookOptions
}.

Definition reg_once (r : HookRegistration) := opt_once (reg_options r).
Definition reg_before (r : HookRegistration) := opt_before (reg_options r).
Definition reg_priority (r : HookRegistration) := opt_priority (reg_options r).
Definition reg_replace (r : HookRegistration) := opt_replace (reg_options r).

(** [type HookLedger<T> = Map<Handler<T>, HookRegistration<T>>] *)
Definition HookLedger := list (Handler * HookRegistration).

(** The registry object together with the environment it acts on. *)
Record State := {
  registry : gmap string HookLedger;
  world : World
}.

Definition with_world (w : World) (st : State) : State :=
  {| registry := registry st; world := w |}.

Definition with_ledger (hook : string) (ledger : HookLedger) (st : State) : State :=
  {| registry := <[hook := ledger]> (registry st); world := world st |}.

Definition console_error (msg : string) (st : State) : State :=
  with_world (log LogError msg (world st)) st.

Definition console_warn (msg : string) (st : State) : State :=
  with_world (log LogWarn msg (world st)) st.

(** [protected readonly hooks: HookName[]] *)
Definition hooks : list string := [
  "animation:out:start"; "animation:out:await"; "animation:out:end";
  "animation:in:start"; "animation:in:await"; "animation:in:end";
  "animation:skip"; "cache:clear"; "cache:set"; "content:replace";
  "content:scroll"; "enable"; "disable"; "fetch:request"; "fetch:error";
  "history:popstate"; "link:click"; "link:self"; "link:anchor";
  "link:newtab"; "page:load"; "page:view"; "scroll:top"; "scroll:anchor";
  "visit:start"; "visit:end" ].

Definition create (hook : string) (st : State) : State :=
  match registry st !! hook with
  | Some _ => st
  | None => with_ledger hook [] st
  end.

Definition init (st : State) : State := foldl (fun s hook => create hook s) st hooks.

(** [new Hooks(swup)] *)
Definition new (w : World) : State := init {| registry := ∅; world := w |}.

Definition hook_exists (hook : string) (st : State) : bool :=
  bool_decide (is_Some (registry st !! hook)).

Definition get (hook : string) (st : State) : option HookLedger * State :=
  match registry st !! hook with
  | Some ledger => (Some ledger, st)
  | None => (None, console_error ("Unknown hook '" ++ hook ++ "'") st)
  end.

Definition clear (st : State) : State :=
  {| registry := (fun _ : HookLedger => []) <$> registry st; world := world st |}.

Definition HookUnregister := State -> State.

Definition off (hook : string) (handler : option Handler) (st : State) : State :=
  match get hook st with
  | (Some ledger, st1) =>
      match handler with
      | Some h =>
          let '(deleted, ledger') := Map_delete same_fn h ledger in
          let st2 := with_ledger hook ledger' st1 in
          if deleted then st2
          else console_warn ("Handler for hook '" ++ hook ++ "' not found.") st2
      | None => with_ledger hook [] st1
      end
  | (None, st1) => st1
  end.

Definition on (hook : string) (handler : Handler) (options : HookOptions) (st : State)
  : HookUnregister * State :=
  match get hook st with
  | (None, st1) =>
      (fun s => s, console_warn ("Hook '" ++ hook ++ "' not found.") st1)
  | (Some ledger, st1) =>
      let id := (Z.of_nat (Map_size ledger) + 1)%Z in
      let registration :=
        {| reg_id := id; reg_hook := hook; reg_handler := handler;
           reg_defaultHandler := None; reg_options := options |} in
      (fun s => off hook (Some handler) s,
       with_ledger hook (Map_set same_fn handler registration ledger) st1)
  end.

Definition before (hook : string) (handler : Handler) (options : HookOptions) :=
  on hook handler
    {| opt_once := opt_once options; opt_before := true;
       opt_priority := opt_priority options; opt_replace := opt_replace options |}.

Definition replace (hook : string) (handler : Handler) (options : HookOptions) :=
  on hook handler
    {| opt_once := opt_once options; opt_before := opt_before options;
       opt_priority := opt_priority options; opt_replace := true |}.

Definition once (hook : string) (handler : Handler) (options : HookOptions) :=
  on hook handler
    {| opt_once := true; opt_before := opt_before options;
       opt_priority := opt_priority options; opt_replace := opt_replace options |}.

(** [a.priority ?? 0] *)
Definition priority_or_0 (r : HookRegistration) : Z :=
  match reg_priority r with Some p => p | None => 0%Z end.

(** [return priority || id || 0] *)
Definition sortRegistrations (a b : HookRegistration) : Z :=
  let priority := (priority_or_0 a - priority_or_0 b)%Z in
  let id := (reg_id a - reg_id b)%Z in
  if (priority =? 0)%Z then (if (id =? 0)%Z then 0%Z else id) else priority.

(** Calling [defaultHandler(visit, args)] leaves its third parameter undefined. *)
Definition as_default (defaultHandler : Handler) : DefaultFn :=
  fun v args => invoke defaultHandler v args None.

(** [createDefaultHandler(index)]; [replace[index - 1]] is [undefined] when
    [index] is [0]. *)
Fixpoint createDefaultHandler (replace : list HookRegistration)
  (defaultHandler : Handler) (index : nat) : option DefaultFn :=
  match index with
  | 0 => Some (as_default defaultHandler)
  | S i =>
      match replace !! i with
      | Some next =>
          Some (fun v args =>
                  invoke (reg_handler next) v args
                    (createDefaultHandler replace defaultHandler i))
      | None => Some (as_default defaultHandler)
      end
  end.

Record Handlers := {
  found : bool;
  hs_before : list HookRegistration;
  hs_handler : list HookRegistration;
  hs_after : list HookRegistration;
  replaced : bool
}.

Definition main_registration (hook : string) (handler : Handler)
  (defaultHandler : option DefaultFn) : HookRegistration :=
  {| reg_id := 0; reg_hook := hook; reg_handler := handler;
     reg_defaultHandler := defaultHandler; reg_options := no_options |}.

Definition getHandlers (hook : string) (defaultHandler : option Handler) (st : State)
  : Handlers * State :=
  match get hook st with
  | (None, st1) =>
      ({| found := false; hs_before := []; hs_handler := []; hs_after := [];
          replaced := false |}, st1)
  | (Some ledger, st1) =>
      let sort := sortRegistrations in
      let registrations := Map_values ledger in
      let before :=
        Array_sort sort
          (List.filter (fun r => reg_before r && negb (reg_replace r)) registrations) in
      let replace := Array_sort sort (List.filter (fun r => reg_replace r) registrations) in
      let after :=
        Array_sort sort
          (List.filter (fun r => negb (reg_before r) && negb (reg_replace r)) registrations) in
      let replaced := (0 <? length replace)%nat in
      let handler :=
        match defaultHandler with
        | Some d =>
            if replaced then
              let index := (length replace - 1)%nat in
              match replace !! index with
              | Some last =>
                  [main_registration hook (reg_handler last)
                     (createDefaultHandler replace d index)]
              | None => [main_registration hook d None]
              end
            else [main_registration hook d None]
        | None => []
        end in
      ({| found := true; hs_before := before; hs_handler := handler;
          hs_after := after; replaced := replaced |}, st1)
  end.

Definition dispatchDomEvent (hook : string) (args : Value) (st : State) : State :=
  with_world
    (dispatch {| ev_type := "swup:" ++ hook; ev_hook := hook; ev_args := args;
                 ev_visit := visit (world st) |} (world st)) st.

(** Modelled from the spec: [isPromise] of [utils.js], which is not part of
    the sources; its tests accept promises and thenables and reject every
    other value. *)
Definition isPromise (v : Value) : bool :=
  match v with VPromise _ _ => true | VPlain _ => false end.

Definition sync_hook_warning (hook : string) : string :=
  "Promise returned from handler for synchronous hook '" ++ hook ++ "'." ++
  "Swup will not wait for it to resolve.".

Fixpoint runSync (registrations : list HookRegistration) (args : Value) (st : State)
  : Outcome (list Value) * State :=
  match registrations with
  | [] => (Normal [], st)
  | r :: rest =>
      match invoke (reg_handler r) (visit (world st)) args (reg_defaultHandler r) (world st) with
      | (Thrown e, w1) => (Thrown e, with_world w1 st)
      | (Normal result, w1) =>
          let st1 := with_world w1 st in
          let st2 :=
            if isPromise result then console_warn (sync_hook_warning (reg_hook r)) st1
            else st1 in
          let st3 := if reg_once r then off (reg_hook r) (Some (reg_handler r)) st2 else st2 in
          match runSync rest args st3 with
          | (Normal results, st4) => (Normal (result :: results), st4)
          | (Thrown e, st4) => (Thrown e, st4)
          end
      end
  end.

(** [await v]: a promise is waited for until it settles. *)
Definition await (v : Value) (w : World) : Outcome Value * World :=
  match v with
  | VPlain _ => (Normal v, w)
  | VPromise pid (Fulfils x) => (Normal (VPlain x), settle pid w)
  | VPromise pid (Rejects e) => (Thrown (VPlain e), settle pid w)
  end.

(** Modelled from the spec: [runAsPromise] of [utils.js], which is not part
    of the sources; by its tests the promise it returns resolves with the
    result of the function, awaited when that is itself a promise, and
    rejects when the function throws.  This is [await runAsPromise(f, args)]. *)
Definition await_runAsPromise (f : World -> Outcome Value * World) (w : World)
  : Outcome Value * World :=
  match f w with
  | (Normal v, w1) => await v w1
  | (Thrown e, w1) => (Thrown e, w1)
  end.

Fixpoint run (registrations : list HookRegistration) (args : Value) (st : State)
  : Outcome (list Value) * State :=
  match registrations with
  | [] => (Normal [], st)
  | r :: rest =>
      match await_runAsPromise
              (invoke (reg_handler r) (visit (world st)) args (reg_defaultHandler r))
              (world st) with
      | (Thrown e, w1) => (Thrown e, with_world w1 st)
      | (Normal result, w1) =>
          let st1 := with_world w1 st in
          let st2 := if reg_once r then off (reg_hook r) (Some (reg_handler r)) st1 else st1 in
          match run rest args st2 with
          | (Normal results, st3) => (Normal (result :: results), st3)
          | (Thrown e, st3) => (Thrown e, st3)
          end
      end
  end.

(** [const [result] = results] *)
Definition first_or_undefined (results : list Value) : Value :=
  match results with
  | [] => undefined
  | result :: _ => result
  end.

(** [async call(hook, args, defaultHandler)] *)
Definition call (hook : string) (args : Value) (defaultHandler : option Handler) (st : State)
  : Outcome Value * State :=
  let '(hs, st0) := getHandlers hook defaultHandler st in
  match run (hs_before hs) args st0 with
  | (Thrown e, st1) => (Thrown e, st1)
  | (Normal _, st1) =>
      match run (hs_handler hs) args st1 with
      | (Thrown e, st2) => (Thrown e, st2)
      | (Normal results, st2) =>
          let result := first_or_undefined results in
          match run (hs_after hs) args st2 with
          | (Thrown e, st3) => (Thrown e, st3)
          | (Normal _, st3) => (Normal result, dispatchDomEvent hook args st3)
          end
      end
  end.

(** [callSync(hook, args, defaultHandler)] *)
Definition callSync (hook : string) (args : Value) (defaultHandler : option Handler) (st : State)
  : Outcome Value * State :=
  let '(hs, st0) := getHandlers hook defaultHandler st in
  match runSync (hs_before hs) args st0 with
  | (Thrown e, st1) => (Thrown e, st1)
  | (Normal _, st1) =>
      match runSync (hs_handler hs) args st1 with
      | (Thrown e, st2) => (Thrown e, st2)
      | (Normal results, st2) =>
          let result := first_or_undefined results in
          match runSync (hs_after hs) args st2 with
          | (Thrown e, st3) => (Thrown e, st3)
          | (Normal _, st3) => (Normal result, dispatchDomEvent hook args st3)
          end
      end
  end.

End Hooks.

(** ** The render stage ([renderPage]) *)

Module Render.

(** Modelled from the spec: the page record of [Cache.js], which is not part
    of the sources: the resolved address, the address after redirects, the
    title and the content blocks. *)
Record PageRecord := {
  url : string;
  responseURL : string;
  title : string;
  blocks : list string
}.

(** [{ ...page, url }] *)
Definition with_url (page : PageRecord) (u : string) : PageRecord :=
  {| url := u; responseURL := responseURL page; title := title page; blocks := blocks page |}.

Definition PopStateEvent := nat.

(** [type PageRenderOptions] *)
Record PageRenderOptions := {
  event : option PopStateEvent;
  skipTransition : bool
}.

(** The state of the current history entry. *)
Record HistoryRecord := {
  hr_url : string;
  hr_source : string
}.

(** Calls to collaborators that are not part of the sources, in the order
    they are made. *)
Inductive Effect :=
| EventsRun (name : string) (ev : option PopStateEvent)
| ReplaceContent (page : PageRecord)
| EnterPage (opts : PageRenderOptions).

(** The swup instance and the browser state [renderPage] works on. *)
Record Swup := {
  classList : list string;
  location : string;
  historyState : option HistoryRecord;
  cache : gmap string PageRecord;
  currentPageUrl : string;
  scrollToElement : option string;
  options_cache : bool;
  effects : list Effect
}.

(** Helpers of [helpers.js] and options that are not part of the sources. *)
Class Helpers := {
  (** [Location.fromUrl(u).url] *)
  Location_fromUrl_url : string -> string;
  (** the configured path normalisation *)
  resolveUrl : string -> string
}.

Definition set_classList (c : list string) (s : Swup) : Swup :=
  {| classList := c; location := location s; historyState := historyState s;
     cache := cache s; currentPageUrl := currentPageUrl s;
     scrollToElement := scrollToElement s; options_cache := options_cache s;
     effects := effects s |}.

Definition set_cache (c : gmap string PageRecord) (s : Swup) : Swup :=
  {| classList := classList s; location := location s; historyState := historyState s;
     cache := c; currentPageUrl := currentPageUrl s;
     scrollToElement := scrollToElement s; options_cache := options_cache s;
     effects := effects s |}.

Definition set_currentPageUrl (u : string) (s : Swup) : Swup :=
  {| classList := classList s; location := location s; historyState := historyState s;
     cache := cache s; currentPageUrl := u;
     scrollToElement := scrollToElement s; options_cache := options_cache s;
     effects := effects s |}.

Definition set_scrollToElement (e : option string) (s : Swup) : Swup :=
  {| classList := classList s; location := location s; historyState := historyState s;
     cache := cache s; currentPageUrl := currentPageUrl s;
     scrollToElement := e; options_cache := options_cache s;
     effects := effects s |}.

Definition perform (e : Effect) (s : Swup) : Swup :=
  {| classList := classList s; location := location s; historyState := historyState s;
     cache := cache s; currentPageUrl := currentPageUrl s;
     scrollToElement := scrollToElement s; options_cache := options_cache s;
     effects := effects s ++ [e] |}.

(** [classList.remove(token)] and [classList.add(token)] of a [DOMTokenList]. *)
Definition classList_remove (token : string) (s : Swup) : Swup :=
  set_classList (List.filter (fun c => negb (String.eqb c token)) (classList s)) s.

Definition classList_add (token : string) (s : Swup) : Swup :=
  if existsb (String.eqb token) (classList s) then s
  else set_classList (classList s ++ [token]) s.

(** Modelled from the spec: [getCurrentUrl] of [helpers.js], which is not
    part of the sources: the address of the current location. *)
Definition getCurrentUrl (s : Swup) : string := location s.

(** Modelled from the spec: [updateHistoryRecord] of [helpers.js], which is
    not part of the sources: the current history entry is replaced by one
    that carries the marker of the controller and the address. *)
Definition updateHistoryRecord (u : string) (s : Swup) : Swup :=
  {| classList := classList s; location := u;
     historyState := Some {| hr_url := u; hr_source := "swup" |};
     cache := cache s; currentPageUrl := currentPageUrl s;
     scrollToElement := scrollToElement s; options_cache := options_cache s;
     effects := effects s |}.

Section WithHelpers.
Context {H : Helpers}.

(** Modelled from the spec: [isSameResolvedUrl] of the swup instance, which
    is not part of the sources: two addresses are the same page when their
    resolved forms agree. *)
Definition isSameResolvedUrl (url1 url2 : string) : bool :=
  String.eqb (resolveUrl url1) (resolveUrl url2).

(** Modelled from the spec: [cache.cacheUrl] of [Cache.js], which is not
    part of the sources: the record is stored under its resolved address,
    the last write wins, and the store is announced. *)
Definition cacheUrl (page : PageRecord) (s : Swup) : Swup :=
  perform (EventsRun "cache:set" None)
    (set_cache (<[resolveUrl (url page) := page]> (cache s)) s).

(** Modelled from the spec: the lookup of [Cache.js]. *)
Definition cache_lookup (u : string) (s : Swup) : option PageRecord :=
  cache s !! resolveUrl u.

(** Modelled from the spec: [cache.empty] of [Cache.js], which is not part
    of the sources: every record is dropped, and the clearing is announced. *)
Definition cache_empty (s : Swup) : Swup :=
  perform (EventsRun "cache:clear" None) (set_cache ∅ s).

(** Lines 22 to 29: the cache and the history follow a redirect. *)
Definition followRedirect (page : PageRecord) (s : Swup) : Swup :=
  let u := Location_fromUrl_url (responseURL page) in
  if negb (isSameResolvedUrl (getCurrentUrl s) u) then
    let s := cacheUrl (with_url page u) s in
    let s := set_currentPageUrl (getCurrentUrl s) s in
    updateHistoryRecord u s
  else s.

(** Lines 31 to 50: the content is replaced and the enter phase begins. *)
Definition replaceAndEnter (page : PageRecord) (opts : PageRenderOptions) (s : Swup) : Swup :=
  let s := if negb (skipTransition opts) then classList_add "is-rendering" s else s in
  let s := perform (EventsRun "willReplaceContent" (event opts)) s in
  let s := perform (ReplaceContent page) s in
  let s := perform (EventsRun "contentReplaced" (event opts)) s in
  let s := perform (EventsRun "pageView" (event opts)) s in
  let s := if negb (options_cache s) then cache_empty s else s in
  let s := perform (EnterPage opts) s in
  set_scrollToElement None s.

Definition renderPage (page : PageRecord) (opts : PageRenderOptions) (s : Swup) : Swup :=
  let s := classList_remove "is-leaving" s in
  if negb (isSameResolvedUrl (getCurrentUrl s) (url page)) then s
  else replaceAndEnter page opts (followRedirect page s).

End WithHelpers.

End Render.

(** ** The animation waiter ([getAnimationPromises]) *)

Module Animation.

(** An element: its identity and its computed style. *)
Record Element := {
  el_id : nat;
  getComputedStyle : string -> option string
}.

(** [element == event.target] *)
Definition same_element (a b : Element) : bool := Nat.eqb (el_id a) (el_id b).

(** An event dispatched in the document: its type, its target and the
    ancestors of the target it bubbles to. *)
Record Event := {
  ev_type : string;
  ev_target : Element;
  ev_ancestors : list Element
}.

(** The two kinds of promise the waiter creates. *)
Inductive AnimationPromise :=
| Promise_resolve
| Promise_listening (element : Element) (type : string).

(** A listener on [element] for [type] is run for the events of that type
    that reach the element. *)
Definition listener_runs (element : Element) (type : string) (ev : Event) : bool :=
  String.eqb (ev_type ev) type &&
  (same_element element (ev_target ev) || existsb (same_element element) (ev_ancestors ev)).

(** Whether the promise is resolved once the events [evs] were dispatched:
    the listener calls [resolve] when [element == event.target]. *)
Definition resolved_after (p : AnimationPromise) (evs : list Event) : bool :=
  match p with
  | Promise_resolve => true
  | Promise_listening element type =>
      existsb (fun ev => listener_runs element type ev && same_element element (ev_target ev)) evs
  end.

(** [await Promise.all(promises)] of [leavePage] goes on once every promise
    is resolved. *)
Definition Promise_all_resolved (promises : list AnimationPromise) (evs : list Event) : bool :=
  forallb (fun p => resolved_after p evs) promises.

(** Helpers of [helpers.js] and [utils.js], the option and the document,
    which are not part of the sources. *)
Class Env := {
  transitionEnd : string;
  transitionProperty : string;
  animationSelector : string;
  queryAll : string -> list Element
}.

Section WithEnv.
Context {E : Env}.

(** [!transitionDuration || transitionDuration == '0s'] *)
Definition no_transition (transitionDuration : option string) : bool :=
  match transitionDuration with
  | None => true
  | Some d => String.eqb d "" || String.eqb d "0s"
  end.

Definition no_transition_message : string :=
  "No CSS transition defined for element of selector " ++ animationSelector.

Definition no_elements_message : string :=
  "No animated elements found by selector " ++ animationSelector.

(** The body of [animatedElements.forEach]: the promises and the console so far. *)
Definition each (acc : list AnimationPromise * list (Level * string)) (element : Element)
  : list AnimationPromise * list (Level * string) :=
  let '(promises, console) := acc in
  let transitionDuration := getComputedStyle element (transitionProperty ++ "Duration") in
  if no_transition transitionDuration then
    ((promises ++ [Promise_resolve])%list,
     (console ++ [(LogError, no_transition_message)])%list)
  else
    ((promises ++ [Promise_listening element transitionEnd])%list, console).

Definition getAnimationPromises (console : list (Level * string))
  : list AnimationPromise * list (Level * string) :=
  let promises := [] in
  let animatedElements := queryAll animationSelector in
  if (length animatedElements =? 0)%nat then
    ([Promise_resolve], (console ++ [(LogError, no_elements_message)])%list)
  else
    foldl each (promises, console) animatedElements.

End WithEnv.

End Animation.


(** ** The leave stage ([leavePage]) *)

Module Leave.
Import Render.

Section WithEnv.
Context {E : Animation.Env}.

(** Modelled from the spec: [events.run(name, args, defaultHandler)] of the
    swup instance, which is not part of the sources: the hook is announced
    and, no handler replacing it, the default handler runs. *)
Definition events_run (name : string) (defaultHandler : Swup -> Swup) (s : Swup) : Swup :=
  defaultHandler (perform (EventsRun name None) s).

(** [leavePage], with the events [evs] dispatched while it waits for the
    animations; the flag tells whether the stage has ended. *)
Definition leavePage (opts : PageRenderOptions) (evs : list Animation.Event)
  (s : Swup) (console : list (Level * string)) : Swup * list (Level * string) * bool :=
  let isHistoryVisit := match event opts with Some _ => true | None => false end in
  if skipTransition opts then
    (events_run "animationSkipped" (fun s => s) s, console, true)
  else
    let s :=
      events_run "animationOutStart"
        (fun s =>
           let s :=
             classList_add "is-animating"
               (classList_add "is-leaving" (classList_add "is-changing" s)) in
           if isHistoryVisit then classList_add "is-popstate" s else s) s in
    let '(animationPromises, console) := Animation.getAnimationPromises console in
    if Animation.Promise_all_resolved animationPromises evs then
      (events_run "animationOutDone" (fun s => s) s, console, true)
    else (s, console, false).

End WithEnv.

End Leave.

(** ** The swup instance ([class Swup]): paths, clicks and history *)

Module SwupClass.

(** What a function given as an option may return. *)
Inductive JsValue :=
| JsString (s : string)
| JsOther.

(** The option [resolvePath]: a function, or something else. *)
Inductive ResolvePath :=
| NotAFunction
| Resolver (f : string -> JsValue).

(** A link element as the handlers see it; [address] and [hash] are what
    [new Link(el)] of [helpers.js], which is not part of the sources, gives
    as [getAddress()] and [getHash()]. *)
Record Anchor := {
  origin : string;
  closest_no_swup : bool;
  matches_download_or_blank : bool;
  address : string;
  hash : string;
  data_swup_transition : option string
}.

Record MouseEvent := {
  metaKey : bool;
  ctrlKey : bool;
  shiftKey : bool;
  altKey : bool;
  button : Z;
  delegateTarget : Anchor
}.

(** [event.state] of a popstate event. *)
Record HistoryState := {
  state_url : option string;
  state_source : option string
}.

Record PopStateEvent := {
  state : option HistoryState
}.

Record Options := {
  animateHistoryBrowsing : bool;
  ignoreLink : Anchor -> bool;
  resolvePath_option : ResolvePath;
  skipPopStateHandling : PopStateEvent -> bool
}.

(** The defaults of the constructor, in a window of the given origin. *)
Definition defaults (window_location_origin : string) : Options :=
  {| animateHistoryBrowsing := false;
     ignoreLink := fun el =>
       negb (String.eqb (origin el) window_location_origin) || closest_no_swup el;
     resolvePath_option := Resolver (fun path => JsString path);
     skipPopStateHandling := fun event =>
       match state event with
       | Some st =>
           match state_source st with
           | Some source => negb (String.eqb source "swup")
           | None => true
           end
       | None => true
       end |}.

(** Calls to modules and helpers that are not part of the sources, in the
    order they are made. *)
Inductive Action :=
| TriggerEvent (name : string)
| PreventDefault
| LoadPage (url : string) (customTransition : option string) (popstate : option PopStateEvent)
| CleanupAnimationClasses.

(** The instance, the browser state it works on and the document:
    [location_href] is [location.href], [getAnchorElement] tells whether
    the helper of that name finds an element, [Link_getAddress] and
    [Link_getHash] are the parts [new Link(url)] gives. *)
Record Instance := {
  options : Options;
  browser : Render.Swup;
  location_href : string;
  getAnchorElement : string -> bool;
  Link_getAddress : string -> string;
  Link_getHash : string -> string;
  console : list (Level * string);
  actions : list Action
}.

Definition with_browser (b : Render.Swup) (i : Instance) : Instance :=
  {| options := options i; browser := b; location_href := location_href i;
     getAnchorElement := getAnchorElement i; Link_getAddress := Link_getAddress i;
     Link_getHash := Link_getHash i; console := console i; actions := actions i |}.

Definition console_warn (msg : string) (i : Instance) : Instance :=
  {| options := options i; browser := browser i; location_href := location_href i;
     getAnchorElement := getAnchorElement i; Link_getAddress := Link_getAddress i;
     Link_getHash := Link_getHash i; console := console i ++ [(LogWarn, msg)];
     actions := actions i |}.

Definition act (a : Action) (i : Instance) : Instance :=
  {| options := options i; browser := browser i; location_href := location_href i;
     getAnchorElement := getAnchorElement i; Link_getAddress := Link_getAddress i;
     Link_getHash := Link_getHash i; console := console i;
     actions := actions i ++ [a] |}.

(** [getCurrentUrl()] *)
Definition getCurrentUrl (i : Instance) : string := Render.getCurrentUrl (browser i).

(** [resolvePath(path)] *)
Definition resolvePath (path : string) (i : Instance) : string * Instance :=
  match resolvePath_option (options i) with
  | NotAFunction =>
      (path, console_warn "[swup] options.resolvePath needs to be a function." i)
  | Resolver f =>
      match f path with
      | JsString result =>
          if String.eqb result "" then
            (path, console_warn "[swup] options.resolvePath needs to return a path" i)
          else (result, i)
      | JsOther =>
          (path, console_warn "[swup] options.resolvePath needs to return a path" i)
      end
  end.

(** [isSameResolvedPath(path1, path2)] *)
Definition isSameResolvedPath (path1 path2 : string) (i : Instance) : bool * Instance :=
  let '(r1, i) := resolvePath path1 i in
  let '(r2, i) := resolvePath path2 i in
  (String.eqb r1 r2, i).

Definition triggerWillOpenNewWindow (triggerEl : Anchor) : bool :=
  if matches_download_or_blank triggerEl then true else false.

(** [handleLinkToSamePage(url, hash, event)] *)
Definition handleLinkToSamePage (url hash : string) (i : Instance) : Instance :=
  if String.eqb hash "" then act (TriggerEvent "samePage") i
  else
    let i := act (TriggerEvent "samePageWithHash") i in
    let element := getAnchorElement i hash in
    if negb element then console_warn ("Element for offset not found (#" ++ hash ++ ")") i
    else with_browser (Render.updateHistoryRecord (url ++ hash) (browser i)) i.

(** [linkClickHandler(event)] *)
Definition linkClickHandler (event : MouseEvent) (i : Instance) : Instance :=
  let linkEl := delegateTarget event in
  if triggerWillOpenNewWindow linkEl then i
  else if ignoreLink (options i) linkEl then i
  else if metaKey event || ctrlKey event || shiftKey event || altKey event then
    act (TriggerEvent "openPageInNewTab") i
  else if negb (button event =? 0)%Z then i
  else
    let i := act (TriggerEvent "clickLink") i in
    let i := act PreventDefault i in
    let url := address linkEl in
    let hash := hash linkEl in
    if String.eqb url "" || String.eqb url (getCurrentUrl i) then
      handleLinkToSamePage url hash i
    else
      let '(same, i) := isSameResolvedPath url (getCurrentUrl i) i in
      if same then i
      else
        let i :=
          with_browser
            (Render.set_scrollToElement
               (if String.eqb hash "" then None else Some hash) (browser i)) i in
        let customTransition := data_swup_transition linkEl in
        act (LoadPage url customTransition None) i.

(** [popStateHandler(event)] *)
Definition popStateHandler (event : PopStateEvent) (i : Instance) : Instance :=
  if skipPopStateHandling (options i) event then i
  else
    let '(same, i) :=
      isSameResolvedPath (getCurrentUrl i) (Render.currentPageUrl (browser i)) i in
    if same then i
    else
      let url :=
        match state event with
        | Some st =>
            match state_url st with Some u => u | None => location_href i end
        | None => location_href i
        end in
      let i :=
        if negb (String.eqb (Link_getHash i url) "") then
          with_browser (Render.set_scrollToElement (Some (Link_getHash i url)) (browser i)) i
        else act PreventDefault i in
      let i := act (TriggerEvent "popState") i in
      let i :=
        if negb (animateHistoryBrowsing (options i)) then
          act CleanupAnimationClasses
            (with_browser (Render.classList_remove "is-animating" (browser i)) i)
        else i in
      act (LoadPage (Link_getAddress i url) None (Some event)) i.

End SwupClass.
(** * Properties *)

Import Hooks.
Local Open Scope list_scope.

(** ** Vocabulary of the statements *)

(** The order a comparator induces. *)
Definition cmp_le {A} (compareFn : A -> A -> Z) (x y : A) : Prop := (compareFn x y <= 0)%Z.

(** The world after the handlers named in [t] were invoked, in that order. *)
Definition add_calls (t : list nat) (w : World) : World :=
  {| visit := visit w; console := console w; domEvents := domEvents w;
     settled := settled w; calls := calls w ++ t |}.

(** A default handler is tame when all it does is invoke handlers whose
    names satisfy [X]. *)
Definition tame (X : nat -> Prop) (d : DefaultFn) : Prop :=
  forall v args w o w', d v args w = (o, w') ->
    exists t, w' = add_calls t w /\ Forall X t.

Definition opt_tame (X : nat -> Prop) (d : option DefaultFn) : Prop :=
  match d with Some d => tame X d | None => True end.

(** A registration as [on] stores it: without a default handler. *)
Definition plain_registration (r : HookRegistration) : bool :=
  match reg_defaultHandler r with None => true | Some _ => false end.

Definition reg_name (r : HookRegistration) : nat := hname (reg_handler r).

(** In the log [t], an invocation of [a] comes before an invocation of [b]. *)
Definition precedes (a b : nat) (t : list nat) : Prop :=
  exists t1 t2 t3, t = t1 ++ a :: t2 ++ b :: t3.

(** A handler that calls through: it hands its visit and arguments to the
    default handler and returns what that returns. *)
Definition callsThrough (h : Handler) : Prop :=
  forall v args, hbody h v args = CallDefault v args Ret.

(** How a world evolves while handlers run: the handlers named in [t] are
    invoked in that order, the console and the settled promises may grow,
    nothing else changes. *)
Record evolves (t : list nat) (w w' : World) : Prop := {
  evolves_visit : visit w' = visit w;
  evolves_domEvents : domEvents w' = domEvents w;
  evolves_calls : calls w' = calls w ++ t;
  evolves_console : exists c, console w' = console w ++ c;
  evolves_settled : exists s, settled w' = settled w ++ s
}.

(** The invocations of one registration: the handler itself, then what its
    default handler invokes. *)
Definition segment_of (X : nat -> Prop) (r : HookRegistration) (seg : list nat) : Prop :=
  exists t, seg = reg_name r :: t /\ Forall X t.

(** What [run] and [runSync] have in common. *)
Definition runner_sound
  (runner : list HookRegistration -> Value -> State -> Outcome (list Value) * State) : Prop :=
  forall X regs args st o st',
    Forall (fun r => opt_tame X (reg_defaultHandler r)) regs ->
    runner regs args st = (o, st') ->
    exists t, evolves t (world st) (world st') /\
      match o with
      | Normal rs =>
          length rs = length regs /\
          exists segs, t = concat segs /\ Forall2 (segment_of X) regs segs
      | Thrown _ => True
      end.

(** The steps [call] and [callSync] share, for either way of running the
    handlers. *)
Definition trigger
  (runner : list HookRegistration -> Value -> State -> Outcome (list Value) * State)
  (hook : string) (args : Value) (defaultHandler : option Handler) (st : State)
  : Outcome Value * State :=
  let '(hs, st0) := getHandlers hook defaultHandler st in
  match runner (hs_before hs) args st0 with
  | (Thrown e, st1) => (Thrown e, st1)
  | (Normal _, st1) =>
      match runner (hs_handler hs) args st1 with
      | (Thrown e, st2) => (Thrown e, st2)
      | (Normal results, st2) =>
          let result := first_or_undefined results in
          match runner (hs_after hs) args st2 with
          | (Thrown e, st3) => (Thrown e, st3)
          | (Normal _, st3) => (Normal result, dispatchDomEvent hook args st3)
          end
      end
  end.

(** The lists [getHandlers] computes from a ledger. *)
Definition before_of (ledger : HookLedger) : list HookRegistration :=
  Array_sort sortRegistrations
    (List.filter (fun r => reg_before r && negb (reg_replace r)) (Map_values ledger)).

Definition replace_of (ledger : HookLedger) : list HookRegistration :=
  Array_sort sortRegistrations (List.filter (fun r => reg_replace r) (Map_values ledger)).

Definition after_of (ledger : HookLedger) : list HookRegistration :=
  Array_sort sortRegistrations
    (List.filter (fun r => negb (reg_before r) && negb (reg_replace r)) (Map_values ledger)).

Definition main_of (hook : string) (ledger : HookLedger) (defaultHandler : option Handler)
  : list HookRegistration :=
  match defaultHandler with
  | Some d =>
      if (0 <? length (replace_of ledger))%nat then
        let index := (length (replace_of ledger) - 1)%nat in
        match replace_of ledger !! index with
        | Some last =>
            [main_registration hook (reg_handler last)
               (createDefaultHandler (replace_of ledger) d index)]
        | None => [main_registration hook d None]
        end
      else [main_registration hook d None]
  | None => []
  end.

(** The handlers the main step of a trigger can invoke: the default
    handler and the replacements. *)
Definition main_names (ledger : HookLedger) (defaultHandler : option Handler) (n : nat) : Prop :=
  (exists d, defaultHandler = Some d /\ n = hname d) \/ In n (map reg_name (replace_of ledger)).

(** The registration [on] stores in a ledger. *)
Definition registration_of (hook : string) (handler : Handler) (options : HookOptions)
  (ledger : HookLedger) : HookRegistration :=
  {| reg_id := Z.of_nat (Map_size ledger) + 1; reg_hook := hook; reg_handler := handler;
     reg_defaultHandler := None; reg_options := options |}.

(** [options.priority ?? 0] *)
Definition effective_priority (options : HookOptions) : Z :=
  match opt_priority options with Some p => p | None => 0%Z end.

(** The name of the handler an entry of a ledger is stored under. *)
Definition key_name (kr : Handler * HookRegistration) : nat := hname (fst kr).

(** A ledger as the registry keeps it: every entry is the registration of
    its key, stored without a default handler, and no handler has two
    entries. *)
Definition ledger_ok (ledger : HookLedger) : bool :=
  forallb (fun kr => same_fn (fst kr) (reg_handler (snd kr)) && plain_registration (snd kr)) ledger
  && bool_decide (NoDup (map key_name ledger)).

(** The invariant of the registry: every ledger is as [ledger_ok] says. *)
Definition registry_ok (st : State) : Prop :=
  forall hook ledger, registry st !! hook = Some ledger -> ledger_ok ledger = true.

(** The handler [h] has no registration on [hook]. *)
Definition absent (hook : string) (h : Handler) (st : State) : Prop :=
  forall ledger, registry st !! hook = Some ledger -> Map_get same_fn h ledger = None.

(** How [run] and [runSync] treat the registry: they keep its invariant,
    they register nothing, and they remove what was registered with [once]. *)
Definition runner_tidy
  (runner : list HookRegistration -> Value -> State -> Outcome (list Value) * State) : Prop :=
  (forall regs args st o st',
     registry_ok st -> runner regs args st = (o, st') -> registry_ok st') /\
  (forall hook h regs args st o st',
     absent hook h st -> runner regs args st = (o, st') -> absent hook h st') /\
  (forall regs args st rs st' r0,
     registry_ok st -> In r0 regs -> reg_once r0 = true ->
     runner regs args st = (Normal rs, st') ->
     absent (reg_hook r0) (reg_handler r0) st').

(** [n] triggers of a hook, one after the other, each of which completes. *)
Fixpoint triggered
  (runner : list HookRegistration -> Value -> State -> Outcome (list Value) * State)
  (n : nat) (hook : string) (args : Value) (defaultHandler : option Handler)
  (st st' : State) : Prop :=
  match n with
  | 0 => st' = st
  | S n =>
      exists v st1,
        trigger runner hook args defaultHandler st = (Normal v, st1) /\
        triggered runner n hook args defaultHandler st1 st'
  end.

(** Inputs of the examples. *)
Module Examples.

Definition w0 : World :=
  {| visit := 0; console := []; domEvents := []; settled := []; calls := [] |}.

Definition fresh : State := new w0.

(** A handler that returns [v]. *)
Definition returning (n : nat) (v : Value) : Handler :=
  {| hname := n; hbody := fun _ _ => Ret v |}.

(** A handler that calls through to its default handler. *)
Definition passThrough (n : nat) : Handler :=
  {| hname := n; hbody := fun v args => CallDefault v args Ret |}.

Definition options (once before : bool) (priority : option Z) (replace : bool) : HookOptions :=
  {| opt_once := once; opt_before := before; opt_priority := priority; opt_replace := replace |}.

Definition with_priority (p : Z) : HookOptions := options false false (Some p) false.

Definition registered (hook : string) (h : Handler) (o : HookOptions) (st : State) : State :=
  snd (on hook h o st).

(** [on(h1, {priority: 1})], then [on(h2, {priority: 2, before: true})]. *)
Definition across_groups : State :=
  registered "enable" (returning 2 undefined) (options false true (Some 2%Z) false)
    (registered "enable" (returning 1 undefined) (with_priority 1) fresh).

(** [on(h1, {priority: 2})], then [on(h2, {priority: 1})]. *)
Definition reversed_priorities : State :=
  registered "enable" (returning 2 undefined) (with_priority 1)
    (registered "enable" (returning 1 undefined) (with_priority 2) fresh).

(** [on(a)], [on(b)], [on(c)], [off(a)], [off(b)], [on(d)], all with the
    default options. *)
Definition reused_ids : State :=
  registered "enable" (returning 4 undefined) no_options
    (off "enable" (Some (returning 2 undefined))
       (off "enable" (Some (returning 1 undefined))
          (registered "enable" (returning 3 undefined) no_options
             (registered "enable" (returning 2 undefined) no_options
                (registered "enable" (returning 1 undefined) no_options fresh))))).

(** [on(h, {once: true, replace: true})] *)
Definition once_replacement : State :=
  registered "enable" (returning 1 undefined) (options true false None true) fresh.

(** A pending promise that will be fulfilled with [1]. *)
Definition pending : Value := VPromise 7 (Fulfils (PNum 1)).

(** [on(h, {before: true})] for a handler that returns a promise. *)
Definition promise_before : State :=
  registered "enable" (returning 1 pending) (options false true None false) fresh.

End Examples.

(** What [runSync] keeps of the call of one registration: the value the
    handler returned, and a warning when that value is a promise. *)
Definition captured (v0 : Visit) (args : Value) (st' : State)
  (r : HookRegistration) (v : Value) : Prop :=
  (exists w w1, visit w = v0 /\
     invoke (reg_handler r) v0 args (reg_defaultHandler r) w = (Normal v, w1)) /\
  (isPromise v = true -> In (LogWarn, sync_hook_warning (reg_hook r)) (console (world st'))).

(** Inputs of the examples for the render stage. *)
Module RenderExamples.
Import Render.

(** Addresses are taken as they are. *)
Definition plain_helpers : Helpers :=
  {| Location_fromUrl_url := fun u => u; resolveUrl := fun u => u |}.

Definition page_a : PageRecord :=
  {| url := "/a"; responseURL := "/a"; title := "A"; blocks := ["<main>A</main>"] |}.

(** The page requested as [/old] was answered from [/new]. *)
Definition page_redirected : PageRecord :=
  {| url := "/old"; responseURL := "/new"; title := "New"; blocks := ["<main>New</main>"] |}.

Definition no_render_options : PageRenderOptions := {| event := None; skipTransition := false |}.

(** The visit to [/a] was superseded: the location is [/b] and the leave
    animation of the newer visit is running. *)
Definition superseded : Swup :=
  {| classList := ["is-changing"; "is-leaving"; "is-animating"];
     location := "/b";
     historyState := Some {| hr_url := "/b"; hr_source := "swup" |};
     cache := ∅; currentPageUrl := "/b"; scrollToElement := None;
     options_cache := true; effects := [] |}.

(** The visit to [/old] is current. *)
Definition visiting_old : Swup :=
  {| classList := ["is-changing"; "is-leaving"; "is-animating"];
     location := "/old";
     historyState := Some {| hr_url := "/old"; hr_source := "swup" |};
     cache := ∅; currentPageUrl := "/start"; scrollToElement := None;
     options_cache := true; effects := [] |}.

End RenderExamples.

(** The promise the animation waiter creates for an element, and the
    diagnostic that goes with it. *)
Definition promise_of {E : Animation.Env} (element : Animation.Element)
  : Animation.AnimationPromise :=
  if Animation.no_transition
       (Animation.getComputedStyle element (Animation.transitionProperty +:+ "Duration"))
  then Animation.Promise_resolve
  else Animation.Promise_listening element Animation.transitionEnd.

Definition diagnostic_of {E : Animation.Env} (element : Animation.Element)
  : list (Level * string) :=
  if Animation.no_transition
       (Animation.getComputedStyle element (Animation.transitionProperty +:+ "Duration"))
  then [(LogError, Animation.no_transition_message)]
  else [].

(** Inputs of the examples for the animation waiter. *)
Module AnimationExamples.
Import Animation.

Definition style (duration : option string) (property : string) : option string :=
  if String.eqb property "transitionDuration" then duration else None.

Definition animated : Element := {| el_id := 1; getComputedStyle := style (Some "0.3s") |}.
Definition still : Element := {| el_id := 2; getComputedStyle := style (Some "0s") |}.
Definition unstyled : Element := {| el_id := 3; getComputedStyle := style None |}.

Definition page (elements : list Element) : Env :=
  {| transitionEnd := "transitionend"; transitionProperty := "transition";
     animationSelector := "[class*='transition-']"; queryAll := fun _ => elements |}.

End AnimationExamples.

(** ** Vocabulary of the further properties *)

(** The states of a registry that is used through its methods. *)
Inductive reachable : State -> Prop :=
| reachable_new w : reachable (new w)
| reachable_create hook st : reachable st -> reachable (create hook st)
| reachable_on hook h o st : reachable st -> reachable (snd (on hook h o st))
| reachable_off hook h st : reachable st -> reachable (off hook h st)
| reachable_clear st : reachable st -> reachable (clear st)
| reachable_callSync hook args d st :
    reachable st -> reachable (snd (callSync hook args d st))
| reachable_call hook args d st :
    reachable st -> reachable (snd (call hook args d st)).

(** The event a trigger dispatches on the document. *)
Definition event_of (hook : string) (args : Value) (st : State) : DomEvent :=
  {| ev_type := "swup:" +:+ hook; ev_hook := hook; ev_args := args;
     ev_visit := visit (world st) |}.

(** [on(hook, h, options)] for each handler of a list, in that order. *)
Definition register_all (hook : string) (options : HookOptions) (handlers : list Handler)
  (st : State) : State :=
  foldl (fun s h => snd (on hook h options s)) st handlers.

(** The ledger [register_all] builds on a ledger of [n] entries. *)
Fixpoint fresh_ledger (hook : string) (options : HookOptions) (n : nat)
  (handlers : list Handler) : HookLedger :=
  match handlers with
  | [] => []
  | h :: handlers =>
      (h, {| reg_id := Z.of_nat n + 1; reg_hook := hook; reg_handler := h;
             reg_defaultHandler := None; reg_options := options |})
        :: fresh_ledger hook options (S n) handlers
  end.

(** Further inputs of the examples. *)
Module MoreExamples.

(** A handler that throws [e]. *)
Definition throwing (n : nat) (e : Value) : Handler :=
  {| hname := n; hbody := fun _ _ => Throw e |}.

Definition oops : Value := VPlain (PStr "oops").

(** [on(h, {})] for a handler that throws. *)
Definition with_throwing_handler : State :=
  Examples.registered "enable" (throwing 1 oops) no_options Examples.fresh.

(** [on(b, {before: true})] and [on(a, {})]. *)
Definition before_and_after : State :=
  Examples.registered "enable" (Examples.returning 2 undefined) no_options
    (Examples.registered "enable" (Examples.returning 1 undefined)
       (Examples.options false true None false) Examples.fresh).

(** [on(a)], [on(b)], [on(R1, {replace: true})], [off(a)], [off(b)],
    [on(R2, {replace: true})], where [R1] and [R2] call through. *)
Definition replaced_after_removals : State :=
  Examples.registered "enable" (Examples.passThrough 2) (Examples.options false false None true)
    (off "enable" (Some (Examples.returning 4 undefined))
       (off "enable" (Some (Examples.returning 3 undefined))
          (Examples.registered "enable" (Examples.passThrough 1)
             (Examples.options false false None true)
             (Examples.registered "enable" (Examples.returning 4 undefined) no_options
                (Examples.registered "enable" (Examples.returning 3 undefined) no_options
                   Examples.fresh))))).

End MoreExamples.

(** Completed triggers run one after the other, each one ended before the
    next begins: [true] stands for a [callSync], [false] for a [call]. *)
Fixpoint triggered_in_turn (kinds : list bool) (hook : string) (args : Value)
  (defaultHandler : option Handler) (st st' : State) : Prop :=
  match kinds with
  | [] => st' = st
  | sync :: kinds =>
      exists v st1,
        (if sync then callSync hook args defaultHandler st
         else call hook args defaultHandler st) = (Normal v, st1) /\
        triggered_in_turn kinds hook args defaultHandler st1 st'
  end.

(** The announcements of the cache among the calls to collaborators. *)
Definition is_cache_announcement (e : Render.Effect) : Prop :=
  e = Render.EventsRun "cache:set" None \/ e = Render.EventsRun "cache:clear" None.

(** The class list without a token. *)
Definition without (token : string) (classes : list string) : list string :=
  List.filter (fun c => negb (String.eqb c token)) classes.

(** The element has a transition the animation waiter waits for. *)
Definition transitions {E : Animation.Env} (element : Animation.Element) : bool :=
  negb (Animation.no_transition
          (Animation.getComputedStyle element (Animation.transitionProperty +:+ "Duration"))).

(** Among the events is a transition end whose target is the element. *)
Definition transition_ended {E : Animation.Env} (element : Animation.Element)
  (evs : list Animation.Event) : Prop :=
  exists ev, In ev evs /\
    Animation.ev_type ev = Animation.transitionEnd /\
    Animation.same_element element (Animation.ev_target ev) = true.

(** Every element the selector matches and that has a transition has seen
    its transition end. *)
Definition all_transitions_ended {E : Animation.Env} (evs : list Animation.Event) : Prop :=
  forall element, In element (Animation.queryAll Animation.animationSelector) ->
    transitions element = true -> transition_ended element evs.

(** The document once the leave animation was started. *)
Definition leaving (opts : Render.PageRenderOptions) (s : Render.Swup) : Render.Swup :=
  let s :=
    Render.classList_add "is-animating"
      (Render.classList_add "is-leaving"
         (Render.classList_add "is-changing"
            (Render.perform (Render.EventsRun "animationOutStart" None) s))) in
  match Render.event opts with Some _ => Render.classList_add "is-popstate" s | None => s end.

(** Elements whose transitions all have a zero duration, given as a list
    and in milliseconds. *)
Module ZeroDurations.

Definition zero_list : Animation.Element :=
  {| Animation.el_id := 4;
     Animation.getComputedStyle := AnimationExamples.style (Some "0s, 0s") |}.

Definition other : Animation.Element :=
  {| Animation.el_id := 5;
     Animation.getComputedStyle := AnimationExamples.style (Some "0.3s") |}.

End ZeroDurations.

(** Inputs of the examples for the leave stage. *)
Module LeaveExamples.

Definition ended (target : Animation.Element) : Animation.Event :=
  {| Animation.ev_type := "transitionend"; Animation.ev_target := target;
     Animation.ev_ancestors := [] |}.

(** The document before a visit starts. *)
Definition idle : Render.Swup :=
  {| Render.classList := ["swup-enabled"];
     Render.location := "/a";
     Render.historyState := Some {| Render.hr_url := "/a"; Render.hr_source := "swup" |};
     Render.cache := ∅; Render.currentPageUrl := "/start";
     Render.scrollToElement := None;
     Render.options_cache := true; Render.effects := [] |}.

Definition history_visit : Render.PageRenderOptions :=
  {| Render.event := Some 0%nat; Render.skipTransition := false |}.

Definition skipped : Render.PageRenderOptions :=
  {| Render.event := None; Render.skipTransition := true |}.

End LeaveExamples.

(** The calls the handler of the instance makes: those after the ones
    already made. *)
Definition new_actions (before after : SwupClass.Instance) : list SwupClass.Action :=
  drop (length (SwupClass.actions before)) (SwupClass.actions after).

(** The click is one the instance handles itself: the link opens no new
    window, is not ignored, and the left button was pressed without a
    modifier key. *)
Definition plain_click (event : SwupClass.MouseEvent) (i : SwupClass.Instance) : bool :=
  negb (SwupClass.matches_download_or_blank (SwupClass.delegateTarget event)) &&
  negb (SwupClass.ignoreLink (SwupClass.options i) (SwupClass.delegateTarget event)) &&
  negb (SwupClass.metaKey event || SwupClass.ctrlKey event ||
        SwupClass.shiftKey event || SwupClass.altKey event) &&
  (SwupClass.button event =? 0)%Z.

(** The instance with further warnings on the console. *)
Definition warned (msgs : list string) (i : SwupClass.Instance) : SwupClass.Instance :=
  foldl (fun i msg => SwupClass.console_warn msg i) i msgs.

(** The address a popstate event leads to: [event.state?.url ?? location.href]. *)
Definition popstate_url (event : SwupClass.PopStateEvent) (i : SwupClass.Instance) : string :=
  match SwupClass.state event with
  | Some st =>
      match SwupClass.state_url st with
      | Some u => u
      | None => SwupClass.location_href i
      end
  | None => SwupClass.location_href i
  end.

(** Inputs of the examples for the instance. *)
Module SwupExamples.
Import SwupClass.

Definition at_a : Render.Swup :=
  {| Render.classList := ["swup-enabled"; "is-animating"];
     Render.location := "/a";
     Render.historyState := Some {| Render.hr_url := "/a"; Render.hr_source := "swup" |};
     Render.cache := ∅; Render.currentPageUrl := "/a";
     Render.scrollToElement := None;
     Render.options_cache := true; Render.effects := [] |}.

(** An instance with the default options on the page [/a], whose document
    has an element for [#top] only. *)
Definition instance : Instance :=
  {| options := defaults "https://example.net";
     browser := at_a;
     location_href := "https://example.net/a";
     getAnchorElement := fun hash => String.eqb hash "#top";
     Link_getAddress := fun u => u;
     Link_getHash := fun _ => "";
     console := [];
     actions := [] |}.

Definition with_options (o : Options) (i : Instance) : Instance :=
  {| options := o; browser := browser i; location_href := location_href i;
     getAnchorElement := getAnchorElement i; Link_getAddress := Link_getAddress i;
     Link_getHash := Link_getHash i; console := console i; actions := actions i |}.

Definition link (address hash : string) : Anchor :=
  {| origin := "https://example.net"; closest_no_swup := false;
     matches_download_or_blank := false; address := address; hash := hash;
     data_swup_transition := None |}.

Definition click (target : Anchor) : MouseEvent :=
  {| metaKey := false; ctrlKey := false; shiftKey := false; altKey := false;
     button := 0; delegateTarget := target |}.

Definition ctrl_click (target : Anchor) : MouseEvent :=
  {| metaKey := false; ctrlKey := true; shiftKey := false; altKey := false;
     button := 0; delegateTarget := target |}.

(** A popstate event for an entry swup wrote for [/b]. *)
Definition back_to_b : PopStateEvent :=
  {| state := Some {| state_url := Some "/b"; state_source := Some "swup" |} |}.

(** A popstate event for an entry of another script. *)
Definition foreign : PopStateEvent :=
  {| state := Some {| state_url := Some "/b"; state_source := Some "other" |} |}.

(** The browser went back to [/b] while [/a] is displayed. *)
Definition went_back : Instance :=
  with_browser (Render.updateHistoryRecord "/b" at_a) instance.

(** A resolver that maps every path to [/]. *)
Definition one_page : Options :=
  {| animateHistoryBrowsing := false;
     ignoreLink := fun _ => false;
     resolvePath_option := Resolver (fun _ => JsString "/");
     skipPopStateHandling := fun _ => false |}.

(** A resolver that returns nothing. *)
Definition broken_resolver : Options :=
  {| animateHistoryBrowsing := false;
     ignoreLink := fun _ => false;
     resolvePath_option := Resolver (fun _ => JsOther);
     skipPopStateHandling := fun _ => false |}.

End SwupExamples.

(** ** [Array.prototype.sort] as modelled: a stable, sorted permutation *)

Section ArraySort.
Context {A : Type} (compareFn : A -> A -> Z).

Lemma Array_sort_insert_perm x l : Permutation (x :: l) (Array_sort_insert compareFn x l).
Proof.
  induction l as [|y l IH]; simpl; [reflexivity|].
  destruct (0 <? compareFn x y)%Z; [|reflexivity].
  rewrite perm_swap. by apply perm_skip.
Qed.

Lemma Array_sort_perm l : Permutation l (Array_sort compareFn l).
Proof.
  induction l as [|x l IH]; simpl; [reflexivity|].
  rewrite <- Array_sort_insert_perm. by apply perm_skip.
Qed.

Lemma Array_sort_length l : length (Array_sort compareFn l) = length l.
Proof. symmetry. apply Permutation_length, Array_sort_perm. Qed.

Lemma Array_sort_In x l : In x (Array_sort compareFn l) <-> In x l.
Proof.
  split; apply Permutation_in; [symmetry|]; apply Array_sort_perm.
Qed.

(** The comparator orders: what is greater one way is not greater the other
    way, and the order is transitive. *)
Hypothesis compare_antisym : forall x y, (0 < compareFn x y)%Z -> (compareFn y x <= 0)%Z.
Hypothesis compare_trans : forall x y z, cmp_le compareFn x y -> cmp_le compareFn y z -> cmp_le compareFn x z.

Lemma Array_sort_insert_sorted x l :
  StronglySorted (cmp_le compareFn) l -> StronglySorted (cmp_le compareFn) (Array_sort_insert compareFn x l).
Proof.
  induction 1 as [|y l Hs IH Hall]; simpl.
  - repeat constructor.
  - destruct (0 <? compareFn x y)%Z eqn:Hc.
    + apply Z.ltb_lt in Hc. constructor; [exact IH|].
      rewrite <- Array_sort_insert_perm. constructor; [|exact Hall].
      by apply compare_antisym.
    + apply Z.ltb_ge in Hc. constructor; [by constructor|].
      constructor; [exact Hc|].
      eapply Forall_impl; [exact Hall|]. intros z Hz. by eapply compare_trans.
Qed.

Lemma Array_sort_sorted l : StronglySorted (cmp_le compareFn) (Array_sort compareFn l).
Proof.
  induction l as [|x l IH]; simpl; [constructor|]. by apply Array_sort_insert_sorted.
Qed.

(** In a sorted list an element that compares smaller stands in front. *)
Lemma sorted_smaller_first x y l :
  StronglySorted (cmp_le compareFn) l -> In x l -> In y l -> (compareFn x y < 0)%Z ->
  (forall z, compareFn z z = 0%Z) -> (forall a b, (compareFn a b < 0)%Z -> (0 < compareFn b a)%Z) ->
  exists l1 l2 l3, l = l1 ++ x :: l2 ++ y :: l3.
Proof.
  intros Hs Hx Hy Hlt Hrefl Hflip.
  induction Hs as [|z l Hs IH Hall]; [destruct Hx|].
  destruct Hx as [->|Hx].
  - destruct Hy as [->|Hy].
    + rewrite Hrefl in Hlt. lia.
    + apply in_split in Hy as (l2 & l3 & ->). by exists [], l2, l3.
  - destruct Hy as [->|Hy].
    + rewrite Forall_forall in Hall. apply list_elem_of_In, Hall in Hx.
      apply Hflip in Hlt. unfold cmp_le in Hx. lia.
    + destruct (IH Hx Hy) as (l1 & l2 & l3 & ->). by exists (z :: l1), l2, l3.
Qed.

End ArraySort.

(** ** The order of registrations *)

Lemma sortRegistrations_le a b :
  (sortRegistrations a b <= 0)%Z <->
  (priority_or_0 a < priority_or_0 b)%Z \/
  (priority_or_0 a = priority_or_0 b /\ reg_id a <= reg_id b)%Z.
Proof.
  unfold sortRegistrations.
  destruct (Z.eqb_spec (priority_or_0 a - priority_or_0 b) 0);
    destruct (Z.eqb_spec (reg_id a - reg_id b) 0); lia.
Qed.

Lemma sortRegistrations_lt a b :
  (sortRegistrations a b < 0)%Z <->
  (priority_or_0 a < priority_or_0 b)%Z \/
  (priority_or_0 a = priority_or_0 b /\ reg_id a < reg_id b)%Z.
Proof.
  unfold sortRegistrations.
  destruct (Z.eqb_spec (priority_or_0 a - priority_or_0 b) 0);
    destruct (Z.eqb_spec (reg_id a - reg_id b) 0); lia.
Qed.

Lemma sortRegistrations_gt a b :
  (0 < sortRegistrations a b)%Z <-> (sortRegistrations b a < 0)%Z.
Proof.
  unfold sortRegistrations.
  destruct (Z.eqb_spec (priority_or_0 a - priority_or_0 b) 0);
    destruct (Z.eqb_spec (reg_id a - reg_id b) 0);
    destruct (Z.eqb_spec (priority_or_0 b - priority_or_0 a) 0);
    destruct (Z.eqb_spec (reg_id b - reg_id a) 0); lia.
Qed.

Lemma sortRegistrations_refl a : sortRegistrations a a = 0%Z.
Proof. unfold sortRegistrations. by rewrite !Z.sub_diag. Qed.

Lemma sorted_registrations l :
  StronglySorted (cmp_le sortRegistrations) (Array_sort sortRegistrations l).
Proof.
  apply Array_sort_sorted.
  - intros x y Hxy. apply sortRegistrations_gt in Hxy. lia.
  - unfold cmp_le. intros x y z Hxy Hyz.
    apply sortRegistrations_le in Hxy, Hyz. apply sortRegistrations_le. lia.
Qed.

(** Of two registrations that pass the same filter, the one with the lower
    priority number is sorted in front. *)
Lemma lower_priority_sorted_first (f : HookRegistration -> bool) r1 r2 l :
  In r1 l -> In r2 l -> f r1 = true -> f r2 = true ->
  (priority_or_0 r1 < priority_or_0 r2)%Z ->
  exists l1 l2 l3,
    Array_sort sortRegistrations (List.filter f l) = l1 ++ r1 :: l2 ++ r2 :: l3.
Proof.
  intros H1 H2 Hf1 Hf2 Hlt.
  apply (sorted_smaller_first sortRegistrations).
  - apply sorted_registrations.
  - apply Array_sort_In, filter_In. by split.
  - apply Array_sort_In, filter_In. by split.
  - apply sortRegistrations_lt. by left.
  - apply sortRegistrations_refl.
  - intros a b Hab. by apply sortRegistrations_gt.
Qed.

(** ** Handlers and the call log *)

Lemma add_calls_nil w : add_calls [] w = w.
Proof. destruct w. unfold add_calls. simpl. by rewrite app_nil_r. Qed.

Lemma add_calls_app t1 t2 w : add_calls t2 (add_calls t1 w) = add_calls (t1 ++ t2) w.
Proof. unfold add_calls. simpl. by rewrite app_assoc. Qed.

Lemma tame_weaken (X Y : nat -> Prop) d :
  (forall n, X n -> Y n) -> opt_tame X d -> opt_tame Y d.
Proof.
  intros HXY. destruct d as [d|]; [|done]. simpl.
  intros Hd v args w o w' Hrun. destruct (Hd _ _ _ _ _ Hrun) as (t & -> & Ht).
  exists t. split; [done|]. eapply Forall_impl; eauto.
Qed.

(** Without a default handler a program cannot invoke anything. *)
Lemma exec_None p w o w' : exec p None w = (o, w') -> w' = w.
Proof. destruct p; simpl; congruence. Qed.

Lemma exec_tame X p d w o w' :
  opt_tame X d -> exec p d w = (o, w') ->
  exists t, w' = add_calls t w /\ Forall X t.
Proof.
  intros Hd. revert w. induction p as [v|e|v args k IH]; intros w He; simpl in He.
  - inversion He; subst. exists []. by rewrite add_calls_nil.
  - inversion He; subst. exists []. by rewrite add_calls_nil.
  - destruct d as [d|].
    + destruct (d v args w) as [[r|e] w1] eqn:Hdw.
      * destruct (Hd _ _ _ _ _ Hdw) as (t1 & -> & Ht1).
        destruct (IH r _ He) as (t2 & -> & Ht2).
        exists (t1 ++ t2). rewrite add_calls_app. split; [done|].
        apply Forall_app. by split.
      * inversion He; subst. exact (Hd _ _ _ _ _ Hdw).
    + inversion He; subst. exists []. by rewrite add_calls_nil.
Qed.

Lemma invoke_tame X h v args d w o w' :
  opt_tame X d -> invoke h v args d w = (o, w') ->
  exists t, w' = add_calls (hname h :: t) w /\ Forall X t.
Proof.
  unfold invoke. intros Hd He.
  destruct (exec_tame _ _ _ _ _ _ Hd He) as (t & -> & Ht).
  exists t. split; [|done]. apply (add_calls_app [hname h] t w).
Qed.

Lemma invoke_None h v args w o w' :
  invoke h v args None w = (o, w') -> w' = add_calls [hname h] w.
Proof. unfold invoke. intros He. by apply exec_None in He. Qed.

Lemma as_default_tame d : tame (fun n => n = hname d) (as_default d).
Proof.
  intros v args w o w' He. apply invoke_None in He. exists [hname d].
  split; [done|]. by constructor.
Qed.

Lemma createDefaultHandler_tame replace d index :
  opt_tame (fun n => n = hname d \/ In n (map reg_name replace))
    (createDefaultHandler replace d index).
Proof.
  induction index as [|i IH]; simpl.
  - eapply (tame_weaken _ _ (Some _)); [|apply as_default_tame]. by left.
  - destruct (replace !! i) as [next|] eqn:Hnext; simpl.
    + intros v args w o w' He.
      destruct (invoke_tame _ _ _ _ _ _ _ _ IH He) as (t & -> & Ht).
      eexists. split; [done|]. constructor; [|done].
      right. change (hname (reg_handler next)) with (reg_name next).
      apply in_map, list_elem_of_In. by eapply list_elem_of_lookup_2.
    + eapply (tame_weaken _ _ (Some _)); [|apply as_default_tame]. by left.
Qed.

(** ** How the world evolves *)

Lemma evolves_refl w : evolves [] w w.
Proof.
  split; try done; [by rewrite app_nil_r | exists []; by rewrite app_nil_r ..].
Qed.

Lemma evolves_trans t1 t2 w w1 w2 :
  evolves t1 w w1 -> evolves t2 w1 w2 -> evolves (t1 ++ t2) w w2.
Proof.
  intros [Hv1 Hd1 Hc1 [c1 Hk1] [s1 Hs1]] [Hv2 Hd2 Hc2 [c2 Hk2] [s2 Hs2]].
  split.
  - congruence.
  - congruence.
  - rewrite Hc2, Hc1. by rewrite app_assoc.
  - exists (c1 ++ c2). rewrite Hk2, Hk1. by rewrite app_assoc.
  - exists (s1 ++ s2). rewrite Hs2, Hs1. by rewrite app_assoc.
Qed.

Lemma evolves_add_calls t w : evolves t w (add_calls t w).
Proof. split; try done; exists []; simpl; by rewrite app_nil_r. Qed.

Lemma evolves_log lvl msg w : evolves [] w (log lvl msg w).
Proof.
  split; simpl; try done; [by rewrite app_nil_r | by eexists | exists []; by rewrite app_nil_r].
Qed.

Lemma evolves_settle pid w : evolves [] w (settle pid w).
Proof.
  split; simpl; try done; [by rewrite app_nil_r | exists []; by rewrite app_nil_r | by eexists].
Qed.

Lemma evolves_await v w o w' : await v w = (o, w') -> evolves [] w w'.
Proof.
  destruct v as [x|pid [x|e]]; simpl; intros He; inversion He; subst;
    auto using evolves_refl, evolves_settle.
Qed.

Lemma get_world hook st :
  evolves [] (world st) (world (snd (get hook st))) /\
  settled (world (snd (get hook st))) = settled (world st) /\
  registry (snd (get hook st)) = registry st.
Proof.
  unfold get. destruct (registry st !! hook); simpl;
    auto using evolves_refl, evolves_log.
Qed.

Lemma off_world hook handler st :
  evolves [] (world st) (world (off hook handler st)) /\
  settled (world (off hook handler st)) = settled (world st).
Proof.
  unfold off, get. destruct (registry st !! hook) as [ledger|]; simpl.
  - destruct handler as [h|]; simpl; [|auto using evolves_refl].
    destruct (Map_delete same_fn h ledger) as [[] ledger']; simpl;
      auto using evolves_refl, evolves_log.
  - auto using evolves_log.
Qed.

(** ** [runSync] and [run] *)

(** What follows the call of a handler in the loop of [runSync]. *)
Lemma runSync_step_world (warn once : bool) msg hook h st :
  let st2 := if warn then console_warn msg st else st in
  let st3 := if once then off hook (Some h) st2 else st2 in
  evolves [] (world st) (world st3) /\ settled (world st3) = settled (world st).
Proof.
  simpl. destruct warn, once; simpl.
  - destruct (off_world hook (Some h) (console_warn msg st)) as [Hev Hs].
    split; [|by rewrite Hs].
    apply (evolves_trans [] [] _ _ _ (evolves_log LogWarn msg (world st)) Hev).
  - auto using evolves_log.
  - apply off_world.
  - auto using evolves_refl.
Qed.

Lemma runSync_sound : runner_sound runSync.
Proof.
  intros X regs. induction regs as [|r regs IH]; intros args st o st' Hall Hrun; simpl in Hrun.
  - inversion Hrun; subst. exists []. split; [apply evolves_refl|].
    split; [done|]. exists []. split; [done|constructor].
  - inversion Hall as [|? ? Hr Hrest]; subst.
    destruct (invoke (reg_handler r) (visit (world st)) args (reg_defaultHandler r) (world st))
      as [[result|e] w1] eqn:Hinv.
    + destruct (invoke_tame _ _ _ _ _ _ _ _ Hr Hinv) as (t & -> & Ht).
      match type of Hrun with context [runSync regs args ?s] => set (st3 := s) in * end.
      assert (Hstep : evolves (reg_name r :: t) (world st) (world st3)).
      { rewrite <- (app_nil_r (reg_name r :: t)).
        eapply evolves_trans; [apply evolves_add_calls|].
        apply (runSync_step_world (isPromise result) (reg_once r) _ _ _
                 (with_world (add_calls (hname (reg_handler r) :: t) (world st)) st)). }
      destruct (runSync regs args st3) as [[results|e] st4] eqn:Hrest'; inversion Hrun; subst.
      * destruct (IH _ _ _ _ Hrest Hrest') as (t' & Hev & Hlen & segs & -> & Hsegs).
        exists ((reg_name r :: t) ++ concat segs). split; [by eapply evolves_trans|].
        split; [simpl; by rewrite Hlen|].
        exists ((reg_name r :: t) :: segs). split; [done|].
        constructor; [by exists t|done].
      * destruct (IH _ _ _ _ Hrest Hrest') as (t' & Hev & _).
        exists ((reg_name r :: t) ++ t'). split; [by eapply evolves_trans|done].
    + inversion Hrun; subst.
      destruct (invoke_tame _ _ _ _ _ _ _ _ Hr Hinv) as (t & -> & Ht).
      exists (reg_name r :: t). split; [apply evolves_add_calls|done].
Qed.

(** [runSync] waits for no promise. *)
Lemma runSync_settled X regs args st o st' :
  Forall (fun r => opt_tame X (reg_defaultHandler r)) regs ->
  runSync regs args st = (o, st') ->
  settled (world st') = settled (world st).
Proof.
  revert st o st'. induction regs as [|r regs IH]; intros st o st' Hall Hrun; simpl in Hrun.
  - by inversion Hrun.
  - inversion Hall as [|? ? Hr Hrest]; subst.
    destruct (invoke (reg_handler r) (visit (world st)) args (reg_defaultHandler r) (world st))
      as [[result|e] w1] eqn:Hinv;
      destruct (invoke_tame _ _ _ _ _ _ _ _ Hr Hinv) as (t & -> & Ht).
    + match type of Hrun with context [runSync regs args ?s] => set (st3 := s) in * end.
      assert (Hstep : settled (world st3) = settled (world st)).
      { apply (runSync_step_world (isPromise result) (reg_once r) _ _ _
                 (with_world (add_calls (hname (reg_handler r) :: t) (world st)) st)). }
      destruct (runSync regs args st3) as [[results|e] st4] eqn:Hrest'; inversion Hrun; subst;
        rewrite (IH _ _ _ Hrest Hrest'); exact Hstep.
    + by inversion Hrun.
Qed.

Lemma run_sound : runner_sound run.
Proof.
  intros X regs. induction regs as [|r regs IH]; intros args st o st' Hall Hrun; simpl in Hrun.
  - inversion Hrun; subst. exists []. split; [apply evolves_refl|].
    split; [done|]. exists []. split; [done|constructor].
  - inversion Hall as [|? ? Hr Hrest]; subst. unfold await_runAsPromise in Hrun.
    destruct (invoke (reg_handler r) (visit (world st)) args (reg_defaultHandler r) (world st))
      as [[v|e] w0] eqn:Hinv;
      destruct (invoke_tame _ _ _ _ _ _ _ _ Hr Hinv) as (t & -> & Ht).
    + destruct (await v (add_calls (hname (reg_handler r) :: t) (world st)))
        as [[result|e] w1] eqn:Haw; apply evolves_await in Haw.
      * match type of Hrun with context [run regs args ?s] => set (st2 := s) in * end.
        assert (Hstep : evolves (reg_name r :: t) (world st) (world st2)).
        { rewrite <- (app_nil_r (reg_name r :: t)).
          eapply evolves_trans; [apply evolves_add_calls|].
          rewrite <- (app_nil_r []). eapply evolves_trans; [exact Haw|].
          apply (runSync_step_world false (reg_once r) "" _ _ (with_world w1 st)). }
        destruct (run regs args st2) as [[results|e] st3] eqn:Hrest'; inversion Hrun; subst.
        -- destruct (IH _ _ _ _ Hrest Hrest') as (t' & Hev & Hlen & segs & -> & Hsegs).
           exists ((reg_name r :: t) ++ concat segs). split; [by eapply evolves_trans|].
           split; [simpl; by rewrite Hlen|].
           exists ((reg_name r :: t) :: segs). split; [done|].
           constructor; [by exists t|done].
        -- destruct (IH _ _ _ _ Hrest Hrest') as (t' & Hev & _).
           exists ((reg_name r :: t) ++ t'). split; [by eapply evolves_trans|done].
      * inversion Hrun; subst. exists (reg_name r :: t). split; [|done].
        rewrite <- (app_nil_r (reg_name r :: t)).
        eapply evolves_trans; [apply evolves_add_calls|exact Haw].
    + inversion Hrun; subst. exists (reg_name r :: t). split; [apply evolves_add_calls|done].
Qed.

(** Registrations without a default handler invoke their handlers and
    nothing else. *)
Lemma plain_registration_tame r :
  plain_registration r = true -> opt_tame (fun _ => False) (reg_defaultHandler r).
Proof. unfold plain_registration. by destruct (reg_defaultHandler r). Qed.

Lemma plain_segments regs segs :
  Forall2 (segment_of (fun _ => False)) regs segs -> concat segs = map reg_name regs.
Proof.
  induction 1 as [|r seg regs segs (t & -> & Ht) _ IH]; simpl; [done|].
  destruct t as [|n t]; [by rewrite IH|].
  inversion Ht; subst. contradiction.
Qed.

Lemma runner_plain runner regs args st rs st' :
  runner_sound runner ->
  forallb plain_registration regs = true ->
  runner regs args st = (Normal rs, st') ->
  evolves (map reg_name regs) (world st) (world st').
Proof.
  intros Hsound Hplain Hrun.
  assert (Hall : Forall (fun r => opt_tame (fun _ => False) (reg_defaultHandler r)) regs).
  { apply Forall_forall. intros r Hr. apply plain_registration_tame.
    rewrite forallb_forall in Hplain. by apply Hplain, list_elem_of_In. }
  destruct (Hsound _ _ _ _ _ _ Hall Hrun) as (t & Hev & _ & segs & -> & Hsegs).
  by rewrite <- (plain_segments _ _ Hsegs).
Qed.

(** ** [getHandlers], [call] and [callSync] *)

Lemma callSync_trigger : callSync = trigger runSync.
Proof. reflexivity. Qed.

Lemma call_trigger : call = trigger run.
Proof. reflexivity. Qed.

Lemma getHandlers_known hook ledger defaultHandler st :
  registry st !! hook = Some ledger ->
  getHandlers hook defaultHandler st =
    ({| found := true; hs_before := before_of ledger;
        hs_handler := main_of hook ledger defaultHandler;
        hs_after := after_of ledger;
        replaced := (0 <? length (replace_of ledger))%nat |}, st).
Proof. intros Hl. unfold getHandlers, get. by rewrite Hl. Qed.

Lemma getHandlers_unknown hook defaultHandler st :
  registry st !! hook = None ->
  getHandlers hook defaultHandler st =
    ({| found := false; hs_before := []; hs_handler := []; hs_after := [];
        replaced := false |},
     console_error ("Unknown hook '" +:+ hook +:+ "'") st).
Proof. intros Hl. unfold getHandlers, get. by rewrite Hl. Qed.

Lemma forallb_sorted_filter (P f : HookRegistration -> bool) l :
  forallb P l = true -> forallb P (Array_sort sortRegistrations (List.filter f l)) = true.
Proof.
  rewrite !forallb_forall. intros Hall r Hr.
  apply Array_sort_In, filter_In in Hr as [Hr _]. by apply Hall.
Qed.

Lemma main_of_tame hook ledger defaultHandler :
  Forall (fun r => opt_tame (main_names ledger defaultHandler) (reg_defaultHandler r))
    (main_of hook ledger defaultHandler).
Proof.
  unfold main_of. destruct defaultHandler as [d|]; [|constructor].
  destruct (0 <? length (replace_of ledger))%nat; [|by repeat constructor].
  destruct (replace_of ledger !! (length (replace_of ledger) - 1)%nat) as [last|];
    [|by repeat constructor].
  constructor; [|constructor]. simpl.
  eapply tame_weaken; [|apply createDefaultHandler_tame].
  intros n [->|Hn]; [left; by exists d|by right].
Qed.

Lemma main_of_names hook ledger defaultHandler r :
  In r (main_of hook ledger defaultHandler) -> main_names ledger defaultHandler (reg_name r).
Proof.
  unfold main_of. destruct defaultHandler as [d|]; [|by intros []].
  assert (Hd : main_names ledger (Some d) (hname d)) by (left; by exists d).
  destruct (0 <? length (replace_of ledger))%nat; [|by intros [<-|[]]].
  destruct (replace_of ledger !! (length (replace_of ledger) - 1)%nat) as [last|] eqn:Hlast;
    [|by intros [<-|[]]].
  intros [<-|[]]. right. change (In (reg_name last) (map reg_name (replace_of ledger))).
  apply in_map, list_elem_of_In. by eapply list_elem_of_lookup_2.
Qed.

Lemma segments_names (X : nat -> Prop) regs segs :
  Forall2 (segment_of X) regs segs -> (forall r, In r regs -> X (reg_name r)) ->
  Forall X (concat segs).
Proof.
  induction 1 as [|r seg regs segs (t & -> & Ht) _ IH]; intros Hnames; simpl; [constructor|].
  constructor; [apply Hnames; by left|].
  apply Forall_app. split; [done|]. apply IH. intros r' Hr'. apply Hnames. by right.
Qed.

(** A trigger that completes invokes the [before] handlers in their order,
    then the main handler and what it calls through to, then the [after]
    handlers in their order. *)
Lemma trigger_normal runner hook ledger args defaultHandler st v st' :
  runner_sound runner ->
  registry st !! hook = Some ledger ->
  forallb plain_registration (Map_values ledger) = true ->
  trigger runner hook args defaultHandler st = (Normal v, st') ->
  exists tm,
    calls (world st') =
      calls (world st) ++ map reg_name (before_of ledger) ++ tm ++ map reg_name (after_of ledger) /\
    Forall (main_names ledger defaultHandler) tm.
Proof.
  intros Hsound Hl Hplain Hrun. unfold trigger in Hrun.
  rewrite (getHandlers_known _ _ _ _ Hl) in Hrun. simpl in Hrun.
  destruct (runner (before_of ledger) args st) as [[rs1|e] st1] eqn:H1; [|done].
  destruct (runner (main_of hook ledger defaultHandler) args st1) as [[rs2|e] st2] eqn:H2; [|done].
  destruct (runner (after_of ledger) args st2) as [[rs3|e] st3] eqn:H3; [|done].
  inversion Hrun; subst. simpl.
  apply runner_plain in H1; [|done|by apply forallb_sorted_filter].
  apply runner_plain in H3; [|done|by apply forallb_sorted_filter].
  destruct (Hsound _ _ _ _ _ _ (main_of_tame hook ledger defaultHandler) H2)
    as (tm & Hev & _ & segs & -> & Hsegs).
  exists (concat segs). split.
  - rewrite (evolves_calls _ _ _ H3), (evolves_calls _ _ _ Hev), (evolves_calls _ _ _ H1).
    by rewrite <- !app_assoc.
  - eapply segments_names; [exact Hsegs|]. apply main_of_names.
Qed.

(** ** Priorities *)

Lemma precedes_app_l a b t0 t : precedes a b t -> precedes a b (t0 ++ t).
Proof. intros (t1 & t2 & t3 & ->). exists (t0 ++ t1), t2, t3. by rewrite <- app_assoc. Qed.

Lemma precedes_app_r a b t t4 : precedes a b t -> precedes a b (t ++ t4).
Proof.
  intros (t1 & t2 & t3 & ->). exists t1, t2, (t3 ++ t4).
  by rewrite <- !app_assoc, <- !app_comm_cons, <- !app_assoc.
Qed.

Lemma precedes_map r1 r2 l1 l2 l3 :
  precedes (reg_name r1) (reg_name r2) (map reg_name (l1 ++ r1 :: l2 ++ r2 :: l3)).
Proof.
  exists (map reg_name l1), (map reg_name l2), (map reg_name l3).
  by rewrite map_app, map_cons, map_app, map_cons.
Qed.

Lemma priority_order_of_trigger runner hook ledger st r1 r2 args defaultHandler v st' :
  runner_sound runner ->
  registry st !! hook = Some ledger ->
  forallb plain_registration (Map_values ledger) = true ->
  In r1 (Map_values ledger) -> In r2 (Map_values ledger) ->
  reg_replace r1 = false -> reg_replace r2 = false ->
  reg_before r1 = reg_before r2 ->
  (priority_or_0 r1 < priority_or_0 r2)%Z ->
  trigger runner hook args defaultHandler st = (Normal v, st') ->
  exists t, calls (world st') = calls (world st) ++ t /\ precedes (reg_name r1) (reg_name r2) t.
Proof.
  intros Hsound Hl Hplain Hin1 Hin2 Hr1 Hr2 Hb Hlt Hrun.
  destruct (trigger_normal _ _ _ _ _ _ _ _ Hsound Hl Hplain Hrun) as (tm & Hcalls & _).
  eexists. split; [exact Hcalls|].
  destruct (reg_before r1) eqn:Hb1.
  - destruct (lower_priority_sorted_first
                (fun r => reg_before r && negb (reg_replace r)) r1 r2 _ Hin1 Hin2)
      as (l1 & l2 & l3 & Hsorted); [by rewrite Hb1, Hr1|by rewrite <- Hb, Hr2|done|].
    apply precedes_app_r. unfold before_of. rewrite Hsorted. apply precedes_map.
  - destruct (lower_priority_sorted_first
                (fun r => negb (reg_before r) && negb (reg_replace r)) r1 r2 _ Hin1 Hin2)
      as (l1 & l2 & l3 & Hsorted); [by rewrite Hb1, Hr1|by rewrite <- Hb, Hr2|done|].
    apply precedes_app_l, precedes_app_l. unfold after_of. rewrite Hsorted. apply precedes_map.
Qed.

(** C3, as stated, fails: a handler with the higher priority number that is
    marked [before] is invoked ahead of an unmarked handler with the lower
    number.  Here [h1] has priority 1, [h2] has priority 2 and [before],
    and the trigger invokes [h2], then [h1]. *)
Lemma priority_ignored_across_groups :
  (map (fun kr => (hname (fst kr), reg_priority (snd kr), reg_before (snd kr),
                   reg_replace (snd kr)))
     <$> registry Examples.across_groups !! "enable") =
    Some [(1, Some 1%Z, false, false); (2, Some 2%Z, true, false)] /\
  calls (world (snd (callSync "enable" undefined None Examples.across_groups))) = [2; 1] /\
  ~ precedes 1 2 [2; 1].
Proof.
  split; [by vm_compute|]. split; [by vm_compute|].
  intros (t1 & t2 & t3 & H).
  destruct t1 as [|a [|b [|c t1]]]; simpl in H; try discriminate.
  destruct t2; discriminate.
Qed.

(** C3, amended: for two handlers registered on a hook without [replace],
    both with [before] or both without, with priorities [p1 < p2], a trigger
    of the hook ([callSync] or [call]) that completes invokes the first
    before the second, whatever the order of registration. *)
Theorem lower_priority_runs_first hook ledger st r1 r2 args defaultHandler v st' :
  registry st !! hook = Some ledger ->
  forallb plain_registration (Map_values ledger) = true ->
  In r1 (Map_values ledger) -> In r2 (Map_values ledger) ->
  reg_replace r1 = false -> reg_replace r2 = false ->
  reg_before r1 = reg_before r2 ->
  (priority_or_0 r1 < priority_or_0 r2)%Z ->
  callSync hook args defaultHandler st = (Normal v, st') \/
  call hook args defaultHandler st = (Normal v, st') ->
  exists t, calls (world st') = calls (world st) ++ t /\ precedes (reg_name r1) (reg_name r2) t.
Proof.
  intros Hl Hplain Hin1 Hin2 Hr1 Hr2 Hb Hlt [Hrun|Hrun].
  - rewrite callSync_trigger in Hrun.
    eapply (priority_order_of_trigger runSync); eauto using runSync_sound.
  - rewrite call_trigger in Hrun.
    eapply (priority_order_of_trigger run); eauto using run_sound.
Qed.

(** The handler registered second has the lower priority number and is
    invoked first. *)
Lemma lower_priority_runs_first_witness :
  exists t,
    calls (world (snd (callSync "enable" undefined None Examples.reversed_priorities))) =
      calls (world Examples.reversed_priorities) ++ t /\
    precedes 2 1 t.
Proof.
  pose (h1 := Examples.returning 1 undefined). pose (h2 := Examples.returning 2 undefined).
  pose (r1 := registration_of "enable" h1 (Examples.with_priority 2) []).
  pose (r2 := registration_of "enable" h2 (Examples.with_priority 1) [(h1, r1)]).
  apply (lower_priority_runs_first "enable" [(h1, r1); (h2, r2)]
           Examples.reversed_priorities r2 r1 undefined None undefined).
  - by vm_compute.
  - reflexivity.
  - simpl. auto.
  - simpl. auto.
  - reflexivity.
  - reflexivity.
  - reflexivity.
  - by vm_compute.
  - left. by vm_compute.
Defined.

(** ** Registration *)

Lemma on_known hook handler options ledger st :
  registry st !! hook = Some ledger ->
  snd (on hook handler options st) =
    with_ledger hook
      (Map_set same_fn handler (registration_of hook handler options ledger) ledger) st.
Proof. intros Hl. unfold on, get. by rewrite Hl. Qed.

Lemma with_ledger_lookup hook ledger st :
  registry (with_ledger hook ledger st) !! hook = Some ledger.
Proof. simpl. apply lookup_insert_eq. Qed.

Lemma Map_set_fresh (k : Handler) (v : HookRegistration) m :
  Map_get same_fn k m = None -> Map_set same_fn k v m = m ++ [(k, v)].
Proof.
  induction m as [|[k' v'] m IH]; simpl; [done|].
  destruct (same_fn k' k); [done|]. intros Hm. by rewrite IH.
Qed.

Lemma Map_get_app_other (k k' : Handler) (v' : HookRegistration) m :
  same_fn k' k = false -> Map_get same_fn k (m ++ [(k', v')]) = Map_get same_fn k m.
Proof.
  intros Hne. induction m as [|[k0 v0] m IH]; simpl; [by rewrite Hne|].
  by destruct (same_fn k0 k).
Qed.

Lemma filter_none {A} (f : A -> bool) l :
  forallb (fun x => negb (f x)) l = true -> List.filter f l = [].
Proof.
  induction l as [|x l IH]; simpl; [done|].
  destruct (f x); simpl; [done|]. exact IH.
Qed.

(** ** The chain of replacements *)

(** On a hook triggered with a default handler [D], let [R1] and then [R2]
    be registered with [replace] and equal priority, one right after the
    other, neither registered before, as the only replacements.  Then [R2]
    is the main handler; the default handler it is handed runs [R1], and the
    default handler [R1] is handed runs [D]; when both call through, the
    handlers are invoked in the order [R2], [R1], [D]. *)
Theorem replace_chain_newest_outermost hook ledger st R1 R2 o1 o2 D :
  registry st !! hook = Some ledger ->
  forallb (fun r => negb (reg_replace r)) (Map_values ledger) = true ->
  Map_get same_fn R1 ledger = None ->
  Map_get same_fn R2 ledger = None ->
  hname R1 <> hname R2 ->
  opt_replace o1 = true -> opt_replace o2 = true ->
  effective_priority o1 = effective_priority o2 ->
  let st2 := snd (on hook R2 o2 (snd (on hook R1 o1 st))) in
  let main := hs_handler (fst (getHandlers hook (Some D) st2)) in
  exists d2 d1,
    main = [main_registration hook R2 (Some d2)] /\
    (forall v args w, d2 v args w = invoke R1 v args (Some d1) w) /\
    (forall v args w, d1 v args w = invoke D v args None w) /\
    (callsThrough R1 -> callsThrough R2 ->
     forall args s o s',
       runSync main args s = (o, s') \/ run main args s = (o, s') ->
       calls (world s') = calls (world s) ++ [hname R2; hname R1; hname D]).
Proof.
  intros Hl Hnone H1 H2 Hne Ho1 Ho2 Hprio st2 main.
  set (reg1 := registration_of hook R1 o1 ledger).
  set (ledger1 := ledger ++ [(R1, reg1)]).
  set (reg2 := registration_of hook R2 o2 ledger1).
  assert (Hne' : same_fn R1 R2 = false) by (by apply Nat.eqb_neq).
  assert (Hl2 : registry st2 !! hook = Some (ledger1 ++ [(R2, reg2)])).
  { unfold st2. rewrite (on_known _ _ _ _ _ Hl), (Map_set_fresh _ _ _ H1).
    fold reg1 ledger1.
    rewrite (on_known _ _ _ ledger1) by apply with_ledger_lookup.
    rewrite Map_set_fresh by (unfold ledger1; by rewrite Map_get_app_other).
    apply with_ledger_lookup. }
  assert (Hrep : replace_of (ledger1 ++ [(R2, reg2)]) = [reg1; reg2]).
  { unfold replace_of, Map_values, ledger1. rewrite !map_app, !List.filter_app.
    change (map snd ledger) with (Map_values ledger).
    rewrite (filter_none (fun r => reg_replace r) _ Hnone). simpl.
    unfold reg_replace at 1 2. simpl. rewrite Ho1, Ho2. simpl.
    destruct (0 <? sortRegistrations reg1 reg2)%Z eqn:Hc; [|done].
    apply Z.ltb_lt, sortRegistrations_gt, sortRegistrations_lt in Hc.
    unfold priority_or_0, reg_priority in Hc. simpl in Hc.
    unfold effective_priority in Hprio. unfold Map_size, ledger1 in Hc.
    rewrite length_app in Hc. simpl in Hc. lia. }
  assert (Hmain : main =
    [main_registration hook R2
       (Some (fun v args => invoke R1 v args (Some (as_default D))))]).
  { unfold main. rewrite (getHandlers_known _ _ _ _ Hl2). simpl.
    unfold main_of. by rewrite Hrep. }
  exists (fun v args => invoke R1 v args (Some (as_default D))), (as_default D).
  split; [exact Hmain|]. split; [done|]. split; [done|].
  intros Hc1 Hc2 args s o s' Hrun. rewrite Hmain in Hrun.
  assert (Hinv : forall w,
    invoke R2 (visit w) args (Some (fun v a => invoke R1 v a (Some (as_default D)))) w =
    (fst (invoke D (visit w) args None (add_calls [hname R2; hname R1] w)),
     add_calls [hname R2; hname R1; hname D] w)).
  { intros w. unfold invoke at 1. rewrite Hc2. simpl.
    unfold invoke at 1. rewrite Hc1. simpl. unfold as_default.
    destruct (invoke D (visit w) args None
                (record_call (hname R1) (record_call (hname R2) w))) as [o' w'] eqn:HD.
    change (record_call (hname R1) (record_call (hname R2) w))
      with (add_calls [hname R1] (add_calls [hname R2] w)) in HD.
    rewrite add_calls_app in HD. simpl in HD. rewrite HD.
    apply invoke_None in HD. subst w'. rewrite add_calls_app. simpl.
    by destruct o'. }
  destruct Hrun as [Hrun|Hrun]; simpl in Hrun; unfold await_runAsPromise in Hrun;
    rewrite Hinv in Hrun; simpl in Hrun;
    destruct (invoke D (visit (world s)) args None
                (add_calls [hname R2; hname R1] (world s))) as [[r|e] w'];
    simpl in Hrun.
  - destruct (isPromise r); inversion Hrun; subst; reflexivity.
  - inversion Hrun; subst; reflexivity.
  - destruct (await r _) as [[r'|e] w1] eqn:Haw; apply evolves_await in Haw;
      inversion Hrun; subst; simpl; rewrite (evolves_calls _ _ _ Haw); simpl;
      by rewrite app_nil_r.
  - inversion Hrun; subst; reflexivity.
Qed.

(** Two replacements that call through, registered on a fresh registry. *)
Lemma replace_chain_newest_outermost_witness :
  let R1 := Examples.passThrough 1 in
  let R2 := Examples.passThrough 2 in
  let D := Examples.returning 0 undefined in
  let o := Examples.options false false None true in
  let st2 := snd (on "enable" R2 o (snd (on "enable" R1 o Examples.fresh))) in
  let main := hs_handler (fst (getHandlers "enable" (Some D) st2)) in
  exists d2 d1,
    main = [main_registration "enable" R2 (Some d2)] /\
    (forall v args w, d2 v args w = invoke R1 v args (Some d1) w) /\
    (forall v args w, d1 v args w = invoke D v args None w) /\
    (callsThrough R1 -> callsThrough R2 ->
     forall args s o s',
       runSync main args s = (o, s') \/ run main args s = (o, s') ->
       calls (world s') = calls (world s) ++ [hname R2; hname R1; hname D]).
Proof.
  intros R1 R2 D o.
  apply (replace_chain_newest_outermost "enable" [] Examples.fresh R1 R2 o o D).
  - by vm_compute.
  - reflexivity.
  - reflexivity.
  - reflexivity.
  - simpl. lia.
  - reflexivity.
  - reflexivity.
  - reflexivity.
Defined.

(** The whole trigger on that registry invokes [R2], [R1], [D]. *)
Example replace_chain_trace :
  let R1 := Examples.passThrough 1 in
  let R2 := Examples.passThrough 2 in
  let D := Examples.returning 0 undefined in
  let o := Examples.options false false None true in
  let st2 := snd (on "enable" R2 o (snd (on "enable" R1 o Examples.fresh))) in
  calls (world (snd (callSync "enable" undefined (Some D) st2))) = [2; 1; 0] /\
  calls (world (snd (call "enable" undefined (Some D) st2))) = [2; 1; 0].
Proof. by vm_compute. Qed.

(** C1 does not hold of the code: the replacements are chained in the order
    of their ids, and an id is the size of the ledger plus one.  After
    [on(a)], [on(b)], [on(R1, {replace: true})], [off(a)], [off(b)],
    [on(R2, {replace: true})] the replacement [R1] has id 3 and [R2],
    registered after it with the same priority, has id 2: [R1] is the main
    handler, the default handler it is handed runs [R2], and a trigger with
    the default handler [D] invokes [R1], then [R2], then [D]. *)
Theorem replace_chain_follows_reused_ids :
  let D := Examples.returning 0 undefined in
  let st := MoreExamples.replaced_after_removals in
  (map (fun kr => (hname (fst kr), reg_id (snd kr), reg_replace (snd kr)))
     <$> registry st !! "enable") = Some [(1, 3%Z, true); (2, 2%Z, true)] /\
  map (fun r => hname (reg_handler r)) (hs_handler (fst (getHandlers "enable" (Some D) st))) =
    [1] /\
  calls (world (snd (callSync "enable" undefined (Some D) st))) = [1; 2; 0] /\
  calls (world (snd (call "enable" undefined (Some D) st))) = [1; 2; 0].
Proof. by vm_compute. Qed.

(** ** Unknown hook names *)

(** C9, as stated, fails: a trigger of an unknown hook name is observable,
    it dispatches the event [swup:<name>] on the document. *)
Lemma unknown_hook_dispatches_event :
  registry Examples.fresh !! "no:such:hook" = None /\
  domEvents (world Examples.fresh) = [] /\
  domEvents (world (snd (callSync "no:such:hook" undefined None Examples.fresh))) =
    [{| ev_type := "swup:no:such:hook"; ev_hook := "no:such:hook";
        ev_args := undefined; ev_visit := 0 |}].
Proof. by vm_compute. Qed.

(** C9, amended: registering a handler for an unknown hook name logs two
    diagnostics, registers nothing and returns an unregister function that
    does nothing.  Triggering an unknown hook name, with [callSync] or
    [call], logs a diagnostic and invokes no handler, not even the default
    handler it is given; it returns [undefined] without throwing, and its
    only other effect is the event [swup:<name>] dispatched on the document. *)
Theorem unknown_hook_is_harmless hook handler options args defaultHandler st :
  registry st !! hook = None ->
  let unknown := "Unknown hook '" +:+ hook +:+ "'" in
  let quiet := dispatchDomEvent hook args (console_error unknown st) in
  (registry (snd (on hook handler options st)) = registry st /\
   world (snd (on hook handler options st)) =
     log LogWarn ("Hook '" +:+ hook +:+ "' not found.") (log LogError unknown (world st)) /\
   forall s, fst (on hook handler options st) s = s) /\
  callSync hook args defaultHandler st = (Normal undefined, quiet) /\
  call hook args defaultHandler st = (Normal undefined, quiet) /\
  registry quiet = registry st /\
  calls (world quiet) = calls (world st) /\
  settled (world quiet) = settled (world st) /\
  console (world quiet) = console (world st) ++ [(LogError, unknown)] /\
  domEvents (world quiet) =
    domEvents (world st) ++
      [{| ev_type := "swup:" +:+ hook; ev_hook := hook; ev_args := args;
          ev_visit := visit (world st) |}].
Proof.
  intros Hl unknown quiet. split; [|split; [|split]].
  - unfold on, get. rewrite Hl. simpl. auto.
  - unfold callSync. by rewrite (getHandlers_unknown _ _ _ Hl).
  - unfold call. by rewrite (getHandlers_unknown _ _ _ Hl).
  - by repeat split.
Qed.

Lemma unknown_hook_is_harmless_witness :
  let hook := "no:such:hook" in
  let st := Examples.fresh in
  let unknown := "Unknown hook '" +:+ hook +:+ "'" in
  let quiet := dispatchDomEvent hook undefined (console_error unknown st) in
  (registry (snd (on hook (Examples.returning 1 undefined) no_options st)) = registry st /\
   world (snd (on hook (Examples.returning 1 undefined) no_options st)) =
     log LogWarn ("Hook '" +:+ hook +:+ "' not found.") (log LogError unknown (world st)) /\
   forall s, fst (on hook (Examples.returning 1 undefined) no_options st) s = s) /\
  callSync hook undefined (Some (Examples.returning 0 undefined)) st = (Normal undefined, quiet) /\
  call hook undefined (Some (Examples.returning 0 undefined)) st = (Normal undefined, quiet) /\
  registry quiet = registry st /\
  calls (world quiet) = calls (world st) /\
  settled (world quiet) = settled (world st) /\
  console (world quiet) = console (world st) ++ [(LogError, unknown)] /\
  domEvents (world quiet) =
    domEvents (world st) ++
      [{| ev_type := "swup:" +:+ hook; ev_hook := hook; ev_args := undefined;
          ev_visit := visit (world st) |}].
Proof.
  apply (unknown_hook_is_harmless "no:such:hook" (Examples.returning 1 undefined) no_options
           undefined (Some (Examples.returning 0 undefined)) Examples.fresh).
  by vm_compute.
Defined.

(** ** Registration ids *)

(** C5 does not hold of the code: an id is the size of the ledger plus one,
    so after handlers were removed ids repeat and run backwards.  After
    [on(a)], [on(b)], [on(c)], [off(a)], [off(b)], [on(d)] the handler [c]
    has id 3 and the handler [d], registered later with the same priority,
    has id 2; a trigger invokes [d] before [c]. *)
Theorem later_registration_gets_smaller_id :
  (map (fun kr => (hname (fst kr), reg_id (snd kr)))
     <$> registry Examples.reused_ids !! "enable") = Some [(3, 3%Z); (4, 2%Z)] /\
  calls (world (snd (callSync "enable" undefined None Examples.reused_ids))) = [4; 3] /\
  calls (world (snd (call "enable" undefined None Examples.reused_ids))) = [4; 3].
Proof. by vm_compute. Qed.

(** ** Handlers registered with [once] *)

(** C4 does not hold of the code for a handler registered with [once] and
    [replace]: the registration [getHandlers] builds for the main handler
    leaves [once] out, so the handler is not removed.  Two triggers invoke
    it twice and it is still registered after them. *)
Theorem once_replacement_runs_every_time :
  let D := Examples.returning 0 undefined in
  let st1 := snd (callSync "enable" undefined (Some D) Examples.once_replacement) in
  let st2 := snd (callSync "enable" undefined (Some D) st1) in
  calls (world st1) = [1] /\
  calls (world st2) = [1; 1] /\
  (map (fun kr => (hname (fst kr), reg_once (snd kr), reg_replace (snd kr)))
     <$> registry st2 !! "enable") = Some [(1, true, true)] /\
  calls (world (snd (call "enable" undefined (Some D)
                       (snd (call "enable" undefined (Some D) Examples.once_replacement))))) =
    [1; 1].
Proof. by vm_compute. Qed.

(** Without [replace], a handler registered with [once] is invoked by the
    first trigger and is gone for the second. *)
Example once_before_handler_trace :
  let D := Examples.returning 0 undefined in
  let st := Examples.registered "enable" (Examples.returning 1 undefined)
              (Examples.options true true None false) Examples.fresh in
  let st1 := snd (callSync "enable" undefined (Some D) st) in
  let st2 := snd (callSync "enable" undefined (Some D) st1) in
  calls (world st1) = [1; 0] /\ calls (world st2) = [1; 0; 0] /\
  registry st2 !! "enable" = Some [].
Proof. by vm_compute. Qed.

(** ** The synchronous trigger *)

Lemma console_grows t w w' x :
  evolves t w w' -> In x (console w) -> In x (console w').
Proof. intros [_ _ _ [c Hc] _] Hx. rewrite Hc. apply in_or_app. by left. Qed.

Lemma captured_later v0 args st st' r v :
  (forall x, In x (console (world st)) -> In x (console (world st'))) ->
  captured v0 args st r v -> captured v0 args st' r v.
Proof. intros Hmono [Hran Hwarn]. split; [done|]. intros Hp. by apply Hmono, Hwarn. Qed.

Lemma runSync_step_warns (once : bool) msg hook h st :
  In (LogWarn, msg)
    (console (world (if once then off hook (Some h) (console_warn msg st)
                     else console_warn msg st))).
Proof.
  assert (Hin : In (LogWarn, msg) (console (world (console_warn msg st)))).
  { simpl. apply in_or_app. right. by left. }
  destruct once; [|done].
  eapply console_grows; [apply off_world|done].
Qed.

Lemma Forall2_In_l {A B} (P : A -> B -> Prop) x l k :
  Forall2 P l k -> In x l -> exists y, P x y.
Proof.
  induction 1 as [|a b l k Hab _ IH]; intros Hx; [destruct Hx|].
  destruct Hx as [->|Hx]; eauto.
Qed.

(** [runSync] keeps the value every handler returned and warns about the
    promises among them. *)
Lemma runSync_captured X regs args st rs st' :
  Forall (fun r => opt_tame X (reg_defaultHandler r)) regs ->
  runSync regs args st = (Normal rs, st') ->
  Forall2 (captured (visit (world st)) args st') regs rs.
Proof.
  revert st rs st'. induction regs as [|r regs IH]; intros st rs st' Hall Hrun; simpl in Hrun.
  - inversion Hrun; subst. constructor.
  - inversion Hall as [|? ? Hr Hrest]; subst.
    destruct (invoke (reg_handler r) (visit (world st)) args (reg_defaultHandler r) (world st))
      as [[result|e] w1] eqn:Hinv; [|done].
    destruct (invoke_tame _ _ _ _ _ _ _ _ Hr Hinv) as (t & Hw1 & Ht).
    match type of Hrun with context [runSync regs args ?s] => set (st3 := s) in * end.
    destruct (runSync regs args st3) as [[results|e] st4] eqn:Hrest'; inversion Hrun; subst rs st4.
    destruct (runSync_sound _ _ _ _ _ _ Hrest Hrest') as (t' & Hev & _).
    assert (Hvisit : visit (world st3) = visit (world st)).
    { destruct (runSync_step_world (isPromise result) (reg_once r)
                  (sync_hook_warning (reg_hook r)) (reg_hook r) (reg_handler r)
                  (with_world w1 st)) as [Hstep _].
      fold st3 in Hstep. rewrite (evolves_visit _ _ _ Hstep). simpl. by rewrite Hw1. }
    constructor.
    + split; [by exists (world st), w1|].
      intros Hp. eapply console_grows; [exact Hev|].
      unfold st3. rewrite Hp. apply runSync_step_warns.
    + rewrite <- Hvisit. by eapply IH.
Qed.

(** C6: [callSync] waits for no promise: when it returns, the promises that
    were pending are still pending.  Its result is the value the main
    handler returned, a promise included; for every handler that returned a
    promise a warning is recorded. *)
Theorem callSync_does_not_wait hook ledger st args defaultHandler o st' :
  registry st !! hook = Some ledger ->
  forallb plain_registration (Map_values ledger) = true ->
  callSync hook args defaultHandler st = (o, st') ->
  settled (world st') = settled (world st) /\
  forall v, o = Normal v ->
    match main_of hook ledger defaultHandler with
    | [] => v = undefined
    | m :: _ => captured (visit (world st)) args st' m v
    end /\
    forall r, In r (Map_values ledger) -> reg_replace r = false ->
      exists v_r, captured (visit (world st)) args st' r v_r.
Proof.
  intros Hl Hplain Hrun. unfold callSync in Hrun.
  rewrite (getHandlers_known _ _ _ _ Hl) in Hrun. simpl in Hrun.
  assert (Hb : Forall (fun r => opt_tame (fun _ => False) (reg_defaultHandler r))
                 (before_of ledger)).
  { apply Forall_forall. intros r Hr. apply plain_registration_tame.
    apply list_elem_of_In, Array_sort_In, filter_In in Hr as [Hr _].
    rewrite forallb_forall in Hplain. by apply Hplain. }
  assert (Ha : Forall (fun r => opt_tame (fun _ => False) (reg_defaultHandler r))
                 (after_of ledger)).
  { apply Forall_forall. intros r Hr. apply plain_registration_tame.
    apply list_elem_of_In, Array_sort_In, filter_In in Hr as [Hr _].
    rewrite forallb_forall in Hplain. by apply Hplain. }
  pose proof (main_of_tame hook ledger defaultHandler) as Hm.
  destruct (runSync (before_of ledger) args st) as [[rs1|e] st1] eqn:H1.
  2:{ inversion Hrun; subst. split; [exact (runSync_settled _ _ _ _ _ _ Hb H1)|done]. }
  pose proof (runSync_settled _ _ _ _ _ _ Hb H1) as Hs1.
  destruct (runSync_sound _ _ _ _ _ _ Hb H1) as (t1 & Hev1 & _).
  destruct (runSync (main_of hook ledger defaultHandler) args st1) as [[rs2|e] st2] eqn:H2.
  2:{ inversion Hrun; subst. split; [|done].
      by rewrite (runSync_settled _ _ _ _ _ _ Hm H2). }
  pose proof (runSync_settled _ _ _ _ _ _ Hm H2) as Hs2.
  destruct (runSync_sound _ _ _ _ _ _ Hm H2) as (t2 & Hev2 & _).
  destruct (runSync (after_of ledger) args st2) as [[rs3|e] st3] eqn:H3.
  2:{ inversion Hrun; subst. split; [|done].
      by rewrite (runSync_settled _ _ _ _ _ _ Ha H3), Hs2. }
  pose proof (runSync_settled _ _ _ _ _ _ Ha H3) as Hs3.
  destruct (runSync_sound _ _ _ _ _ _ Ha H3) as (t3 & Hev3 & _).
  inversion Hrun; subst o st'. simpl. split; [by rewrite Hs3, Hs2|].
  intros v Hv. inversion Hv; subst v. clear Hv.
  apply runSync_captured with (X := fun _ => False) in H1; [|done].
  apply runSync_captured with (X := main_names ledger defaultHandler) in H2; [|done].
  apply runSync_captured with (X := fun _ => False) in H3; [|done].
  rewrite (evolves_visit _ _ _ Hev1) in H2.
  rewrite (evolves_visit _ _ _ Hev2), (evolves_visit _ _ _ Hev1) in H3.
  split.
  - destruct H2 as [|m v2 ms vs Hcap _]; [done|]. simpl.
    eapply captured_later; [|exact Hcap]. simpl. intros x Hx. by eapply console_grows.
  - intros r Hr Hrep. destruct (reg_before r) eqn:Hbefore.
    + destruct (Forall2_In_l _ r _ _ H1) as [v_r Hcap].
      { apply Array_sort_In, filter_In. split; [done|]. by rewrite Hbefore, Hrep. }
      exists v_r. eapply captured_later; [|exact Hcap]. simpl. intros x Hx.
      eapply console_grows; [exact Hev3|]. by eapply console_grows.
    + destruct (Forall2_In_l _ r _ _ H3) as [v_r Hcap].
      { apply Array_sort_In, filter_In. split; [done|]. by rewrite Hbefore, Hrep. }
      exists v_r. eapply captured_later; [|exact Hcap]. by simpl.
Qed.

(** A handler and a default handler that both return a pending promise. *)
Lemma callSync_does_not_wait_witness :
  let D := Examples.returning 0 Examples.pending in
  let st := Examples.promise_before in
  let st' := snd (callSync "enable" undefined (Some D) st) in
  let r := registration_of "enable" (Examples.returning 1 Examples.pending)
             (Examples.options false true None false) [] in
  settled (world st') = settled (world st) /\
  forall v, Normal (A := Value) Examples.pending = Normal v ->
    captured (visit (world st)) undefined st' (main_registration "enable" D None) v /\
    forall r', In r' [r] -> reg_replace r' = false ->
      exists v_r, captured (visit (world st)) undefined st' r' v_r.
Proof.
  intros D st st' r.
  apply (callSync_does_not_wait "enable" [(Examples.returning 1 Examples.pending, r)] st
           undefined (Some D) (Normal Examples.pending) st').
  - by vm_compute.
  - reflexivity.
  - by vm_compute.
Defined.

(** The result of [callSync] is the promise itself, nothing is settled and
    two warnings are on the console; [call] waits for the promises. *)
Example callSync_returns_the_promise :
  let D := Examples.returning 0 Examples.pending in
  let st := Examples.promise_before in
  fst (callSync "enable" undefined (Some D) st) = Normal Examples.pending /\
  settled (world (snd (callSync "enable" undefined (Some D) st))) = [] /\
  console (world (snd (callSync "enable" undefined (Some D) st))) =
    [(LogWarn, sync_hook_warning "enable"); (LogWarn, sync_hook_warning "enable")] /\
  fst (call "enable" undefined (Some D) st) = Normal (VPlain (PNum 1)) /\
  settled (world (snd (call "enable" undefined (Some D) st))) = [7; 7] /\
  console (world (snd (call "enable" undefined (Some D) st))) = [].
Proof. by vm_compute. Qed.

(** ** One registration per handler *)

Lemma same_fn_eq a b : same_fn a b = true <-> hname a = hname b.
Proof. apply Nat.eqb_eq. Qed.

Lemma Map_get_None_names (k : Handler) (m : HookLedger) :
  Map_get same_fn k m = None -> ~ In (hname k) (map key_name m).
Proof.
  induction m as [|[k' v'] m IH]; simpl; [tauto|].
  destruct (same_fn k' k) eqn:Hs; [done|].
  intros Hm [Heq|Hin]; [|by apply IH].
  apply Nat.eqb_neq in Hs. by apply Hs.
Qed.

(** [Map.prototype.set] on a key that is present replaces the value where
    the key stands. *)
Lemma Map_set_present (k : Handler) (v old : HookRegistration) (m : HookLedger) :
  Map_get same_fn k m = Some old ->
  exists m1 k' m2,
    m = m1 ++ (k', old) :: m2 /\ hname k' = hname k /\
    Map_set same_fn k v m = m1 ++ (k', v) :: m2.
Proof.
  induction m as [|[k0 v0] m IH]; simpl; [done|].
  destruct (same_fn k0 k) eqn:Hs.
  - intros [= ->]. exists [], k0, m. by rewrite <- same_fn_eq.
  - intros Hm. destruct (IH Hm) as (m1 & k' & m2 & -> & Hk & ->).
    by exists ((k0, v0) :: m1), k', m2.
Qed.

Lemma Map_get_set (k : Handler) (v : HookRegistration) (m : HookLedger) :
  Map_get same_fn k (Map_set same_fn k v m) = Some v.
Proof.
  induction m as [|[k0 v0] m IH]; simpl.
  - unfold same_fn. by rewrite Nat.eqb_refl.
  - destruct (same_fn k0 k) eqn:Hs; simpl; by rewrite Hs.
Qed.

Lemma ledger_ok_spec (m : HookLedger) :
  ledger_ok m = true <->
  (forall kr, In kr m ->
     hname (fst kr) = reg_name (snd kr) /\ plain_registration (snd kr) = true) /\
  NoDup (map key_name m).
Proof.
  unfold ledger_ok. rewrite andb_true_iff, forallb_forall, bool_decide_eq_true.
  split; intros [Hall Hnd]; (split; [|done]); intros kr Hkr; specialize (Hall kr Hkr).
  - apply andb_true_iff in Hall as [Hs Hp]. by apply same_fn_eq in Hs.
  - destruct Hall as [Hs Hp]. apply andb_true_iff. by rewrite same_fn_eq.
Qed.

(** The invariant is kept by [on]. *)
Lemma ledger_ok_set hook handler options (m m0 : HookLedger) :
  ledger_ok m = true ->
  ledger_ok (Map_set same_fn handler (registration_of hook handler options m0) m) = true.
Proof.
  rewrite !ledger_ok_spec. intros [Hall Hnd].
  destruct (Map_get same_fn handler m) as [old|] eqn:Hget.
  - destruct (Map_set_present _ (registration_of hook handler options m0) _ _ Hget)
      as (m1 & k' & m2 & -> & Hk & ->).
    split.
    + intros kr Hkr. apply in_app_or in Hkr as [Hkr|[<-|Hkr]].
      * apply Hall, in_or_app. by left.
      * by split.
      * apply Hall, in_or_app. right. by right.
    + by rewrite map_app in *.
  - rewrite (Map_set_fresh _ _ _ Hget). split.
    + intros kr Hkr. apply in_app_or in Hkr as [Hkr|[<-|[]]]; [by apply Hall|by split].
    + rewrite map_app. simpl. apply NoDup_app. split; [done|]. split.
      * intros n Hn [<-|[]]%list_elem_of_In.
        by apply (Map_get_None_names _ _ Hget), list_elem_of_In.
      * apply NoDup_singleton.
Qed.

(** [Map.prototype.delete] removes the entry of the key, if there is one. *)
Lemma Map_delete_spec (k : Handler) (m : HookLedger) :
  (Map_get same_fn k m = None /\ Map_delete same_fn k m = (false, m)) \/
  (exists m1 k' old m2,
     m = m1 ++ (k', old) :: m2 /\ hname k' = hname k /\
     Map_delete same_fn k m = (true, m1 ++ m2)).
Proof.
  induction m as [|[k0 v0] m IH]; simpl; [by left|].
  destruct (same_fn k0 k) eqn:Hs.
  - right. exists [], k0, v0, m. by rewrite <- same_fn_eq.
  - destruct IH as [[Hget ->]|(m1 & k' & old & m2 & -> & Hk & ->)]; [by left|].
    right. by exists ((k0, v0) :: m1), k', old, m2.
Qed.

(** The invariant is kept by [off]. *)
Lemma ledger_ok_delete handler (m : HookLedger) :
  ledger_ok m = true -> ledger_ok (snd (Map_delete same_fn handler m)) = true.
Proof.
  destruct (Map_delete_spec handler m)
    as [[_ ->]|(m1 & k' & old & m2 & -> & _ & ->)]; [done|].
  rewrite !ledger_ok_spec. simpl. intros [Hall Hnd]. split.
  - intros kr Hkr. apply Hall. apply in_app_or in Hkr as [Hkr|Hkr]; apply in_or_app; auto.
    right. by right.
  - rewrite map_app in *. simpl in Hnd.
    apply NoDup_app in Hnd as (Hnd1 & Hdisj & Hnd2).
    apply NoDup_cons in Hnd2 as [_ Hnd2].
    apply NoDup_app. split; [done|]. split; [|done].
    intros n Hn Hn2. apply (Hdisj n Hn). by right.
Qed.

Lemma ledger_names (m : HookLedger) :
  ledger_ok m = true -> map reg_name (Map_values m) = map key_name m.
Proof.
  rewrite ledger_ok_spec. intros [Hall _]. unfold Map_values. rewrite map_map.
  apply map_ext_in. intros kr Hkr. symmetry. by apply Hall.
Qed.

Lemma ledger_plain (m : HookLedger) :
  ledger_ok m = true -> forallb plain_registration (Map_values m) = true.
Proof.
  rewrite ledger_ok_spec. intros [Hall _]. apply forallb_forall. intros r Hr.
  apply in_map_iff in Hr as (kr & <- & Hkr). by apply Hall.
Qed.

Lemma Map_get_In (k : Handler) (v : HookRegistration) (m : HookLedger) :
  Map_get same_fn k m = Some v -> In v (Map_values m).
Proof.
  induction m as [|[k0 v0] m IH]; simpl; [done|].
  destruct (same_fn k0 k); [intros [= ->]; by left|right; by apply IH].
Qed.

Lemma unique_by_name l r1 r2 :
  NoDup (map reg_name l) -> In r1 l -> In r2 l -> reg_name r1 = reg_name r2 -> r1 = r2.
Proof.
  induction l as [|x l IH]; simpl; [done|].
  intros [Hx Hnd]%NoDup_cons [->|H1] [->|H2] Hname; [done| | |by apply IH].
  - exfalso. apply Hx. rewrite Hname. by apply list_elem_of_In, in_map.
  - exfalso. apply Hx. rewrite <- Hname. by apply list_elem_of_In, in_map.
Qed.

(** Among registrations with distinct handlers a filter keeps the handler
    of [r0] once or not at all. *)
Lemma count_filtered (f : HookRegistration -> bool) l r0 :
  NoDup (map reg_name l) -> In r0 l ->
  count_occ Nat.eq_dec (map reg_name (List.filter f l)) (reg_name r0) =
    if f r0 then 1 else 0.
Proof.
  induction l as [|x l IH]; simpl; [done|].
  intros [Hx Hnd]%NoDup_cons [->|Hin].
  - assert (Hrest : count_occ Nat.eq_dec (map reg_name (List.filter f l)) (reg_name r0) = 0).
    { apply count_occ_not_In. intros Hin. apply in_map_iff in Hin as (r & Hname & Hr).
      apply filter_In in Hr as [Hr _]. apply Hx. rewrite <- Hname.
      by apply list_elem_of_In, in_map. }
    destruct (f r0); simpl; [|done].
    destruct (Nat.eq_dec (reg_name r0) (reg_name r0)); [by rewrite Hrest|done].
  - assert (Hne : reg_name x <> reg_name r0).
    { intros Hname. apply Hx. rewrite Hname. by apply list_elem_of_In, in_map. }
    destruct (f x); simpl; [|by apply IH].
    destruct (Nat.eq_dec (reg_name x) (reg_name r0)); [done|by apply IH].
Qed.

Lemma count_sorted (f : HookRegistration -> bool) l n :
  count_occ Nat.eq_dec (map reg_name (Array_sort sortRegistrations (List.filter f l))) n =
  count_occ Nat.eq_dec (map reg_name (List.filter f l)) n.
Proof.
  apply Permutation_count_occ, Permutation_map. symmetry. apply Array_sort_perm.
Qed.

Lemma once_per_trigger runner hook ledger st r0 args defaultHandler v st' :
  runner_sound runner ->
  registry st !! hook = Some ledger ->
  ledger_ok ledger = true ->
  In r0 (Map_values ledger) -> reg_replace r0 = false ->
  (forall d, defaultHandler = Some d -> hname d <> reg_name r0) ->
  trigger runner hook args defaultHandler st = (Normal v, st') ->
  exists t, calls (world st') = calls (world st) ++ t /\
    count_occ Nat.eq_dec t (reg_name r0) = 1.
Proof.
  intros Hsound Hl Hok Hin Hrep HD Hrun.
  destruct (trigger_normal _ _ _ _ _ _ _ _ Hsound Hl (ledger_plain _ Hok) Hrun)
    as (tm & Hcalls & Hmain).
  eexists. split; [exact Hcalls|].
  assert (Hnd : NoDup (map reg_name (Map_values ledger))).
  { rewrite (ledger_names _ Hok). by apply ledger_ok_spec in Hok as [_ Hnd]. }
  assert (Htm : count_occ Nat.eq_dec tm (reg_name r0) = 0).
  { apply count_occ_not_In. intros Hin0.
    rewrite Forall_forall in Hmain. apply list_elem_of_In, Hmain in Hin0.
    destruct Hin0 as [(d & Hd & Hname)|Hin0]; [by apply (HD d)|].
    apply in_map_iff in Hin0 as (r & Hname & Hr).
    apply Array_sort_In, filter_In in Hr as [Hr Hrep'].
    rewrite (unique_by_name _ _ _ Hnd Hr Hin Hname) in Hrep'. congruence. }
  rewrite !count_occ_app, Htm. unfold before_of, after_of.
  rewrite !count_sorted, !(count_filtered _ _ _ Hnd Hin), Hrep.
  by destruct (reg_before r0).
Qed.

(** C10: a ledger has one registration per handler.  A second [on] with the
    same hook and handler does not add an entry: it replaces the
    registration of the handler by one with the new options and a new id,
    and the handler is invoked once by a trigger that completes. *)
Theorem second_on_overwrites hook h o1 o2 ledger st :
  registry st !! hook = Some ledger ->
  ledger_ok ledger = true ->
  let st1 := snd (on hook h o1 st) in
  let st2 := snd (on hook h o2 st1) in
  exists ledger1 ledger2,
    registry st1 !! hook = Some ledger1 /\
    registry st2 !! hook = Some ledger2 /\
    Map_size ledger2 = Map_size ledger1 /\
    ledger_ok ledger2 = true /\
    Map_get same_fn h ledger2 = Some (registration_of hook h o2 ledger1) /\
    (forall r, In r (Map_values ledger2) -> reg_name r = hname h ->
       r = registration_of hook h o2 ledger1) /\
    (opt_replace o2 = false ->
     forall args defaultHandler v st',
       (forall d, defaultHandler = Some d -> hname d <> hname h) ->
       callSync hook args defaultHandler st2 = (Normal v, st') \/
       call hook args defaultHandler st2 = (Normal v, st') ->
       exists t, calls (world st') = calls (world st2) ++ t /\
         count_occ Nat.eq_dec t (hname h) = 1).
Proof.
  intros Hl Hok st1 st2.
  set (r1 := registration_of hook h o1 ledger).
  set (ledger1 := Map_set same_fn h r1 ledger).
  set (r2 := registration_of hook h o2 ledger1).
  set (ledger2 := Map_set same_fn h r2 ledger1).
  assert (Hl1 : registry st1 !! hook = Some ledger1).
  { unfold st1. rewrite (on_known _ _ _ _ _ Hl). apply with_ledger_lookup. }
  assert (Hl2 : registry st2 !! hook = Some ledger2).
  { unfold st2. rewrite (on_known _ _ _ _ _ Hl1). apply with_ledger_lookup. }
  assert (Hok1 : ledger_ok ledger1 = true) by by apply ledger_ok_set.
  assert (Hok2 : ledger_ok ledger2 = true) by by apply ledger_ok_set.
  assert (Hget2 : Map_get same_fn h ledger2 = Some r2) by apply Map_get_set.
  assert (Hnd : NoDup (map reg_name (Map_values ledger2))).
  { rewrite (ledger_names _ Hok2). by apply ledger_ok_spec in Hok2 as [_ Hnd]. }
  assert (Huniq : forall r, In r (Map_values ledger2) -> reg_name r = hname h -> r = r2).
  { intros r Hr Hname. eapply unique_by_name; eauto using Map_get_In. }
  exists ledger1, ledger2. repeat split; try done.
  - destruct (Map_set_present h r2 r1 ledger1 (Map_get_set _ _ _))
      as (m1 & k' & m2 & Hm & _ & Hset).
    unfold ledger2, Map_size. rewrite Hset, Hm, !length_app. done.
  - intros Hrep args defaultHandler v st' HD Hrun.
    change (hname h) with (reg_name r2).
    destruct Hrun as [Hrun|Hrun].
    + rewrite callSync_trigger in Hrun.
      eapply (once_per_trigger runSync); eauto using runSync_sound, Map_get_In.
    + rewrite call_trigger in Hrun.
      eapply (once_per_trigger run); eauto using run_sound, Map_get_In.
Qed.

(** The handler is registered with a priority and [before], then again with
    the default options. *)
Lemma second_on_overwrites_witness :
  let h := Examples.returning 1 undefined in
  let o1 := Examples.options false true (Some 5%Z) false in
  let st1 := snd (on "enable" h o1 Examples.fresh) in
  let st2 := snd (on "enable" h no_options st1) in
  exists ledger1 ledger2,
    registry st1 !! "enable" = Some ledger1 /\
    registry st2 !! "enable" = Some ledger2 /\
    Map_size ledger2 = Map_size ledger1 /\
    ledger_ok ledger2 = true /\
    Map_get same_fn h ledger2 = Some (registration_of "enable" h no_options ledger1) /\
    (forall r, In r (Map_values ledger2) -> reg_name r = hname h ->
       r = registration_of "enable" h no_options ledger1) /\
    (opt_replace no_options = false ->
     forall args defaultHandler v st',
       (forall d, defaultHandler = Some d -> hname d <> hname h) ->
       callSync "enable" args defaultHandler st2 = (Normal v, st') \/
       call "enable" args defaultHandler st2 = (Normal v, st') ->
       exists t, calls (world st') = calls (world st2) ++ t /\
         count_occ Nat.eq_dec t (hname h) = 1).
Proof.
  intros h o1.
  apply (second_on_overwrites "enable" h o1 no_options [] Examples.fresh).
  - by vm_compute.
  - by vm_compute.
Defined.

(** After the two registrations the ledger holds the second one alone, with
    id 2, and a trigger invokes the handler once, after the default handler. *)
Example second_on_trace :
  let h := Examples.returning 1 undefined in
  let o1 := Examples.options false true (Some 5%Z) false in
  let st2 := snd (on "enable" h no_options (snd (on "enable" h o1 Examples.fresh))) in
  (map (fun kr => (key_name kr, reg_id (snd kr), reg_before (snd kr), reg_priority (snd kr)))
     <$> registry st2 !! "enable") = Some [(1, 2%Z, false, None)] /\
  calls (world (snd (callSync "enable" undefined
                       (Some (Examples.returning 0 undefined)) st2))) = [0; 1].
Proof. by vm_compute. Qed.

(** ** The invariant of the registry *)

Lemma registry_ok_with_ledger hook ledger st :
  registry_ok st -> ledger_ok ledger = true -> registry_ok (with_ledger hook ledger st).
Proof.
  intros Hok Hl hook' ledger'. simpl. rewrite lookup_insert.
  case_decide; [by intros [= <-]|apply Hok].
Qed.

Lemma registry_ok_world w st : registry_ok st -> registry_ok (with_world w st).
Proof. done. Qed.

Lemma registry_ok_new w : registry_ok (new w).
Proof.
  unfold new, init.
  assert (Hempty : registry_ok {| registry := ∅; world := w |}).
  { intros hook ledger. simpl. by rewrite lookup_empty. }
  revert Hempty. generalize {| registry := ∅; world := w |}.
  induction hooks as [|hook l IH]; intros st Hok; simpl; [done|].
  apply IH. unfold create. destruct (registry st !! hook); [done|].
  by apply registry_ok_with_ledger.
Qed.

Lemma registry_ok_on hook handler options st :
  registry_ok st -> registry_ok (snd (on hook handler options st)).
Proof.
  intros Hok. unfold on, get. destruct (registry st !! hook) as [ledger|] eqn:Hl; simpl.
  - apply registry_ok_with_ledger; [done|].
    apply (ledger_ok_set hook handler options ledger ledger). by eapply Hok.
  - done.
Qed.

Lemma registry_ok_off hook handler st :
  registry_ok st -> registry_ok (off hook handler st).
Proof.
  intros Hok. unfold off, get. destruct (registry st !! hook) as [ledger|] eqn:Hl; simpl.
  - destruct handler as [h|]; [|by apply registry_ok_with_ledger].
    pose proof (ledger_ok_delete h ledger (Hok _ _ Hl)) as Hdel.
    destruct (Map_delete same_fn h ledger) as [[] ledger']; simpl in *;
      by apply registry_ok_with_ledger.
  - done.
Qed.

Lemma registry_ok_clear st : registry_ok st -> registry_ok (clear st).
Proof.
  intros Hok hook ledger. unfold clear. simpl. rewrite lookup_fmap.
  destruct (registry st !! hook); simpl; [by intros [= <-]|done].
Qed.

Lemma registry_ok_runSync regs args st o st' :
  registry_ok st -> runSync regs args st = (o, st') -> registry_ok st'.
Proof.
  revert st o st'. induction regs as [|r regs IH]; intros st o st' Hok Hrun; simpl in Hrun.
  - by inversion Hrun; subst.
  - destruct (invoke _ _ _ _ _) as [[result|e] w1]; [|by inversion Hrun; subst].
    match type of Hrun with context [runSync regs args ?s] => set (st3 := s) in * end.
    assert (Hok3 : registry_ok st3).
    { unfold st3. destruct (isPromise result), (reg_once r);
        auto using registry_ok_off, registry_ok_world. }
    destruct (runSync regs args st3) as [[results|e] st4] eqn:Hrest; inversion Hrun; subst;
      by eapply IH.
Qed.

Lemma registry_ok_run regs args st o st' :
  registry_ok st -> run regs args st = (o, st') -> registry_ok st'.
Proof.
  revert st o st'. induction regs as [|r regs IH]; intros st o st' Hok Hrun; simpl in Hrun.
  - by inversion Hrun; subst.
  - destruct (await_runAsPromise _ _) as [[result|e] w1]; [|by inversion Hrun; subst].
    match type of Hrun with context [run regs args ?s] => set (st2 := s) in * end.
    assert (Hok2 : registry_ok st2).
    { unfold st2. destruct (reg_once r); auto using registry_ok_off, registry_ok_world. }
    destruct (run regs args st2) as [[results|e] st3] eqn:Hrest; inversion Hrun; subst;
      by eapply IH.
Qed.

Lemma registry_ok_trigger runner hook args defaultHandler st o st' :
  (forall regs args st o st',
     registry_ok st -> runner regs args st = (o, st') -> registry_ok st') ->
  registry_ok st -> trigger runner hook args defaultHandler st = (o, st') -> registry_ok st'.
Proof.
  intros Hrunner Hok Hrun. unfold trigger in Hrun.
  destruct (getHandlers hook defaultHandler st) as [hs st0] eqn:Hget.
  assert (Hok0 : registry_ok st0).
  { unfold getHandlers, get in Hget.
    destruct (registry st !! hook); inversion Hget; subst; done. }
  destruct (runner (hs_before hs) args st0) as [[rs1|e] st1] eqn:H1;
    [|inversion Hrun; subst; by eapply Hrunner].
  destruct (runner (hs_handler hs) args st1) as [[rs2|e] st2] eqn:H2;
    [|inversion Hrun; subst; eauto].
  destruct (runner (hs_after hs) args st2) as [[rs3|e] st3] eqn:H3;
    inversion Hrun; subst; [apply registry_ok_world|]; eauto.
Qed.

(** Every ledger of a registry that is used through its methods has one
    plain registration per handler. *)
Lemma registry_ok_callSync hook args defaultHandler st o st' :
  registry_ok st -> callSync hook args defaultHandler st = (o, st') -> registry_ok st'.
Proof. rewrite callSync_trigger. apply registry_ok_trigger, registry_ok_runSync. Qed.

Lemma registry_ok_call hook args defaultHandler st o st' :
  registry_ok st -> call hook args defaultHandler st = (o, st') -> registry_ok st'.
Proof. rewrite call_trigger. apply registry_ok_trigger, registry_ok_run. Qed.

(** ** Handlers registered with [once] and without [replace] *)

Lemma Map_get_None_iff (k : Handler) (m : HookLedger) :
  Map_get same_fn k m = None <-> ~ In (hname k) (map key_name m).
Proof.
  split; [apply Map_get_None_names|].
  induction m as [|[k' v'] m IH]; simpl; [done|].
  intros Hnot. destruct (same_fn k' k) eqn:Hs.
  - exfalso. apply Hnot. left. by apply same_fn_eq.
  - apply IH. intros Hin. apply Hnot. by right.
Qed.

Lemma Map_delete_keeps_absent (k h : Handler) (m : HookLedger) :
  Map_get same_fn h m = None -> Map_get same_fn h (snd (Map_delete same_fn k m)) = None.
Proof.
  rewrite !Map_get_None_iff. intros Hnot Hin. apply Hnot.
  destruct (Map_delete_spec k m) as [[_ Hd]|(m1 & k' & old & m2 & -> & _ & Hd)];
    rewrite Hd in Hin; simpl in Hin; [done|].
  rewrite map_app in *. apply in_app_or in Hin as [Hin|Hin]; apply in_or_app; auto.
  right. by right.
Qed.

Lemma Map_delete_removes (h : Handler) (m : HookLedger) :
  NoDup (map key_name m) -> Map_get same_fn h (snd (Map_delete same_fn h m)) = None.
Proof.
  intros Hnd.
  destruct (Map_delete_spec h m) as [[Hget Hd]|(m1 & k' & old & m2 & -> & Hk & Hd)];
    rewrite Hd; simpl; [done|].
  apply Map_get_None_iff. rewrite map_app in *. simpl in Hnd.
  apply NoDup_app in Hnd as (_ & Hdisj & Hnd2). apply NoDup_cons in Hnd2 as [Hk2 _].
  unfold key_name in Hdisj, Hk2 at 1. simpl in Hdisj, Hk2. rewrite Hk in *.
  intros Hin. apply in_app_or in Hin as [Hin|Hin].
  - apply (Hdisj (hname h)); [by apply list_elem_of_In|]. by left.
  - by apply Hk2, list_elem_of_In.
Qed.

Lemma absent_with_world hook h w st : absent hook h st -> absent hook h (with_world w st).
Proof. done. Qed.

Lemma off_keeps_absent hook h hook' handler st :
  absent hook h st -> absent hook h (off hook' handler st).
Proof.
  intros Habs. unfold off, get.
  destruct (registry st !! hook') as [ledger'|] eqn:Hl'; simpl; [|done].
  assert (Hcase : forall m (b : bool) msg,
    (hook' = hook -> Map_get same_fn h m = None) ->
    absent hook h (if b then with_ledger hook' m st
                   else console_warn msg (with_ledger hook' m st))).
  { intros m b msg Hm ledger. destruct b; simpl; rewrite lookup_insert;
      (case_decide; [intros [= <-]; by apply Hm|apply Habs]). }
  destruct handler as [k|].
  - destruct (Map_delete same_fn k ledger') as [deleted m] eqn:Hdel.
    apply Hcase. intros ->. change m with (snd (deleted, m)). rewrite <- Hdel.
    by apply Map_delete_keeps_absent, Habs.
  - apply (Hcase [] true ""). done.
Qed.

Lemma off_makes_absent hook h st :
  registry_ok st -> absent hook h (off hook (Some h) st).
Proof.
  intros Hok. unfold off, get.
  destruct (registry st !! hook) as [ledger|] eqn:Hl; simpl.
  - pose proof (Hok _ _ Hl) as [_ Hnd]%ledger_ok_spec.
    pose proof (Map_delete_removes h ledger Hnd) as Hgone.
    destruct (Map_delete same_fn h ledger) as [[] m]; simpl in *;
      intros ledger'; simpl; rewrite lookup_insert_eq; by intros [= <-].
  - intros ledger Hl'. simpl in Hl'.
    pose proof (eq_trans (eq_sym Hl') Hl) as Hcontra. discriminate Hcontra.
Qed.

Lemma runSync_keeps_absent hook h regs args st o st' :
  absent hook h st -> runSync regs args st = (o, st') -> absent hook h st'.
Proof.
  revert st o st'. induction regs as [|r regs IH]; intros st o st' Habs Hrun; simpl in Hrun.
  - by inversion Hrun; subst.
  - destruct (invoke _ _ _ _ _) as [[result|e] w1]; [|by inversion Hrun; subst].
    match type of Hrun with context [runSync regs args ?s] => set (st3 := s) in * end.
    assert (Habs3 : absent hook h st3).
    { unfold st3. destruct (isPromise result), (reg_once r);
        auto using off_keeps_absent, absent_with_world. }
    destruct (runSync regs args st3) as [[results|e] st4] eqn:Hrest; inversion Hrun; subst;
      by eapply IH.
Qed.

Lemma runSync_tidy : runner_tidy runSync.
Proof.
  split; [exact registry_ok_runSync|]. split; [exact runSync_keeps_absent|].
  intros regs. induction regs as [|r regs IH]; intros args st rs st' r0 Hok Hin Honce Hrun;
    simpl in Hrun; [destruct Hin|].
  destruct (invoke _ _ _ _ _) as [[result|e] w1]; [|done].
  match type of Hrun with context [runSync regs args ?s] => set (st3 := s) in * end.
  destruct (runSync regs args st3) as [[results|e] st4] eqn:Hrest; inversion Hrun; subst.
  assert (Hok3 : registry_ok st3).
  { unfold st3. destruct (isPromise result), (reg_once r);
      auto using registry_ok_off, registry_ok_world. }
  destruct Hin as [->|Hin]; [|by eapply IH].
  eapply runSync_keeps_absent; [|exact Hrest].
  unfold st3. rewrite Honce. apply off_makes_absent.
  destruct (isPromise result); auto using registry_ok_world.
Qed.

Lemma run_keeps_absent hook h regs args st o st' :
  absent hook h st -> run regs args st = (o, st') -> absent hook h st'.
Proof.
  revert st o st'. induction regs as [|r regs IH]; intros st o st' Habs Hrun; simpl in Hrun.
  - by inversion Hrun; subst.
  - destruct (await_runAsPromise _ _) as [[result|e] w1]; [|by inversion Hrun; subst].
    match type of Hrun with context [run regs args ?s] => set (st2 := s) in * end.
    assert (Habs2 : absent hook h st2).
    { unfold st2. destruct (reg_once r); auto using off_keeps_absent, absent_with_world. }
    destruct (run regs args st2) as [[results|e] st3] eqn:Hrest; inversion Hrun; subst;
      by eapply IH.
Qed.

Lemma run_tidy : runner_tidy run.
Proof.
  split; [exact registry_ok_run|]. split; [exact run_keeps_absent|].
  intros regs. induction regs as [|r regs IH]; intros args st rs st' r0 Hok Hin Honce Hrun;
    simpl in Hrun; [destruct Hin|].
  destruct (await_runAsPromise _ _) as [[result|e] w1]; [|done].
  match type of Hrun with context [run regs args ?s] => set (st2 := s) in * end.
  destruct (run regs args st2) as [[results|e] st3] eqn:Hrest; inversion Hrun; subst.
  assert (Hok2 : registry_ok st2).
  { unfold st2. destruct (reg_once r); auto using registry_ok_off, registry_ok_world. }
  destruct Hin as [->|Hin]; [|by eapply IH].
  eapply run_keeps_absent; [|exact Hrest].
  unfold st2. rewrite Honce. apply off_makes_absent. by apply registry_ok_world.
Qed.

Lemma getHandlers_registry hook defaultHandler st :
  registry (snd (getHandlers hook defaultHandler st)) = registry st.
Proof. unfold getHandlers, get. by destruct (registry st !! hook). Qed.

Lemma trigger_keeps_absent runner hook h hook' args defaultHandler st o st' :
  runner_tidy runner -> absent hook h st ->
  trigger runner hook' args defaultHandler st = (o, st') -> absent hook h st'.
Proof.
  intros (_ & Hkeep & _) Habs Hrun. unfold trigger in Hrun.
  pose proof (getHandlers_registry hook' defaultHandler st) as Hreg.
  destruct (getHandlers hook' defaultHandler st) as [hs st0]. simpl in Hreg.
  assert (Habs0 : absent hook h st0) by (unfold absent; by rewrite Hreg).
  destruct (runner (hs_before hs) args st0) as [[rs1|e] st1] eqn:H1;
    [|inversion Hrun; subst; eauto].
  destruct (runner (hs_handler hs) args st1) as [[rs2|e] st2] eqn:H2;
    [|inversion Hrun; subst; eauto].
  destruct (runner (hs_after hs) args st2) as [[rs3|e] st3] eqn:H3;
    inversion Hrun; subst; [apply absent_with_world|]; eauto.
Qed.

Lemma trigger_removes_once runner hook ledger r0 args defaultHandler st v st' :
  runner_tidy runner -> registry_ok st ->
  registry st !! hook = Some ledger ->
  In r0 (Map_values ledger) -> reg_once r0 = true -> reg_replace r0 = false ->
  trigger runner hook args defaultHandler st = (Normal v, st') ->
  absent (reg_hook r0) (reg_handler r0) st'.
Proof.
  intros (Hok & Hkeep & Hremove) Hst Hl Hin Honce Hrep Hrun. unfold trigger in Hrun.
  rewrite (getHandlers_known _ _ _ _ Hl) in Hrun. simpl in Hrun.
  destruct (runner (before_of ledger) args st) as [[rs1|e] st1] eqn:H1; [|done].
  destruct (runner (main_of hook ledger defaultHandler) args st1) as [[rs2|e] st2] eqn:H2;
    [|done].
  destruct (runner (after_of ledger) args st2) as [[rs3|e] st3] eqn:H3; [|done].
  inversion Hrun; subst. apply absent_with_world.
  destruct (reg_before r0) eqn:Hb.
  - eapply Hkeep; [|exact H3]. eapply Hkeep; [|exact H2].
    eapply Hremove; [exact Hst| |exact Honce|exact H1].
    apply Array_sort_In, filter_In. split; [done|]. by rewrite Hb, Hrep.
  - assert (Hst2 : registry_ok st2) by eauto.
    eapply Hremove; [exact Hst2| |exact Honce|exact H3].
    apply Array_sort_In, filter_In. split; [done|]. by rewrite Hb, Hrep.
Qed.

(** A trigger that completes invokes no handler without a registration,
    the default handler apart. *)
Lemma absent_not_invoked runner hook h args defaultHandler st v st' :
  runner_sound runner -> registry_ok st -> absent hook h st ->
  (forall d, defaultHandler = Some d -> hname d <> hname h) ->
  trigger runner hook args defaultHandler st = (Normal v, st') ->
  exists t, calls (world st') = calls (world st) ++ t /\
    count_occ Nat.eq_dec t (hname h) = 0.
Proof.
  intros Hsound Hok Habs HD Hrun.
  destruct (registry st !! hook) as [ledger|] eqn:Hl.
  - pose proof (Hok _ _ Hl) as Hledger.
    destruct (trigger_normal _ _ _ _ _ _ _ _ Hsound Hl (ledger_plain _ Hledger) Hrun)
      as (tm & Hcalls & Hmain).
    eexists. split; [exact Hcalls|]. apply count_occ_not_In.
    assert (Hnames : forall f n,
      In n (map reg_name (Array_sort sortRegistrations
                            (List.filter f (Map_values ledger)))) ->
      n <> hname h).
    { intros f n Hn ->. apply in_map_iff in Hn as (r & Hname & Hr).
      apply Array_sort_In, filter_In in Hr as [Hr _].
      apply (Map_get_None_names _ _ (Habs _ Hl)).
      rewrite <- (ledger_names _ Hledger), <- Hname. by apply in_map. }
    intros Hin. apply in_app_or in Hin as [Hin|Hin]; [by eapply Hnames|].
    apply in_app_or in Hin as [Hin|Hin]; [|by eapply Hnames].
    rewrite Forall_forall in Hmain. apply list_elem_of_In, Hmain in Hin.
    destruct Hin as [(d & Hd & Hname)|Hin]; [by apply (HD d)|by eapply Hnames].
  - unfold trigger in Hrun. rewrite (getHandlers_unknown _ _ _ Hl) in Hrun. simpl in Hrun.
    match type of Hrun with context [runner [] args ?s] => set (st0 := s) in * end.
    destruct (runner [] args st0) as [[rs1|e] st1] eqn:H1; [|done].
    destruct (runner [] args st1) as [[rs2|e] st2] eqn:H2; [|done].
    destruct (runner [] args st2) as [[rs3|e] st3] eqn:H3; [|done].
    inversion Hrun; subst. exists []. split; [|done]. simpl.
    apply runner_plain in H1, H2, H3; try done.
    rewrite (evolves_calls _ _ _ H3), (evolves_calls _ _ _ H2), (evolves_calls _ _ _ H1).
    simpl. by rewrite !app_nil_r.
Qed.

(** A handler registered with [once] and without [replace] is invoked once
    over any number of triggers that complete, one at least. *)
Lemma once_handler_runs_once runner n hook ledger h o args defaultHandler st st' :
  runner_sound runner -> runner_tidy runner ->
  registry_ok st -> registry st !! hook = Some ledger ->
  opt_once o = true -> opt_replace o = false ->
  (forall d, defaultHandler = Some d -> hname d <> hname h) ->
  triggered runner (S n) hook args defaultHandler (snd (on hook h o st)) st' ->
  exists t, calls (world st') = calls (world (snd (on hook h o st))) ++ t /\
    count_occ Nat.eq_dec t (hname h) = 1.
Proof.
  intros Hsound Htidy Hok Hl Honce Hrep HD (v & st1 & Hfirst & Hrest).
  set (st0 := snd (on hook h o st)) in *.
  set (r0 := registration_of hook h o ledger).
  set (ledger0 := Map_set same_fn h r0 ledger).
  assert (Hok0 : registry_ok st0) by by apply registry_ok_on.
  assert (Hl0 : registry st0 !! hook = Some ledger0).
  { unfold st0. rewrite (on_known _ _ _ _ _ Hl). apply with_ledger_lookup. }
  assert (Hin0 : In r0 (Map_values ledger0)) by apply Map_get_In with h, Map_get_set.
  destruct (once_per_trigger _ _ _ _ r0 _ _ _ _ Hsound Hl0 (Hok0 _ _ Hl0) Hin0 Hrep HD Hfirst)
    as (t1 & Hcalls1 & Hcount1).
  pose proof (trigger_removes_once _ _ _ r0 _ _ _ _ _ Htidy Hok0 Hl0 Hin0 Honce Hrep Hfirst)
    as Habs1.
  assert (Hok1 : registry_ok st1).
  { destruct Htidy as (Hreg & _). by eapply registry_ok_trigger. }
  assert (Hgen : forall st1, registry_ok st1 -> absent hook h st1 ->
    triggered runner n hook args defaultHandler st1 st' ->
    exists t, calls (world st') = calls (world st1) ++ t /\
      count_occ Nat.eq_dec t (hname h) = 0).
  { clear -Hsound Htidy HD. induction n as [|n IH]; intros st1 Hok1 Habs1 Hn; simpl in Hn.
    - subst st'. exists []. by rewrite app_nil_r.
    - destruct Hn as (v & st2 & Hstep & Hn).
      destruct (absent_not_invoked _ _ _ _ _ _ _ _ Hsound Hok1 Habs1 HD Hstep)
        as (t & Hcalls & Hcount).
      destruct (IH st2) as (t' & Hcalls' & Hcount'); [| |done|].
      + destruct Htidy as (Hreg & _). by eapply registry_ok_trigger.
      + by eapply trigger_keeps_absent.
      + exists (t ++ t'). rewrite Hcalls', Hcalls, app_assoc. split; [done|].
        rewrite count_occ_app. lia. }
  destruct (Hgen st1 Hok1 Habs1 Hrest) as (t2 & Hcalls2 & Hcount2).
  exists (t1 ++ t2). rewrite Hcalls2, Hcalls1, app_assoc. split; [done|].
  rewrite count_occ_app. change (reg_name r0) with (hname h) in Hcount1. lia.
Qed.

Corollary once_without_replace_runs_once n hook ledger h o args defaultHandler st st' :
  registry_ok st -> registry st !! hook = Some ledger ->
  opt_once o = true -> opt_replace o = false ->
  (forall d, defaultHandler = Some d -> hname d <> hname h) ->
  triggered runSync (S n) hook args defaultHandler (snd (on hook h o st)) st' \/
  triggered run (S n) hook args defaultHandler (snd (on hook h o st)) st' ->
  exists t, calls (world st') = calls (world (snd (on hook h o st))) ++ t /\
    count_occ Nat.eq_dec t (hname h) = 1.
Proof.
  intros Hok Hl Honce Hrep HD [Hn|Hn].
  - eapply (once_handler_runs_once runSync); eauto using runSync_sound, runSync_tidy.
  - eapply (once_handler_runs_once run); eauto using run_sound, run_tidy.
Qed.

(** ** The render stage *)

Section RenderStage.
Import Render.
Context {H : Helpers}.

Lemma isSameResolvedUrl_true url1 url2 :
  isSameResolvedUrl url1 url2 = true <-> resolveUrl url1 = resolveUrl url2.
Proof. apply String.eqb_eq. Qed.

Lemma isSameResolvedUrl_false url1 url2 :
  isSameResolvedUrl url1 url2 = false <-> resolveUrl url1 <> resolveUrl url2.
Proof. apply String.eqb_neq. Qed.

(** A render stage that finds its visit superseded does one thing: it
    removes the class [is-leaving]. *)
Lemma renderPage_stale page opts s :
  isSameResolvedUrl (getCurrentUrl s) (url page) = false ->
  renderPage page opts s = classList_remove "is-leaving" s.
Proof. intros Hstale. unfold renderPage. simpl. unfold getCurrentUrl in Hstale. by rewrite Hstale. Qed.

Lemma renderPage_current page opts s :
  isSameResolvedUrl (getCurrentUrl s) (url page) = true ->
  renderPage page opts s =
    replaceAndEnter page opts (followRedirect page (classList_remove "is-leaving" s)).
Proof. intros Hcur. unfold renderPage. simpl. unfold getCurrentUrl in Hcur. by rewrite Hcur. Qed.

Lemma classList_add_frame token s :
  historyState (classList_add token s) = historyState s /\
  location (classList_add token s) = location s /\
  currentPageUrl (classList_add token s) = currentPageUrl s /\
  cache (classList_add token s) = cache s /\
  options_cache (classList_add token s) = options_cache s.
Proof. unfold classList_add. by destruct (existsb _ _). Qed.

(** What the second part of the render stage leaves alone. *)
Lemma replaceAndEnter_frame page opts s :
  historyState (replaceAndEnter page opts s) = historyState s /\
  location (replaceAndEnter page opts s) = location s /\
  currentPageUrl (replaceAndEnter page opts s) = currentPageUrl s /\
  (options_cache s = true -> cache (replaceAndEnter page opts s) = cache s).
Proof.
  unfold replaceAndEnter.
  set (s0 := if negb (skipTransition opts) then classList_add "is-rendering" s else s).
  assert (H0 : historyState s0 = historyState s /\ location s0 = location s /\
               currentPageUrl s0 = currentPageUrl s /\ cache s0 = cache s /\
               options_cache s0 = options_cache s).
  { unfold s0. destruct (negb (skipTransition opts)); [apply classList_add_frame|done]. }
  destruct H0 as (Hh & Hl & Hu & Hc & Ho). cbn [options_cache perform].
  rewrite Ho. destruct (options_cache s); cbn; rewrite ?Hh, ?Hl, ?Hu, ?Hc; done.
Qed.

End RenderStage.

(** C2 does not hold of the code: [renderPage] removes the class
    [is-leaving] from the document element before it looks whether the
    visit is still current.  Here the visit to [/a] was superseded by a
    visit to [/b], whose leave animation is running; the stale render stage
    returns without touching history or cache, but it has removed the class
    [is-leaving] the newer visit had set. *)
Theorem stale_render_removes_is_leaving :
  let s := RenderExamples.superseded in
  let s' := Render.renderPage (H := RenderExamples.plain_helpers)
              RenderExamples.page_a RenderExamples.no_render_options s in
  Render.isSameResolvedUrl (H := RenderExamples.plain_helpers)
    (Render.getCurrentUrl s) (Render.url RenderExamples.page_a) = false /\
  Render.classList s = ["is-changing"; "is-leaving"; "is-animating"] /\
  Render.classList s' = ["is-changing"; "is-animating"] /\
  Render.historyState s' = Render.historyState s /\
  Render.location s' = Render.location s /\
  Render.cache s' = Render.cache s /\
  Render.effects s' = Render.effects s.
Proof. by vm_compute. Qed.

(** C7: when the render stage of a visit that is still current finds that
    the response came from another address than the one requested, it
    stores the page in the cache under the address of the response and
    replaces the history record by one for that address; both still hold
    when the stage ends, the cache entry as long as caching is enabled. *)
Theorem render_follows_redirect (H : Render.Helpers) page opts s :
  let u := Render.Location_fromUrl_url (Render.responseURL page) in
  Render.isSameResolvedUrl (Render.getCurrentUrl s) (Render.url page) = true ->
  Render.isSameResolvedUrl (Render.url page) u = false ->
  let s1 := Render.followRedirect page (Render.classList_remove "is-leaving" s) in
  let s' := Render.renderPage page opts s in
  s' = Render.replaceAndEnter page opts s1 /\
  Render.cache_lookup u s1 = Some (Render.with_url page u) /\
  Render.historyState s1 = Some {| Render.hr_url := u; Render.hr_source := "swup" |} /\
  u <> Render.url page /\
  Render.historyState s' = Some {| Render.hr_url := u; Render.hr_source := "swup" |} /\
  Render.location s' = u /\
  (Render.options_cache s = true ->
   Render.cache_lookup u s' = Some (Render.with_url page u)).
Proof.
  intros u Hcur Hredirect s1 s'.
  assert (Hdiff : Render.isSameResolvedUrl
            (Render.getCurrentUrl (Render.classList_remove "is-leaving" s)) u = false).
  { apply isSameResolvedUrl_false. apply isSameResolvedUrl_true in Hcur.
    apply isSameResolvedUrl_false in Hredirect. simpl.
    unfold Render.getCurrentUrl in *. congruence. }
  assert (Hs1 : s1 =
    Render.updateHistoryRecord u
      (Render.set_currentPageUrl (Render.location s)
         (Render.cacheUrl (Render.with_url page u)
            (Render.classList_remove "is-leaving" s)))).
  { unfold s1, Render.followRedirect. fold u. by rewrite Hdiff. }
  destruct (replaceAndEnter_frame page opts s1) as (Hh & Hl & _ & Hc).
  split; [by apply renderPage_current|].
  split; [rewrite Hs1; unfold Render.cache_lookup; simpl; apply lookup_insert_eq|].
  split; [by rewrite Hs1|].
  split; [intros Heq; apply isSameResolvedUrl_false in Hredirect; apply Hredirect;
          by rewrite Heq|].
  unfold s'. rewrite (renderPage_current _ _ _ Hcur). fold s1.
  split; [by rewrite Hh, Hs1|]. split; [by rewrite Hl, Hs1|].
  intros Hcache. unfold Render.cache_lookup. rewrite Hc; [|by rewrite Hs1].
  rewrite Hs1. simpl. apply lookup_insert_eq.
Qed.

(** The page requested as [/old] was answered from [/new]. *)
Lemma render_follows_redirect_witness :
  let H := RenderExamples.plain_helpers in
  let page := RenderExamples.page_redirected in
  let opts := RenderExamples.no_render_options in
  let s := RenderExamples.visiting_old in
  let s1 := Render.followRedirect page (Render.classList_remove "is-leaving" s) in
  let s' := Render.renderPage page opts s in
  s' = Render.replaceAndEnter page opts s1 /\
  Render.cache_lookup "/new" s1 = Some (Render.with_url page "/new") /\
  Render.historyState s1 = Some {| Render.hr_url := "/new"; Render.hr_source := "swup" |} /\
  "/new" <> Render.url page /\
  Render.historyState s' = Some {| Render.hr_url := "/new"; Render.hr_source := "swup" |} /\
  Render.location s' = "/new" /\
  (Render.options_cache s = true ->
   Render.cache_lookup "/new" s' = Some (Render.with_url page "/new")).
Proof.
  apply (render_follows_redirect RenderExamples.plain_helpers
           RenderExamples.page_redirected RenderExamples.no_render_options
           RenderExamples.visiting_old).
  - reflexivity.
  - reflexivity.
Defined.

(** ** The animation waiter *)

Section AnimationWaiter.
Import Animation.
Context {E : Env}.

Lemma no_transition_spec d :
  no_transition d = true <-> d = None \/ d = Some "" \/ d = Some "0s".
Proof.
  destruct d as [d|]; simpl; [|by intuition].
  rewrite orb_true_iff, !String.eqb_eq. split.
  - intros [->| ->]; auto.
  - intros [?|[[= ->]|[= ->]]]; [done|by left|by right].
Qed.

Lemma each_promise_of acc element :
  each acc element = (fst acc ++ [promise_of element], snd acc ++ diagnostic_of element).
Proof.
  destruct acc as [promises console]. unfold each, promise_of, diagnostic_of. simpl.
  destruct (no_transition _); [done|]. by rewrite app_nil_r.
Qed.

Lemma foldl_each elements promises console :
  foldl each (promises, console) elements =
    (promises ++ map promise_of elements, console ++ concat (map diagnostic_of elements)).
Proof.
  revert promises console. induction elements as [|element elements IH];
    intros promises console.
  - simpl. by rewrite !app_nil_r.
  - change (foldl each (promises, console) (element :: elements))
      with (foldl each (each (promises, console) element) elements).
    rewrite each_promise_of, IH. simpl. by rewrite <- !app_assoc.
Qed.

(** A listening promise is resolved by the events of the awaited type whose
    target is its element, and by no other. *)
Lemma resolved_after_listening element type evs :
  resolved_after (Promise_listening element type) evs = true <->
  exists ev, In ev evs /\ ev_type ev = type /\ same_element element (ev_target ev) = true.
Proof.
  simpl. rewrite existsb_exists. unfold listener_runs. split.
  - intros (ev & Hin & Hev). exists ev.
    rewrite !andb_true_iff, String.eqb_eq in Hev. tauto.
  - intros (ev & Hin & Htype & Htarget). exists ev. split; [done|].
    rewrite Htarget, !andb_true_iff, String.eqb_eq. simpl. tauto.
Qed.

Lemma no_transition_false d :
  no_transition d = false <-> d <> None /\ d <> Some "" /\ d <> Some "0s".
Proof.
  split.
  - intros Hd. repeat split; intros ->; discriminate Hd.
  - intros (Hn & He & Hz). destruct (no_transition d) eqn:Hd; [|done].
    apply no_transition_spec in Hd as [?|[?|?]]; done.
Qed.

Lemma same_element_eq a b : same_element a b = true <-> el_id b = el_id a.
Proof. unfold same_element. rewrite Nat.eqb_eq. split; congruence. Qed.

End AnimationWaiter.

Lemma getAnimationPromises_per_element (E : Animation.Env) console :
  let promises := fst (Animation.getAnimationPromises console) in
  let console' := snd (Animation.getAnimationPromises console) in
  let elements := Animation.queryAll Animation.animationSelector in
  (elements = [] ->
     promises = [Animation.Promise_resolve] /\
     Animation.Promise_all_resolved promises [] = true /\
     console' = console ++ [(LogError, Animation.no_elements_message)]) /\
  (elements <> [] ->
     length promises = length elements /\
     forall i element, elements !! i = Some element ->
       let duration :=
         Animation.getComputedStyle element (Animation.transitionProperty +:+ "Duration") in
       (Animation.no_transition duration = false ->
          exists p, promises !! i = Some p /\
            Animation.resolved_after p [] = false /\
            forall evs, Animation.resolved_after p evs = true <->
              exists ev, In ev evs /\
                Animation.ev_type ev = Animation.transitionEnd /\
                Animation.same_element element (Animation.ev_target ev) = true) /\
       (Animation.no_transition duration = true ->
          promises !! i = Some Animation.Promise_resolve /\
          (forall evs, Animation.resolved_after Animation.Promise_resolve evs = true) /\
          In (LogError, Animation.no_transition_message) console')).
Proof.
  intros promises console' elements. unfold promises, console', Animation.getAnimationPromises.
  fold elements. split.
  - intros ->. by simpl.
  - intros Hne. destruct elements as [|e0 elements'] eqn:Helements; [done|].
    rewrite <- Helements in *. replace (length elements =? 0)%nat with false
      by (rewrite Helements; done).
    rewrite foldl_each. simpl. split; [by rewrite length_map|].
    intros i element Hi.
    set (duration := Animation.getComputedStyle element
                       (Animation.transitionProperty +:+ "Duration")).
    assert (Hp : map promise_of elements !! i = Some (promise_of element))
      by (by rewrite list_lookup_fmap, Hi).
    split; intros Hd; unfold promise_of in Hp; fold duration in Hp; rewrite Hd in Hp.
    + eexists. split; [exact Hp|]. split; [done|].
      intros evs. apply resolved_after_listening.
    + split; [exact Hp|]. split; [done|].
      apply in_or_app. right. apply in_concat.
      exists (diagnostic_of element). split.
      * apply in_map, list_elem_of_In. by eapply list_elem_of_lookup_2.
      * unfold diagnostic_of. fold duration. rewrite Hd. by left.
Qed.

(** The waiter returns one promise per element that matches the animation
    selector.  For an element whose computed transition duration is a
    string other than the empty one and [0s], the promise is pending at
    first and is resolved exactly by a transition end event whose target is
    that very element; for an element whose computed duration is missing,
    empty or [0s] the promise is resolved from the start, and a diagnostic
    is logged.  When no element matches, the waiter returns one resolved
    promise, logs a diagnostic, and the stage that waits for all promises
    goes on at once. *)
Theorem animation_promises_follow_transitions (E : Animation.Env) console :
  let promises := fst (Animation.getAnimationPromises console) in
  let console' := snd (Animation.getAnimationPromises console) in
  let elements := Animation.queryAll Animation.animationSelector in
  (elements = [] ->
     promises = [Animation.Promise_resolve] /\
     Animation.Promise_all_resolved promises [] = true /\
     console' =
       console ++
       [(LogError, "No animated elements found by selector " +:+ Animation.animationSelector)]) /\
  (elements <> [] ->
     length promises = length elements /\
     forall i element, elements !! i = Some element ->
       let duration :=
         Animation.getComputedStyle element (Animation.transitionProperty +:+ "Duration") in
       (duration <> None -> duration <> Some "" -> duration <> Some "0s" ->
          exists p, promises !! i = Some p /\
            Animation.resolved_after p [] = false /\
            forall evs, Animation.resolved_after p evs = true <->
              exists ev, In ev evs /\
                Animation.ev_type ev = Animation.transitionEnd /\
                Animation.el_id (Animation.ev_target ev) = Animation.el_id element) /\
       (duration = None \/ duration = Some "" \/ duration = Some "0s" ->
          promises !! i = Some Animation.Promise_resolve /\
          (forall evs, Animation.resolved_after Animation.Promise_resolve evs = true) /\
          In (LogError,
              "No CSS transition defined for element of selector " +:+
              Animation.animationSelector) console')).
Proof.
  intros promises console' elements.
  destruct (getAnimationPromises_per_element E console) as [Hnone Hsome].
  split; [exact Hnone|].
  intros Hne. destruct (Hsome Hne) as [Hlen Heach]. split; [exact Hlen|].
  intros i element Hi duration. destruct (Heach i element Hi) as [Hlisten Hstill].
  split.
  - intros Hn He Hz.
    destruct Hlisten as (p & Hp & Hpending & Hres); [by apply no_transition_false|].
    exists p. split; [exact Hp|]. split; [exact Hpending|].
    intros evs. rewrite Hres. split; intros (ev & Hin & Htype & Htarget); exists ev;
      (split; [exact Hin|]); (split; [exact Htype|]); by apply same_element_eq.
  - intros Hd. apply Hstill. by apply no_transition_spec.
Qed.

(** C8 does not hold of the code for an element whose transitions all have
    a zero duration that is given as a list.  The waiter compares the
    computed duration with the one string [0s]: for the computed duration
    [0s, 0s] it returns a promise that waits for a transition end of the
    element and logs no diagnostic, so the promise stays pending whatever
    happens to other elements, and the leave stage that waits for it does
    not end.  For the duration [0s] the promise is resolved and the
    diagnostic logged, as the claim says. *)
Theorem zero_duration_list_is_waited_for :
  let E := AnimationExamples.page [ZeroDurations.zero_list] in
  let promises := fst (Animation.getAnimationPromises []) in
  promises = [Animation.Promise_listening ZeroDurations.zero_list "transitionend"] /\
  snd (Animation.getAnimationPromises []) = [] /\
  Animation.Promise_all_resolved promises [] = false /\
  Animation.Promise_all_resolved promises
    [{| Animation.ev_type := "transitionend"; Animation.ev_target := ZeroDurations.other;
        Animation.ev_ancestors := [] |}] = false /\
  snd (Leave.leavePage RenderExamples.no_render_options [] LeaveExamples.idle []) = false /\
  @Animation.getAnimationPromises (AnimationExamples.page [AnimationExamples.still]) [] =
    ([Animation.Promise_resolve],
     [(LogError, "No CSS transition defined for element of selector [class*='transition-']")]).
Proof. by vm_compute. Qed.


(** A page with an animated element, one with a duration of [0s] and one
    without a transition: the first promise waits for the transition end of
    its element, the others are resolved. *)
Example animation_promises_of_a_page :
  let E := AnimationExamples.page
             [AnimationExamples.animated; AnimationExamples.still; AnimationExamples.unstyled] in
  let promises := fst (Animation.getAnimationPromises []) in
  let ended (target : Animation.Element) :=
    {| Animation.ev_type := "transitionend"; Animation.ev_target := target;
       Animation.ev_ancestors := [] |} in
  promises =
    [Animation.Promise_listening AnimationExamples.animated "transitionend";
     Animation.Promise_resolve; Animation.Promise_resolve] /\
  length (snd (Animation.getAnimationPromises [])) = 2 /\
  Animation.Promise_all_resolved promises [] = false /\
  Animation.Promise_all_resolved promises
    [{| Animation.ev_type := "transitionend"; Animation.ev_target := AnimationExamples.still;
        Animation.ev_ancestors := [AnimationExamples.animated] |}] = false /\
  Animation.Promise_all_resolved promises [ended AnimationExamples.animated] = true.
Proof. by vm_compute. Qed.

(** * Further properties of the registry *)

(** ** Registering and unregistering *)

Lemma Map_delete_fresh_last (h : Handler) (r : HookRegistration) (m : HookLedger) :
  Map_get same_fn h m = None -> Map_delete same_fn h (m ++ [(h, r)]) = (true, m).
Proof.
  induction m as [|[k v] m IH]; simpl.
  - unfold same_fn. by rewrite Nat.eqb_refl.
  - destruct (same_fn k h); [done|]. intros Hm. by rewrite (IH Hm).
Qed.

Lemma Map_delete_missing (h : Handler) (m : HookLedger) :
  Map_get same_fn h m = None -> Map_delete same_fn h m = (false, m).
Proof.
  intros Hget. destruct (Map_delete_spec h m)
    as [[_ Hd]|(m1 & k' & old & m2 & -> & Hk & _)]; [done|].
  exfalso. apply (Map_get_None_names _ _ Hget). rewrite map_app. apply in_or_app.
  right. by left.
Qed.

Lemma state_eq (st1 st2 : State) :
  registry st1 = registry st2 -> world st1 = world st2 -> st1 = st2.
Proof. destruct st1, st2. simpl. by intros -> ->. Qed.

(** X1: the function [on] returns undoes the registration: the handler is gone
    from the ledger, and when it was not registered before, the registry is
    as it was before [on]. *)
Theorem unregister_undoes_on hook h o ledger st :
  registry st !! hook = Some ledger ->
  ledger_ok ledger = true ->
  let unregister := fst (on hook h o st) in
  let st1 := snd (on hook h o st) in
  absent hook h (unregister st1) /\
  world (unregister st1) = world st /\
  (Map_get same_fn h ledger = None -> unregister st1 = st).
Proof.
  intros Hl Hok unregister st1.
  assert (Hun : unregister = fun s => off hook (Some h) s).
  { unfold unregister, on, get. by rewrite Hl. }
  assert (Hst1 : st1 = with_ledger hook
            (Map_set same_fn h (registration_of hook h o ledger) ledger) st)
    by apply (on_known _ _ _ _ _ Hl).
  assert (Hok1 : ledger_ok (Map_set same_fn h (registration_of hook h o ledger) ledger) = true)
    by by apply ledger_ok_set.
  rewrite Hun. split; [|split].
  - unfold off, get. rewrite Hst1, with_ledger_lookup.
    apply ledger_ok_spec in Hok1 as [_ Hnd].
    pose proof (Map_delete_removes h _ Hnd) as Hgone.
    pose proof (Map_get_set h (registration_of hook h o ledger) ledger) as Hthere.
    destruct (Map_delete_spec h (Map_set same_fn h (registration_of hook h o ledger) ledger))
      as [[Hnone _]|(m1 & k' & old & m2 & _ & _ & Hd)]; [congruence|].
    rewrite Hd in *. simpl in *. intros ledger'. simpl. rewrite lookup_insert_eq.
    by intros [= <-].
  - unfold off, get. rewrite Hst1, with_ledger_lookup.
    pose proof (Map_get_set h (registration_of hook h o ledger) ledger) as Hthere.
    destruct (Map_delete_spec h (Map_set same_fn h (registration_of hook h o ledger) ledger))
      as [[Hnone _]|(m1 & k' & old & m2 & _ & _ & Hd)]; [congruence|].
    by rewrite Hd.
  - intros Hfresh. unfold off, get. rewrite Hst1, with_ledger_lookup.
    rewrite (Map_set_fresh _ _ _ Hfresh), (Map_delete_fresh_last _ _ _ Hfresh).
    apply state_eq; [|done]. simpl. rewrite insert_insert_eq. by apply insert_id.
Qed.

Lemma unregister_undoes_on_witness :
  let h := Examples.returning 1 undefined in
  let unregister := fst (on "enable" h no_options Examples.fresh) in
  let st1 := snd (on "enable" h no_options Examples.fresh) in
  absent "enable" h (unregister st1) /\
  world (unregister st1) = world Examples.fresh /\
  (Map_get same_fn h ([] : HookLedger) = None -> unregister st1 = Examples.fresh).
Proof.
  apply (unregister_undoes_on "enable" (Examples.returning 1 undefined) no_options []
           Examples.fresh); by vm_compute.
Defined.

(** [off] for a handler that is not registered on a known hook changes
    nothing but the console, where it leaves a warning. *)
Theorem off_missing_handler_warns hook h (ledger : HookLedger) st :
  registry st !! hook = Some ledger ->
  Map_get same_fn h ledger = None ->
  off hook (Some h) st =
    console_warn ("Handler for hook '" +:+ hook +:+ "' not found.") st.
Proof.
  intros Hl Hget. unfold off, get. rewrite Hl, (Map_delete_missing _ _ Hget).
  apply state_eq; [|done]. simpl. by apply insert_id.
Qed.

Lemma off_missing_handler_warns_witness :
  off "enable" (Some (Examples.returning 1 undefined)) Examples.fresh =
    console_warn ("Handler for hook '" +:+ "enable" +:+ "' not found.") Examples.fresh.
Proof.
  apply (off_missing_handler_warns "enable" (Examples.returning 1 undefined) []);
    by vm_compute.
Defined.

(** ** Hooks without handlers *)

(** On a hook without registrations a trigger invokes the default handler
    it is given and nothing else, whether it completes or not. *)
Lemma trigger_on_empty_ledger hook args d st o st' :
  registry st !! hook = Some [] ->
  callSync hook args d st = (o, st') \/ call hook args d st = (o, st') ->
  calls (world st') =
    calls (world st) ++ match d with Some h => [hname h] | None => [] end.
Proof.
  intros Hl [Hrun|Hrun].
  - unfold callSync in Hrun. rewrite (getHandlers_known _ _ _ _ Hl) in Hrun.
    destruct d as [h|]; cbn in Hrun.
    + destruct (invoke h (visit (world st)) args None (world st)) as [[r|e] w1] eqn:Hinv;
        apply invoke_None in Hinv; subst w1.
      * destruct (isPromise r); inversion Hrun; subst; reflexivity.
      * inversion Hrun; subst; reflexivity.
    + inversion Hrun; subst. simpl. by rewrite app_nil_r.
  - unfold call in Hrun. rewrite (getHandlers_known _ _ _ _ Hl) in Hrun.
    destruct d as [h|]; cbn in Hrun.
    + unfold await_runAsPromise in Hrun.
      destruct (invoke h (visit (world st)) args None (world st)) as [[r|e] w1] eqn:Hinv;
        apply invoke_None in Hinv; subst w1.
      * destruct (await r _) as [[r'|e] w2] eqn:Haw; apply evolves_await in Haw;
          inversion Hrun; subst; simpl; rewrite (evolves_calls _ _ _ Haw); simpl;
          by rewrite app_nil_r.
      * inversion Hrun; subst; reflexivity.
    + inversion Hrun; subst. simpl. by rewrite app_nil_r.
Qed.

(** X2: [off(hook)] without a handler removes every handler of the hook and no
    handler of another hook; a trigger of the hook then invokes the default
    handler alone. *)
Theorem off_hook_removes_all hook (ledger : HookLedger) st :
  registry st !! hook = Some ledger ->
  let st1 := off hook None st in
  registry st1 !! hook = Some [] /\
  world st1 = world st /\
  (forall hook', hook' <> hook -> registry st1 !! hook' = registry st !! hook') /\
  (forall args d o st',
     callSync hook args d st1 = (o, st') \/ call hook args d st1 = (o, st') ->
     calls (world st') =
       calls (world st) ++ match d with Some h => [hname h] | None => [] end).
Proof.
  intros Hl st1.
  assert (Hst1 : st1 = with_ledger hook [] st) by (unfold st1, off, get; by rewrite Hl).
  assert (Hempty : registry st1 !! hook = Some []) by (rewrite Hst1; apply with_ledger_lookup).
  split; [done|]. split; [by rewrite Hst1|]. split.
  - intros hook' Hne. rewrite Hst1. simpl. by apply lookup_insert_ne.
  - intros args d o st' Hrun. rewrite (trigger_on_empty_ledger _ _ _ _ _ _ Hempty Hrun).
    by rewrite Hst1.
Qed.

Lemma off_hook_removes_all_witness :
  let st := Examples.reversed_priorities in
  let st1 := off "enable" None st in
  registry st1 !! "enable" = Some [] /\
  world st1 = world st /\
  (forall hook', hook' <> "enable" -> registry st1 !! hook' = registry st !! hook') /\
  (forall args d o st',
     callSync "enable" args d st1 = (o, st') \/ call "enable" args d st1 = (o, st') ->
     calls (world st') =
       calls (world st) ++ match d with Some h => [hname h] | None => [] end).
Proof.
  apply (off_hook_removes_all "enable"
           [(Examples.returning 1 undefined,
             registration_of "enable" (Examples.returning 1 undefined)
               (Examples.with_priority 2) []);
            (Examples.returning 2 undefined,
             registration_of "enable" (Examples.returning 2 undefined)
               (Examples.with_priority 1)
               [(Examples.returning 1 undefined,
                 registration_of "enable" (Examples.returning 1 undefined)
                   (Examples.with_priority 2) [])])]).
  by vm_compute.
Defined.

Lemma clear_lookup hook st :
  registry (clear st) !! hook = (fun _ : HookLedger => []) <$> registry st !! hook.
Proof. unfold clear. simpl. apply lookup_fmap. Qed.

Lemma hook_exists_clear hook st : hook_exists hook (clear st) = hook_exists hook st.
Proof.
  unfold hook_exists. apply bool_decide_ext. rewrite clear_lookup.
  unfold HookLedger. by rewrite fmap_is_Some.
Qed.

(** X3: [clear] removes every handler of every hook and keeps the hooks
    themselves: a known hook stays known, and a trigger of it invokes the
    default handler alone. *)
Theorem clear_removes_all_handlers st :
  world (clear st) = world st /\
  (forall hook, hook_exists hook (clear st) = hook_exists hook st) /\
  (forall hook, hook_exists hook st = true -> registry (clear st) !! hook = Some []) /\
  (forall hook args d o st',
     hook_exists hook st = true ->
     callSync hook args d (clear st) = (o, st') \/ call hook args d (clear st) = (o, st') ->
     calls (world st') =
       calls (world st) ++ match d with Some h => [hname h] | None => [] end).
Proof.
  assert (Hknown : forall hook,
    hook_exists hook st = true -> registry (clear st) !! hook = Some []).
  { intros hook Hex. unfold hook_exists in Hex. apply bool_decide_eq_true in Hex as [l Hl].
    rewrite clear_lookup. unfold HookLedger in *. by rewrite Hl. }
  split; [done|]. split; [intros hook; apply hook_exists_clear|]. split; [done|].
  intros hook args d o st' Hex Hrun.
  by rewrite (trigger_on_empty_ledger _ _ _ _ _ _ (Hknown _ Hex) Hrun).
Qed.

(** ** The hooks a registry knows *)

Lemma elem_of_cons_other (hook h : string) l : hook <> h -> hook ∈ h :: l <-> hook ∈ l.
Proof. intros Hne. rewrite elem_of_cons. split; [by intros [?|?]|by right]. Qed.

Lemma init_lookup (l : list string) hook st :
  registry (foldl (fun s h => create h s) st l) !! hook =
    match registry st !! hook with
    | Some ledger => Some ledger
    | None => if bool_decide (hook ∈ l) then Some [] else None
    end.
Proof.
  unfold HookLedger. revert st. induction l as [|h l IH]; intros st; simpl.
  - by destruct (_ !! hook).
  - rewrite IH. unfold create, HookLedger.
    destruct (_ !! h) as [ledger|] eqn:Hh.
    + destruct (_ !! hook) as [ledger'|] eqn:Hhook; [done|].
      destruct (decide (hook = h)) as [->|Hne];
        [pose proof (eq_trans (eq_sym Hh) Hhook) as Hcontra; discriminate Hcontra|].
      by rewrite (bool_decide_ext _ _ (elem_of_cons_other hook h l Hne)).
    + simpl. destruct (decide (hook = h)) as [->|Hne].
      * rewrite lookup_insert_eq, Hh.
        rewrite bool_decide_eq_true_2; [done|]. by left.
      * rewrite lookup_insert_ne by done.
        destruct (_ !! hook); [done|].
        by rewrite (bool_decide_ext _ _ (elem_of_cons_other hook h l Hne)).
Qed.

Lemma new_lookup w hook :
  registry (new w) !! hook = if bool_decide (hook ∈ hooks) then Some [] else None.
Proof. unfold new, init. rewrite init_lookup. simpl. by rewrite lookup_empty. Qed.

Lemma new_hook_exists w hook : hook_exists hook (new w) = bool_decide (hook ∈ hooks).
Proof.
  pose proof (new_lookup w hook) as Hlook.
  unfold hook_exists. destruct (bool_decide (hook ∈ hooks)).
  - apply bool_decide_eq_true_2. eexists. exact Hlook.
  - apply bool_decide_eq_false_2. intros [x Hx].
    pose proof (eq_trans (eq_sym Hx) Hlook) as Hcontra. discriminate Hcontra.
Qed.

(** A new registry knows the hooks of its list and no other, each without
    handlers, and leaves the environment as it finds it. *)
Theorem new_registry_knows_core_hooks w hook :
  world (new w) = w /\
  registry (new w) !! hook = (if bool_decide (hook ∈ hooks) then Some [] else None) /\
  hook_exists hook (new w) = bool_decide (hook ∈ hooks).
Proof.
  split; [|split; [apply new_lookup|apply new_hook_exists]].
  assert (Hgen : forall l st, world (foldl (fun s h => create h s) st l) = world st).
  { induction l as [|h l IH]; intros st; simpl; [done|]. rewrite IH. unfold create.
    by destruct (registry st !! h). }
  unfold new, init. by rewrite Hgen.
Qed.

(** [create] leaves a hook that exists as it is, handlers included; it
    makes a new hook known, and a handler can then be registered on it
    without a diagnostic. *)
Theorem create_adds_hook_once hook h o st :
  (hook_exists hook st = true -> create hook st = st) /\
  (hook_exists hook st = false ->
     hook_exists hook (create hook st) = true /\
     registry (create hook st) !! hook = Some [] /\
     world (snd (on hook h o (create hook st))) = world st /\
     registry (snd (on hook h o (create hook st))) !! hook =
       Some [(h, registration_of hook h o [])]).
Proof.
  unfold hook_exists, create. split; intros Hex.
  - apply bool_decide_eq_true in Hex as [l Hl]. unfold HookLedger in *. by rewrite Hl.
  - apply bool_decide_eq_false in Hex. rewrite <- eq_None_not_Some in Hex.
    unfold HookLedger in *. rewrite Hex.
    assert (Hl : registry (with_ledger hook [] st) !! hook = Some [])
      by apply with_ledger_lookup.
    split; [apply bool_decide_eq_true; eexists; exact Hl|]. split; [done|].
    rewrite (on_known _ _ _ _ _ Hl). split; [done|]. simpl. apply lookup_insert_eq.
Qed.

(** ** What a trigger invokes, returns and dispatches *)

(** The invocations of a completed trigger, with those of the main handler
    told apart, and its result when there is no main handler. *)
Lemma trigger_segments runner hook ledger args defaultHandler st v st' :
  runner_sound runner ->
  registry st !! hook = Some ledger ->
  forallb plain_registration (Map_values ledger) = true ->
  trigger runner hook args defaultHandler st = (Normal v, st') ->
  exists segs,
    calls (world st') =
      calls (world st) ++ map reg_name (before_of ledger) ++ concat segs ++
        map reg_name (after_of ledger) /\
    Forall2 (segment_of (main_names ledger defaultHandler))
      (main_of hook ledger defaultHandler) segs /\
    (defaultHandler = None -> v = undefined).
Proof.
  intros Hsound Hl Hplain Hrun. unfold trigger in Hrun.
  rewrite (getHandlers_known _ _ _ _ Hl) in Hrun. simpl in Hrun.
  destruct (runner (before_of ledger) args st) as [[rs1|e] st1] eqn:H1; [|done].
  destruct (runner (main_of hook ledger defaultHandler) args st1) as [[rs2|e] st2] eqn:H2; [|done].
  destruct (runner (after_of ledger) args st2) as [[rs3|e] st3] eqn:H3; [|done].
  inversion Hrun; subst. simpl.
  apply runner_plain in H1; [|done|by apply forallb_sorted_filter].
  apply runner_plain in H3; [|done|by apply forallb_sorted_filter].
  destruct (Hsound _ _ _ _ _ _ (main_of_tame hook ledger defaultHandler) H2)
    as (tm & Hev & Hlen & segs & -> & Hsegs).
  exists segs. split; [|split; [done|]].
  - rewrite (evolves_calls _ _ _ H3), (evolves_calls _ _ _ Hev), (evolves_calls _ _ _ H1).
    by rewrite <- !app_assoc.
  - intros ->. simpl in Hlen. by destruct rs2.
Qed.

(** X4: without a default handler there is no main handler: the replacements
    registered on the hook are not invoked, and the trigger results in
    [undefined]. *)
Theorem replacements_need_default_handler hook ledger st args v st' :
  registry st !! hook = Some ledger ->
  ledger_ok ledger = true ->
  callSync hook args None st = (Normal v, st') \/ call hook args None st = (Normal v, st') ->
  v = undefined /\
  exists t,
    calls (world st') = calls (world st) ++ t /\
    t = map reg_name (before_of ledger) ++ map reg_name (after_of ledger) /\
    forall r, In r (Map_values ledger) -> reg_replace r = true -> ~ In (reg_name r) t.
Proof.
  intros Hl Hok Hrun.
  assert (Hseg : exists segs,
    calls (world st') =
      calls (world st) ++ map reg_name (before_of ledger) ++ concat segs ++
        map reg_name (after_of ledger) /\
    Forall2 (segment_of (main_names ledger None)) (main_of hook ledger None) segs /\
    ((None : option Handler) = None -> v = undefined)).
  { destruct Hrun as [Hrun|Hrun].
    - rewrite callSync_trigger in Hrun.
      eapply trigger_segments; eauto using runSync_sound, ledger_plain.
    - rewrite call_trigger in Hrun.
      eapply trigger_segments; eauto using run_sound, ledger_plain. }
  destruct Hseg as (segs & Hcalls & Hsegs & Hv). split; [by apply Hv|].
  inversion Hsegs; subst. simpl in Hcalls.
  eexists. split; [exact Hcalls|]. split; [done|].
  assert (Hnd : NoDup (map reg_name (Map_values ledger))).
  { rewrite (ledger_names _ Hok). by apply ledger_ok_spec in Hok as [_ Hnd]. }
  intros r Hr Hrep Hin.
  assert (Hother : exists r', In r' (Map_values ledger) /\ reg_replace r' = false /\
                              reg_name r' = reg_name r).
  { apply in_app_or in Hin as [Hin|Hin]; apply in_map_iff in Hin as (r' & Hname & Hr');
      apply Array_sort_In, filter_In in Hr' as [Hr' Hf]; exists r';
      (split; [done|]); (split; [|done]); apply andb_true_iff in Hf as [_ Hf];
      by apply negb_true_iff in Hf. }
  destruct Hother as (r' & Hr' & Hrep' & Hname).
  rewrite (unique_by_name _ _ _ Hnd Hr' Hr Hname) in Hrep'. congruence.
Qed.

(** A replacement alone on the hook: a trigger without a default handler
    invokes nothing. *)
Lemma replacements_need_default_handler_witness :
  let R := Examples.returning 1 undefined in
  let o := Examples.options false false None true in
  let st := snd (on "enable" R o Examples.fresh) in
  let ledger := [(R, registration_of "enable" R o [])] in
  undefined = undefined /\
  exists t,
    calls (world (snd (callSync "enable" undefined None st))) = calls (world st) ++ t /\
    t = map reg_name (before_of ledger) ++ map reg_name (after_of ledger) /\
    forall r, In r (Map_values ledger) -> reg_replace r = true -> ~ In (reg_name r) t.
Proof.
  intros R o st ledger.
  apply (replacements_need_default_handler "enable" ledger st undefined undefined
           (snd (callSync "enable" undefined None st))).
  - by vm_compute.
  - by vm_compute.
  - left. by vm_compute.
Defined.

(** A trigger dispatches its event on the document exactly when it
    completes: one event named after the hook, also for an unknown hook, and
    none when a handler throws. *)
Lemma trigger_domEvents runner hook args defaultHandler st o st' :
  runner_sound runner -> registry_ok st ->
  trigger runner hook args defaultHandler st = (o, st') ->
  domEvents (world st') =
    domEvents (world st) ++
      match o with Normal _ => [event_of hook args st] | Thrown _ => [] end.
Proof.
  intros Hsound Hok Hrun. unfold trigger in Hrun.
  destruct (getHandlers hook defaultHandler st) as [hs st0] eqn:Hget.
  assert (H0 : evolves [] (world st) (world st0) /\
    exists X, Forall (fun r => opt_tame X (reg_defaultHandler r)) (hs_before hs) /\
              Forall (fun r => opt_tame X (reg_defaultHandler r)) (hs_handler hs) /\
              Forall (fun r => opt_tame X (reg_defaultHandler r)) (hs_after hs)).
  { destruct (registry st !! hook) as [ledger|] eqn:Hl.
    - rewrite (getHandlers_known _ _ _ _ Hl) in Hget. inversion Hget; subst. simpl.
      split; [apply evolves_refl|]. exists (main_names ledger defaultHandler).
      pose proof (ledger_plain _ (Hok _ _ Hl)) as Hplain.
      assert (Hgroup : forall f,
        Forall (fun r => opt_tame (main_names ledger defaultHandler) (reg_defaultHandler r))
          (Array_sort sortRegistrations (List.filter f (Map_values ledger)))).
      { intros f. apply Forall_forall. intros r Hr.
        apply (tame_weaken (fun _ => False)); [done|]. apply plain_registration_tame.
        apply list_elem_of_In, Array_sort_In, filter_In in Hr as [Hr _].
        rewrite forallb_forall in Hplain. by apply Hplain. }
      split; [apply Hgroup|]. split; [apply main_of_tame|apply Hgroup].
    - rewrite (getHandlers_unknown _ _ _ Hl) in Hget. inversion Hget; subst. simpl.
      split; [apply evolves_log|]. exists (fun _ => False). by repeat split. }
  destruct H0 as (Hev0 & X & Hb & Hm & Ha).
  destruct (runner (hs_before hs) args st0) as [[rs1|e] st1] eqn:H1;
    destruct (Hsound _ _ _ _ _ _ Hb H1) as (t1 & Hev1 & _).
  2:{ inversion Hrun; subst. rewrite (evolves_domEvents _ _ _ Hev1), (evolves_domEvents _ _ _ Hev0).
      by rewrite app_nil_r. }
  destruct (runner (hs_handler hs) args st1) as [[rs2|e] st2] eqn:H2;
    destruct (Hsound _ _ _ _ _ _ Hm H2) as (t2 & Hev2 & _).
  2:{ inversion Hrun; subst.
      rewrite (evolves_domEvents _ _ _ Hev2), (evolves_domEvents _ _ _ Hev1),
        (evolves_domEvents _ _ _ Hev0). by rewrite app_nil_r. }
  destruct (runner (hs_after hs) args st2) as [[rs3|e] st3] eqn:H3;
    destruct (Hsound _ _ _ _ _ _ Ha H3) as (t3 & Hev3 & _); inversion Hrun; subst.
  - simpl. unfold event_of.
    rewrite (evolves_domEvents _ _ _ Hev3), (evolves_domEvents _ _ _ Hev2),
      (evolves_domEvents _ _ _ Hev1), (evolves_domEvents _ _ _ Hev0).
    by rewrite (evolves_visit _ _ _ Hev3), (evolves_visit _ _ _ Hev2),
      (evolves_visit _ _ _ Hev1), (evolves_visit _ _ _ Hev0).
  - rewrite (evolves_domEvents _ _ _ Hev3), (evolves_domEvents _ _ _ Hev2),
      (evolves_domEvents _ _ _ Hev1), (evolves_domEvents _ _ _ Hev0). by rewrite app_nil_r.
Qed.

(** X5: a trigger dispatches its event on the document exactly when
    every handler completed: one event of type [swup:hook] with the
    arguments and the visit of the trigger, and none when a handler threw.
    It dispatches nothing else. *)
Theorem event_dispatched_iff_completed hook args defaultHandler st o st' :
  registry_ok st ->
  callSync hook args defaultHandler st = (o, st') \/
  call hook args defaultHandler st = (o, st') ->
  domEvents (world st') =
    domEvents (world st) ++
      match o with Normal _ => [event_of hook args st] | Thrown _ => [] end.
Proof.
  intros Hok [Hrun|Hrun].
  - rewrite callSync_trigger in Hrun. eapply trigger_domEvents; eauto using runSync_sound.
  - rewrite call_trigger in Hrun. eapply trigger_domEvents; eauto using run_sound.
Qed.

(** The handler throws: no event is dispatched. *)
Lemma event_dispatched_iff_completed_witness :
  let st := MoreExamples.with_throwing_handler in
  domEvents (world (snd (callSync "enable" undefined None st))) =
    domEvents (world st) ++ [].
Proof.
  apply (event_dispatched_iff_completed "enable" undefined None
           MoreExamples.with_throwing_handler (Thrown MoreExamples.oops)).
  - apply registry_ok_on, registry_ok_new.
  - left. by vm_compute.
Defined.

(** ** The asynchronous trigger *)

Lemma await_settles v w r w' : await v w = (Normal r, w') -> isPromise r = false.
Proof. destruct v as [x|pid [x|e]]; simpl; intros [= <- _]; done. Qed.

Lemma run_results_settled regs args st rs st' :
  run regs args st = (Normal rs, st') -> Forall (fun v => isPromise v = false) rs.
Proof.
  revert st rs st'. induction regs as [|r regs IH]; intros st rs st' Hrun; simpl in Hrun.
  - inversion Hrun; subst. constructor.
  - unfold await_runAsPromise in Hrun.
    destruct (invoke _ _ _ _ _) as [[v|e] w0]; [|done].
    destruct (await v w0) as [[result|e] w1] eqn:Haw; [|done].
    match type of Hrun with context [run regs args ?s] => set (st2 := s) in * end.
    destruct (run regs args st2) as [[results|e] st3] eqn:Hrest; inversion Hrun; subst.
    constructor; [by eapply await_settles|by eapply IH].
Qed.

(** X6: [call] waits for what the handlers return: its result is never a
    promise, whatever is registered. *)
Theorem call_result_is_settled hook args defaultHandler st v st' :
  call hook args defaultHandler st = (Normal v, st') -> isPromise v = false.
Proof.
  unfold call. destruct (getHandlers hook defaultHandler st) as [hs st0].
  destruct (run (hs_before hs) args st0) as [[rs1|e] st1]; [|done].
  destruct (run (hs_handler hs) args st1) as [[rs2|e] st2] eqn:H2; [|done].
  destruct (run (hs_after hs) args st2) as [[rs3|e] st3]; [|done].
  intros [= <- _]. apply run_results_settled in H2.
  destruct H2 as [|v2 rs2 Hv2 _]; done.
Qed.

(** The default handler returns a pending promise; [call] returns the value
    the promise is fulfilled with. *)
Lemma call_result_is_settled_witness : isPromise (VPlain (PNum 1)) = false.
Proof.
  apply (call_result_is_settled "enable" undefined
           (Some (Examples.returning 0 Examples.pending)) Examples.fresh
           (VPlain (PNum 1))
           (snd (call "enable" undefined (Some (Examples.returning 0 Examples.pending))
                   Examples.fresh))).
  by vm_compute.
Defined.

(** ** The three groups of a trigger *)

Lemma main_of_singleton hook ledger d :
  exists m, main_of hook ledger (Some d) = [m] /\
    reg_hook m = hook /\ reg_id m = 0%Z /\ reg_once m = false /\
    (replace_of ledger = [] -> reg_handler m = d /\ plain_registration m = true).
Proof.
  unfold main_of. destruct (replace_of ledger) as [|r l] eqn:Hrep; simpl.
  - eexists. split; [done|]. by repeat split.
  - destruct ((r :: l) !! (length l - 0)) as [last|]; eexists; split; try done;
      repeat split; try done.
Qed.



(** ** The groups [getHandlers] forms *)

Lemma filter_groups (l : list HookRegistration) :
  Permutation
    (List.filter (fun r => reg_before r && negb (reg_replace r)) l ++
     List.filter (fun r => negb (reg_before r) && negb (reg_replace r)) l)
    (List.filter (fun r => negb (reg_replace r)) l).
Proof.
  induction l as [|r l IH]; simpl; [constructor|].
  destruct (reg_before r), (reg_replace r); simpl; try done.
  - by apply perm_skip.
  - rewrite <- Permutation_middle. by apply perm_skip.
Qed.

(** X8: for a known hook [getHandlers] changes nothing.  It puts every
    registration without [replace] in one of two groups, the one marked
    [before] and the other, each sorted by priority and id; there is one
    main handler when a default handler is given and none otherwise. *)
Theorem getHandlers_groups hook ledger defaultHandler st :
  registry st !! hook = Some ledger ->
  let hs := fst (getHandlers hook defaultHandler st) in
  snd (getHandlers hook defaultHandler st) = st /\
  found hs = true /\
  StronglySorted (cmp_le sortRegistrations) (hs_before hs) /\
  StronglySorted (cmp_le sortRegistrations) (hs_after hs) /\
  Permutation (hs_before hs ++ hs_after hs)
    (List.filter (fun r => negb (reg_replace r)) (Map_values ledger)) /\
  (forall r, In r (hs_before hs) -> reg_before r = true) /\
  (forall r, In r (hs_after hs) -> reg_before r = false) /\
  length (hs_handler hs) = match defaultHandler with Some _ => 1 | None => 0 end /\
  (replaced hs = true <-> exists r, In r (Map_values ledger) /\ reg_replace r = true).
Proof.
  intros Hl hs. unfold hs. rewrite (getHandlers_known _ _ _ _ Hl). simpl.
  split; [done|]. split; [done|].
  split; [apply sorted_registrations|]. split; [apply sorted_registrations|].
  split; [|split; [|split; [|split]]].
  - unfold before_of, after_of. rewrite <- !Array_sort_perm. apply filter_groups.
  - intros r Hr. apply Array_sort_In, filter_In in Hr as [_ Hr].
    by apply andb_true_iff in Hr as [Hr _].
  - intros r Hr. apply Array_sort_In, filter_In in Hr as [_ Hr].
    apply andb_true_iff in Hr as [Hr _]. by apply negb_true_iff.
  - destruct defaultHandler as [d|]; [|done].
    destruct (main_of_singleton hook ledger d) as (m & -> & _). done.
  - rewrite Nat.ltb_lt. unfold replace_of. rewrite Array_sort_length. split.
    + intros Hlen. destruct (List.filter _ _) as [|r l] eqn:Hf; [simpl in Hlen; lia|].
      exists r. apply (filter_In (fun r => reg_replace r)). rewrite Hf. by left.
    + intros (r & Hr & Hrep).
      assert (Hin : In r (List.filter (fun r => reg_replace r) (Map_values ledger)))
        by (apply filter_In; by split).
      destruct (List.filter _ _); [destruct Hin|simpl; lia].
Qed.

Lemma getHandlers_groups_witness :
  let st := MoreExamples.before_and_after in
  let hs := fst (getHandlers "enable" None st) in
  let ledger :=
    [(Examples.returning 1 undefined,
      registration_of "enable" (Examples.returning 1 undefined)
        (Examples.options false true None false) []);
     (Examples.returning 2 undefined,
      registration_of "enable" (Examples.returning 2 undefined) no_options
        [(Examples.returning 1 undefined,
          registration_of "enable" (Examples.returning 1 undefined)
            (Examples.options false true None false) [])])] in
  snd (getHandlers "enable" None st) = st /\
  found hs = true /\
  StronglySorted (cmp_le sortRegistrations) (hs_before hs) /\
  StronglySorted (cmp_le sortRegistrations) (hs_after hs) /\
  Permutation (hs_before hs ++ hs_after hs)
    (List.filter (fun r => negb (reg_replace r)) (Map_values ledger)) /\
  (forall r, In r (hs_before hs) -> reg_before r = true) /\
  (forall r, In r (hs_after hs) -> reg_before r = false) /\
  length (hs_handler hs) = 0 /\
  (replaced hs = true <-> exists r, In r (Map_values ledger) /\ reg_replace r = true).
Proof.
  intros st hs ledger.
  apply (getHandlers_groups "enable" ledger None st). by vm_compute.
Defined.

(** ** What every use of the registry keeps *)

Lemma registry_ok_create hook st : registry_ok st -> registry_ok (create hook st).
Proof.
  intros Hok. unfold create. destruct (_ !! hook); [done|].
  by apply registry_ok_with_ledger.
Qed.

Lemma known_with_ledger hook ledger hook' st :
  is_Some (registry st !! hook') -> is_Some (registry (with_ledger hook ledger st) !! hook').
Proof.
  intros Hk. simpl. rewrite lookup_insert. by case_decide.
Qed.

Lemma known_on hook h o hook' st :
  is_Some (registry st !! hook') -> is_Some (registry (snd (on hook h o st)) !! hook').
Proof.
  intros Hk. unfold on, get. destruct (_ !! hook); simpl; [|done].
  by apply known_with_ledger.
Qed.

Lemma known_off hook h hook' st :
  is_Some (registry st !! hook') -> is_Some (registry (off hook h st) !! hook').
Proof.
  intros Hk. unfold off, get. destruct (_ !! hook) as [ledger|]; simpl; [|done].
  destruct h as [h|]; [|by apply known_with_ledger].
  destruct (Map_delete same_fn h ledger) as [[] ledger']; simpl;
    by apply (known_with_ledger hook ledger' hook' st).
Qed.

Lemma known_runSync regs args hook' st o st' :
  is_Some (registry st !! hook') -> runSync regs args st = (o, st') ->
  is_Some (registry st' !! hook').
Proof.
  revert st o st'. induction regs as [|r regs IH]; intros st o st' Hk Hrun; simpl in Hrun.
  - by inversion Hrun; subst.
  - destruct (invoke _ _ _ _ _) as [[result|e] w1]; [|by inversion Hrun; subst].
    match type of Hrun with context [runSync regs args ?s] => set (st3 := s) in * end.
    assert (Hk3 : is_Some (registry st3 !! hook')).
    { unfold st3. destruct (isPromise result), (reg_once r); auto using known_off. }
    destruct (runSync regs args st3) as [[results|e] st4] eqn:Hrest; inversion Hrun; subst;
      by eapply IH.
Qed.

Lemma known_run regs args hook' st o st' :
  is_Some (registry st !! hook') -> run regs args st = (o, st') ->
  is_Some (registry st' !! hook').
Proof.
  revert st o st'. induction regs as [|r regs IH]; intros st o st' Hk Hrun; simpl in Hrun.
  - by inversion Hrun; subst.
  - destruct (await_runAsPromise _ _) as [[result|e] w1]; [|by inversion Hrun; subst].
    match type of Hrun with context [run regs args ?s] => set (st2 := s) in * end.
    assert (Hk2 : is_Some (registry st2 !! hook')).
    { unfold st2. destruct (reg_once r); auto using known_off. }
    destruct (run regs args st2) as [[results|e] st3] eqn:Hrest; inversion Hrun; subst;
      by eapply IH.
Qed.

Lemma known_trigger runner hook args d hook' st o st' :
  (forall regs args st o st',
     is_Some (registry st !! hook') -> runner regs args st = (o, st') ->
     is_Some (registry st' !! hook')) ->
  is_Some (registry st !! hook') -> trigger runner hook args d st = (o, st') ->
  is_Some (registry st' !! hook').
Proof.
  intros Hrunner Hk Hrun. unfold trigger in Hrun.
  pose proof (getHandlers_registry hook d st) as Hreg.
  destruct (getHandlers hook d st) as [hs st0]. simpl in Hreg.
  assert (Hk0 : is_Some (registry st0 !! hook')) by by rewrite Hreg.
  destruct (runner (hs_before hs) args st0) as [[rs1|e] st1] eqn:H1;
    [|inversion Hrun; subst; eauto].
  destruct (runner (hs_handler hs) args st1) as [[rs2|e] st2] eqn:H2;
    [|inversion Hrun; subst; eauto].
  destruct (runner (hs_after hs) args st2) as [[rs3|e] st3] eqn:H3;
    inversion Hrun; subst; simpl; eauto.
Qed.

(** X9: however a registry is used, it keeps one registration per handler in
    every ledger, and it keeps knowing the hooks of its list. *)
Theorem reachable_registry_invariant st :
  reachable st ->
  registry_ok st /\ forall hook, hook ∈ hooks -> hook_exists hook st = true.
Proof.
  assert (Hex : forall st hook, hook_exists hook st = true <-> is_Some (registry st !! hook)).
  { intros st' hook. unfold hook_exists. apply bool_decide_eq_true. }
  induction 1 as [w|hook st _ [Hok Hk]|hook h o st _ [Hok Hk]|hook h st _ [Hok Hk]
                  |st _ [Hok Hk]|hook args d st _ [Hok Hk]|hook args d st _ [Hok Hk]].
  - split; [apply registry_ok_new|]. intros hook Hin.
    rewrite new_hook_exists. by apply bool_decide_eq_true.
  - split; [by apply registry_ok_create|]. intros hook' Hin. apply Hex.
    specialize (Hk hook' Hin). apply Hex in Hk. unfold create.
    destruct (_ !! hook); [done|]. by apply known_with_ledger.
  - split; [by apply registry_ok_on|]. intros hook' Hin. apply Hex, known_on, Hex, Hk, Hin.
  - split; [by apply registry_ok_off|]. intros hook' Hin. apply Hex, known_off, Hex, Hk, Hin.
  - split; [by apply registry_ok_clear|]. intros hook' Hin.
    rewrite hook_exists_clear. by apply Hk.
  - destruct (callSync hook args d st) as [o st'] eqn:Hrun. simpl.
    split; [by eapply registry_ok_callSync|]. intros hook' Hin. apply Hex.
    rewrite callSync_trigger in Hrun.
    eapply known_trigger;
      [exact (fun regs args => known_runSync regs args hook')| |exact Hrun]. by apply Hex, Hk.
  - destruct (call hook args d st) as [o st'] eqn:Hrun. simpl.
    split; [by eapply registry_ok_call|]. intros hook' Hin. apply Hex.
    rewrite call_trigger in Hrun.
    eapply known_trigger;
      [exact (fun regs args => known_run regs args hook')| |exact Hrun]. by apply Hex, Hk.
Qed.

Lemma reachable_registry_invariant_witness :
  let st := off "visit:start" None
              (snd (callSync "enable" undefined None Examples.once_replacement)) in
  registry_ok st /\ forall hook, hook ∈ hooks -> hook_exists hook st = true.
Proof.
  apply reachable_registry_invariant.
  apply reachable_off, (reachable_callSync "enable" undefined None).
  apply (reachable_on "enable"), reachable_new.
Defined.

(** ** Registration order *)

Lemma Array_sort_of_sorted {A} (compareFn : A -> A -> Z) l :
  Sorted (cmp_le compareFn) l -> Array_sort compareFn l = l.
Proof.
  induction 1 as [|x l Hs IH Hhd]; simpl; [done|].
  rewrite IH. destruct Hhd as [|y l' Hxy]; simpl; [done|].
  unfold cmp_le in Hxy. destruct (0 <? compareFn x y)%Z eqn:Hc; [|done].
  apply Z.ltb_lt in Hc. lia.
Qed.

Lemma fresh_ledger_sorted hook o n handlers :
  Sorted (cmp_le sortRegistrations) (Map_values (fresh_ledger hook o n handlers)).
Proof.
  revert n. induction handlers as [|h handlers IH]; intros n; simpl; [constructor|].
  constructor; [apply IH|].
  destruct handlers as [|h' handlers]; simpl; constructor.
  apply sortRegistrations_le. right. unfold priority_or_0, reg_priority. simpl. lia.
Qed.

Lemma fresh_ledger_names hook o n handlers :
  map reg_name (Map_values (fresh_ledger hook o n handlers)) = map hname handlers.
Proof.
  revert n. induction handlers as [|h handlers IH]; intros n; simpl; [done|].
  f_equal. apply IH.
Qed.

Lemma fresh_ledger_filter (f : HookOptions -> bool) hook o n handlers :
  List.filter (fun r => f (reg_options r)) (Map_values (fresh_ledger hook o n handlers)) =
    if f o then Map_values (fresh_ledger hook o n handlers) else [].
Proof.
  revert n. induction handlers as [|h handlers IH]; intros n; simpl.
  - by destruct (f o).
  - rewrite IH. by destruct (f o).
Qed.

Lemma fresh_ledger_plain hook o n handlers :
  forallb plain_registration (Map_values (fresh_ledger hook o n handlers)) = true.
Proof. revert n. induction handlers as [|h handlers IH]; intros n; simpl; [done|apply IH]. Qed.

Lemma register_all_ledger hook o handlers st (ledger : HookLedger) :
  registry st !! hook = Some ledger ->
  NoDup (map key_name ledger ++ map hname handlers) ->
  registry (register_all hook o handlers st) !! hook =
    Some (ledger ++ fresh_ledger hook o (length ledger) handlers) /\
  world (register_all hook o handlers st) = world st.
Proof.
  revert st ledger. induction handlers as [|h handlers IH]; intros st ledger Hl Hnd; simpl.
  - by rewrite app_nil_r.
  - assert (Hfresh : Map_get same_fn h ledger = None).
    { apply Map_get_None_iff. intros Hin. apply NoDup_app in Hnd as (_ & Hdisj & _).
      apply (Hdisj (hname h)); [by apply list_elem_of_In|]. by left. }
    change (foldl (fun s h0 => snd (on hook h0 o s)) (snd (on hook h o st)) handlers)
      with (register_all hook o handlers (snd (on hook h o st))).
    rewrite (on_known _ _ _ _ _ Hl), (Map_set_fresh _ _ _ Hfresh).
    destruct (IH (with_ledger hook (ledger ++ [(h, registration_of hook h o ledger)]) st)
                (ledger ++ [(h, registration_of hook h o ledger)])) as [Hreg Hw].
    + apply with_ledger_lookup.
    + rewrite map_app. simpl. rewrite <- app_assoc. exact Hnd.
    + split; [|by rewrite Hw]. rewrite Hreg, length_app. simpl.
      rewrite <- app_assoc. simpl. do 4 f_equal; lia.
Qed.

(** A completed trigger whose registrations all lack a default handler,
    the main one included, invokes exactly their handlers. *)
Lemma trigger_plain runner hook ledger args d st v st' :
  runner_sound runner ->
  registry st !! hook = Some ledger ->
  forallb plain_registration (Map_values ledger) = true ->
  replace_of ledger = [] ->
  trigger runner hook args d st = (Normal v, st') ->
  calls (world st') =
    calls (world st) ++ map reg_name (before_of ledger) ++
      match d with Some h => [hname h] | None => [] end ++ map reg_name (after_of ledger).
Proof.
  intros Hsound Hl Hplain Hrep Hrun. unfold trigger in Hrun.
  rewrite (getHandlers_known _ _ _ _ Hl) in Hrun. simpl in Hrun.
  destruct (runner (before_of ledger) args st) as [[rs1|e] st1] eqn:H1; [|done].
  destruct (runner (main_of hook ledger d) args st1) as [[rs2|e] st2] eqn:H2; [|done].
  destruct (runner (after_of ledger) args st2) as [[rs3|e] st3] eqn:H3; [|done].
  inversion Hrun; subst. simpl.
  apply runner_plain in H1; [|done|by apply forallb_sorted_filter].
  apply runner_plain in H3; [|done|by apply forallb_sorted_filter].
  apply runner_plain in H2; [|done|].
  - rewrite (evolves_calls _ _ _ H3), (evolves_calls _ _ _ H2), (evolves_calls _ _ _ H1).
    rewrite <- !app_assoc. do 2 f_equal. unfold main_of. rewrite Hrep.
    by destruct d.
  - unfold main_of. rewrite Hrep. by destruct d.
Qed.

(** X10: handlers registered one after the other with the same options, without
    [replace], on a hook that had none: a completed trigger invokes them in
    the order of their registration, before the default handler when the
    options say [before] and after it otherwise. *)
Theorem handlers_run_in_registration_order hook o handlers st args d v st' :
  registry st !! hook = Some [] ->
  NoDup (map hname handlers) ->
  opt_replace o = false ->
  let st1 := register_all hook o handlers st in
  let default := match d with Some h => [hname h] | None => [] end in
  callSync hook args d st1 = (Normal v, st') \/ call hook args d st1 = (Normal v, st') ->
  calls (world st') =
    calls (world st) ++
      if opt_before o then map hname handlers ++ default
      else default ++ map hname handlers.
Proof.
  intros Hl Hnd Hrep st1 default Hrun.
  destruct (register_all_ledger hook o handlers st [] Hl Hnd) as [Hl1 Hw1].
  simpl in Hl1. fold st1 in Hl1, Hw1.
  set (ledger := fresh_ledger hook o 0 handlers) in *.
  assert (Hplain : forallb plain_registration (Map_values ledger) = true)
    by apply fresh_ledger_plain.
  assert (Hreplace : replace_of ledger = []).
  { unfold replace_of, ledger.
    rewrite (fresh_ledger_filter (fun o => opt_replace o)), Hrep. done. }
  assert (Hbefore : map reg_name (before_of ledger) =
                      if opt_before o then map hname handlers else []).
  { unfold before_of, ledger.
    rewrite (fresh_ledger_filter (fun o => opt_before o && negb (opt_replace o))), Hrep.
    destruct (opt_before o); simpl; [|done].
    by rewrite (Array_sort_of_sorted _ _ (fresh_ledger_sorted _ _ _ _)), fresh_ledger_names. }
  assert (Hafter : map reg_name (after_of ledger) =
                     if opt_before o then [] else map hname handlers).
  { unfold after_of, ledger.
    rewrite (fresh_ledger_filter (fun o => negb (opt_before o) && negb (opt_replace o))), Hrep.
    destruct (opt_before o); simpl; [done|].
    by rewrite (Array_sort_of_sorted _ _ (fresh_ledger_sorted _ _ _ _)), fresh_ledger_names. }
  assert (Hcalls : calls (world st') =
    calls (world st1) ++ map reg_name (before_of ledger) ++ default ++
      map reg_name (after_of ledger)).
  { destruct Hrun as [Hrun|Hrun].
    - rewrite callSync_trigger in Hrun. eapply trigger_plain; eauto using runSync_sound.
    - rewrite call_trigger in Hrun. eapply trigger_plain; eauto using run_sound. }
  rewrite Hcalls, Hbefore, Hafter, Hw1. destruct (opt_before o); simpl; [|done].
  by rewrite app_nil_r.
Qed.

Lemma handlers_run_in_registration_order_witness :
  let handlers := [Examples.returning 5 undefined; Examples.returning 3 undefined;
                   Examples.returning 4 undefined] in
  let d := Some (Examples.returning 0 undefined) in
  let st1 := register_all "enable" no_options handlers Examples.fresh in
  calls (world (snd (callSync "enable" undefined d st1))) =
    calls (world Examples.fresh) ++
      if opt_before no_options then map hname handlers ++ [0]
      else [0] ++ map hname handlers.
Proof.
  intros handlers d st1.
  apply (handlers_run_in_registration_order "enable" no_options handlers Examples.fresh
           undefined d undefined (snd (callSync "enable" undefined d st1))).
  - by vm_compute.
  - apply (bool_decide_eq_true_1 (NoDup (map hname handlers))). by vm_compute.
  - reflexivity.
  - left. by vm_compute.
Defined.

(** ** Handlers registered with [once] *)

Lemma in_turn_step (sync : bool) hook args defaultHandler st v st1 :
  (if sync then callSync hook args defaultHandler st
   else call hook args defaultHandler st) = (Normal v, st1) ->
  exists runner,
    runner_sound runner /\ runner_tidy runner /\
    trigger runner hook args defaultHandler st = (Normal v, st1).
Proof.
  destruct sync; intros Hrun.
  - exists runSync. split; [exact runSync_sound|]. split; [exact runSync_tidy|].
    by rewrite <- callSync_trigger.
  - exists run. split; [exact run_sound|]. split; [exact run_tidy|].
    by rewrite <- call_trigger.
Qed.

Lemma in_turn_registry_ok kinds hook args defaultHandler st st' :
  registry_ok st -> triggered_in_turn kinds hook args defaultHandler st st' -> registry_ok st'.
Proof.
  revert st. induction kinds as [|sync kinds IH]; intros st Hok Hn; simpl in Hn.
  - by subst st'.
  - destruct Hn as (v & st1 & Hstep & Hn).
    apply in_turn_step in Hstep as (runner & _ & (Hreg & _) & Hstep).
    apply (IH st1); [|done]. by eapply registry_ok_trigger.
Qed.





(** * Further properties of the render stage *)

Section RenderMore.
Import Render.
Context {H : Helpers}.

Lemma classList_add_classList token s :
  classList (classList_add token s) =
    if existsb (String.eqb token) (classList s) then classList s
    else classList s ++ [token].
Proof. unfold classList_add. by destruct (existsb _ _). Qed.

Lemma classList_add_rest token s :
  scrollToElement (classList_add token s) = scrollToElement s /\
  effects (classList_add token s) = effects s.
Proof. unfold classList_add. by destruct (existsb _ _). Qed.

Lemma followRedirect_classList page s : classList (followRedirect page s) = classList s.
Proof. unfold followRedirect. by destruct (negb _). Qed.

Lemma replaceAndEnter_classList page opts s :
  classList (replaceAndEnter page opts s) =
    if skipTransition opts then classList s
    else if existsb (String.eqb "is-rendering") (classList s) then classList s
         else classList s ++ ["is-rendering"].
Proof.
  unfold replaceAndEnter.
  set (s0 := if negb (skipTransition opts) then classList_add "is-rendering" s else s).
  assert (H0 : classList s0 =
    if skipTransition opts then classList s
    else if existsb (String.eqb "is-rendering") (classList s) then classList s
         else classList s ++ ["is-rendering"]).
  { unfold s0. destruct (skipTransition opts); [done|]. apply classList_add_classList. }
  rewrite <- H0. cbn [options_cache perform]. by destruct (options_cache s0).
Qed.

Lemma in_without token c classes : In c (without token classes) <-> In c classes /\ c <> token.
Proof.
  unfold without. rewrite filter_In, negb_true_iff. by rewrite String.eqb_neq.
Qed.

Lemma renderPage_classes page opts s c :
  In c (classList (renderPage page opts s)) <->
    (In c (classList s) /\ c <> "is-leaving") \/
    (c = "is-rendering" /\ skipTransition opts = false /\
     isSameResolvedUrl (getCurrentUrl s) (url page) = true).
Proof.
  destruct (isSameResolvedUrl (getCurrentUrl s) (url page)) eqn:Hcur.
  - rewrite (renderPage_current _ _ _ Hcur), replaceAndEnter_classList,
      followRedirect_classList.
    change (classList (classList_remove "is-leaving" s))
      with (without "is-leaving" (classList s)).
    destruct (skipTransition opts).
    + rewrite in_without. split; [by left|]. by intros [?|(_ & ? & _)].
    + destruct (existsb _ _) eqn:Hex.
      * rewrite in_without. split; [by left|]. intros [?|(-> & _)]; [done|].
        apply existsb_exists in Hex as (c' & Hc & Heq). apply String.eqb_eq in Heq.
        subst c'. by apply in_without.
      * rewrite in_app_iff, in_without. simpl. split.
        -- intros [?|[<-|[]]]; [by left|by right].
        -- intros [?|(-> & _)]; [by left|right; by left].
  - rewrite (renderPage_stale _ _ _ Hcur).
    change (classList (classList_remove "is-leaving" s))
      with (without "is-leaving" (classList s)).
    rewrite in_without. split; [by left|]. by intros [?|(_ & _ & ?)].
Qed.

End RenderMore.

(** X12: whatever the visit, the class [is-leaving] is gone after [renderPage];
    the class [is-rendering] is added for a visit that is still current and
    does not skip its transition, no other class comes or goes. *)
Theorem render_sets_the_classes (H : Render.Helpers) page opts s :
  let s' := Render.renderPage page opts s in
  ~ In "is-leaving" (Render.classList s') /\
  forall c, In c (Render.classList s') <->
    (In c (Render.classList s) /\ c <> "is-leaving") \/
    (c = "is-rendering" /\ Render.skipTransition opts = false /\
     Render.isSameResolvedUrl (Render.getCurrentUrl s) (Render.url page) = true).
Proof.
  intros s'. split; [|apply renderPage_classes].
  intros Hin. apply renderPage_classes in Hin as [[_ Hne]|(Heq & _)]; [done|discriminate Heq].
Qed.

(** A render stage that finds its visit superseded leaves history, cache,
    scroll target, current page address and the collaborators alone; all
    it changes is the class list. *)
Theorem stale_render_changes_classes_only (H : Render.Helpers) page opts s :
  Render.isSameResolvedUrl (Render.getCurrentUrl s) (Render.url page) = false ->
  let s' := Render.renderPage page opts s in
  Render.classList s' = without "is-leaving" (Render.classList s) /\
  Render.location s' = Render.location s /\
  Render.historyState s' = Render.historyState s /\
  Render.cache s' = Render.cache s /\
  Render.currentPageUrl s' = Render.currentPageUrl s /\
  Render.scrollToElement s' = Render.scrollToElement s /\
  Render.effects s' = Render.effects s.
Proof. intros Hstale s'. unfold s'. by rewrite (renderPage_stale _ _ _ Hstale). Qed.

Lemma stale_render_changes_classes_only_witness :
  let s := RenderExamples.superseded in
  let s' := Render.renderPage (H := RenderExamples.plain_helpers)
              RenderExamples.page_a RenderExamples.no_render_options s in
  Render.classList s' = without "is-leaving" (Render.classList s) /\
  Render.location s' = Render.location s /\
  Render.historyState s' = Render.historyState s /\
  Render.cache s' = Render.cache s /\
  Render.currentPageUrl s' = Render.currentPageUrl s /\
  Render.scrollToElement s' = Render.scrollToElement s /\
  Render.effects s' = Render.effects s.
Proof.
  apply (stale_render_changes_classes_only RenderExamples.plain_helpers
           RenderExamples.page_a RenderExamples.no_render_options RenderExamples.superseded).
  reflexivity.
Defined.

(** X13: when the response came from the address that was requested, the render
    stage of a current visit leaves the history record, the location and
    the current page address as they are, and the cache too as long as
    caching is enabled. *)
Theorem render_without_redirect_keeps_history (H : Render.Helpers) page opts s :
  Render.isSameResolvedUrl (Render.getCurrentUrl s) (Render.url page) = true ->
  Render.isSameResolvedUrl (Render.url page)
    (Render.Location_fromUrl_url (Render.responseURL page)) = true ->
  let s' := Render.renderPage page opts s in
  Render.historyState s' = Render.historyState s /\
  Render.location s' = Render.location s /\
  Render.currentPageUrl s' = Render.currentPageUrl s /\
  (Render.options_cache s = true -> Render.cache s' = Render.cache s).
Proof.
  intros Hcur Hsame s'. unfold s'. rewrite (renderPage_current _ _ _ Hcur).
  assert (Hno : Render.followRedirect page (Render.classList_remove "is-leaving" s) =
                Render.classList_remove "is-leaving" s).
  { unfold Render.followRedirect.
    replace (Render.isSameResolvedUrl
               (Render.getCurrentUrl (Render.classList_remove "is-leaving" s))
               (Render.Location_fromUrl_url (Render.responseURL page))) with true; [done|].
    symmetry. apply isSameResolvedUrl_true. apply isSameResolvedUrl_true in Hcur, Hsame.
    unfold Render.getCurrentUrl in *. simpl. congruence. }
  rewrite Hno.
  destruct (replaceAndEnter_frame page opts (Render.classList_remove "is-leaving" s))
    as (-> & -> & -> & Hc).
  repeat split; try done.
Qed.

Lemma render_without_redirect_keeps_history_witness :
  let H := RenderExamples.plain_helpers in
  let s := RenderExamples.visiting_old in
  let page := {| Render.url := "/old"; Render.responseURL := "/old";
                 Render.title := "Old"; Render.blocks := [] |} in
  let s' := Render.renderPage page RenderExamples.no_render_options s in
  Render.historyState s' = Render.historyState s /\
  Render.location s' = Render.location s /\
  Render.currentPageUrl s' = Render.currentPageUrl s /\
  (Render.options_cache s = true -> Render.cache s' = Render.cache s).
Proof.
  intros H s page.
  apply (render_without_redirect_keeps_history H page RenderExamples.no_render_options s);
    reflexivity.
Defined.

(** X14: with caching disabled the cache is empty when the render stage of a
    current visit ends, even when the stage stored a redirected page. *)
Theorem render_empties_disabled_cache (H : Render.Helpers) page opts s :
  Render.isSameResolvedUrl (Render.getCurrentUrl s) (Render.url page) = true ->
  Render.options_cache s = false ->
  Render.cache (Render.renderPage page opts s) = ∅.
Proof.
  intros Hcur Hoff. rewrite (renderPage_current _ _ _ Hcur).
  set (s1 := Render.followRedirect page (Render.classList_remove "is-leaving" s)).
  assert (Ho1 : Render.options_cache s1 = false).
  { unfold s1, Render.followRedirect. by destruct (negb _). }
  unfold Render.replaceAndEnter.
  set (s0 := if negb (Render.skipTransition opts)
             then Render.classList_add "is-rendering" s1 else s1).
  assert (Ho0 : Render.options_cache s0 = false).
  { unfold s0. destruct (negb _); [|done].
    destruct (classList_add_frame "is-rendering" s1) as (_ & _ & _ & _ & ->). done. }
  cbn [Render.options_cache Render.perform]. by rewrite Ho0.
Qed.

Lemma render_empties_disabled_cache_witness :
  Render.cache
    (Render.renderPage (H := RenderExamples.plain_helpers) RenderExamples.page_redirected
       RenderExamples.no_render_options
       (Render.set_cache ∅
          {| Render.classList := []; Render.location := "/old";
             Render.historyState := None; Render.cache := ∅;
             Render.currentPageUrl := "/old"; Render.scrollToElement := Some "#top";
             Render.options_cache := false; Render.effects := [] |})) = ∅.
Proof.
  apply (render_empties_disabled_cache RenderExamples.plain_helpers); reflexivity.
Defined.

(** X15: the render stage of a current visit calls its collaborators in this
    order: the hook before the replacement, the replacement of the content,
    the hook after it, the page view hook, and last the enter stage; only
    announcements of the cache come in between.  It ends with the scroll
    target reset. *)
Theorem render_steps_in_order (H : Render.Helpers) page opts s :
  Render.isSameResolvedUrl (Render.getCurrentUrl s) (Render.url page) = true ->
  let s' := Render.renderPage page opts s in
  Render.scrollToElement s' = None /\
  exists pre mid,
    Render.effects s' =
      Render.effects s ++ pre ++
        [Render.EventsRun "willReplaceContent" (Render.event opts);
         Render.ReplaceContent page;
         Render.EventsRun "contentReplaced" (Render.event opts);
         Render.EventsRun "pageView" (Render.event opts)] ++
        mid ++ [Render.EnterPage opts] /\
    Forall is_cache_announcement pre /\ Forall is_cache_announcement mid.
Proof.
  intros Hcur s'. unfold s'. rewrite (renderPage_current _ _ _ Hcur).
  set (s1 := Render.followRedirect page (Render.classList_remove "is-leaving" s)).
  assert (H1 : exists pre, Render.effects s1 = Render.effects s ++ pre /\
                           Forall is_cache_announcement pre).
  { unfold s1, Render.followRedirect. destruct (negb _); simpl.
    - eexists. split; [done|]. constructor; [by left|constructor].
    - exists []. by rewrite app_nil_r. }
  destruct H1 as (pre & Hpre & Hfpre).
  unfold Render.replaceAndEnter.
  set (s0 := if negb (Render.skipTransition opts)
             then Render.classList_add "is-rendering" s1 else s1).
  assert (H0 : Render.effects s0 = Render.effects s1).
  { unfold s0. destruct (negb _); [|done]. apply classList_add_rest. }
  cbn [Render.options_cache Render.perform]. destruct (Render.options_cache s0).
  - split; [done|]. exists pre, []. cbn. rewrite H0, Hpre.
    split; [by rewrite <- !app_assoc|]. by split.
  - split; [done|]. exists pre, [Render.EventsRun "cache:clear" None]. cbn.
    rewrite H0, Hpre. split; [by rewrite <- !app_assoc|].
    split; [done|]. constructor; [by right|constructor].
Qed.

Lemma render_steps_in_order_witness :
  let H := RenderExamples.plain_helpers in
  let page := RenderExamples.page_redirected in
  let opts := RenderExamples.no_render_options in
  let s := RenderExamples.visiting_old in
  let s' := Render.renderPage page opts s in
  Render.scrollToElement s' = None /\
  exists pre mid,
    Render.effects s' =
      Render.effects s ++ pre ++
        [Render.EventsRun "willReplaceContent" (Render.event opts);
         Render.ReplaceContent page;
         Render.EventsRun "contentReplaced" (Render.event opts);
         Render.EventsRun "pageView" (Render.event opts)] ++
        mid ++ [Render.EnterPage opts] /\
    Forall is_cache_announcement pre /\ Forall is_cache_announcement mid.
Proof.
  apply (render_steps_in_order RenderExamples.plain_helpers RenderExamples.page_redirected
           RenderExamples.no_render_options RenderExamples.visiting_old).
  reflexivity.
Defined.

(** X16: after a redirect the instance remembers, as its current page address,
    the address the location had before the history record was replaced,
    that is the address requested; the location is the address of the
    response. *)
Theorem redirect_remembers_requested_address (H : Render.Helpers) page opts s :
  let u := Render.Location_fromUrl_url (Render.responseURL page) in
  Render.isSameResolvedUrl (Render.getCurrentUrl s) (Render.url page) = true ->
  Render.isSameResolvedUrl (Render.url page) u = false ->
  let s' := Render.renderPage page opts s in
  Render.currentPageUrl s' = Render.location s /\
  Render.location s' = u /\
  Render.resolveUrl (Render.currentPageUrl s') <> Render.resolveUrl (Render.location s').
Proof.
  intros u Hcur Hredirect s'.
  apply isSameResolvedUrl_true in Hcur as Hcur'.
  apply isSameResolvedUrl_false in Hredirect as Hredirect'.
  unfold Render.getCurrentUrl in Hcur'.
  assert (Hdiff : Render.isSameResolvedUrl
            (Render.getCurrentUrl (Render.classList_remove "is-leaving" s)) u = false).
  { apply isSameResolvedUrl_false. unfold Render.getCurrentUrl. simpl.
    intros Heq. apply Hredirect'. by rewrite <- Hcur'. }
  assert (Hs1 : Render.followRedirect page (Render.classList_remove "is-leaving" s) =
    Render.updateHistoryRecord u
      (Render.set_currentPageUrl (Render.location s)
         (Render.cacheUrl (Render.with_url page u)
            (Render.classList_remove "is-leaving" s)))).
  { unfold Render.followRedirect. fold u. by rewrite Hdiff. }
  unfold s'. rewrite (renderPage_current _ _ _ Hcur), Hs1.
  match goal with |- context [Render.replaceAndEnter page opts ?x] =>
    destruct (replaceAndEnter_frame page opts x) as (_ & -> & -> & _) end.
  simpl. split; [done|]. split; [done|].
  intros Heq. apply Hredirect'. by rewrite <- Hcur'.
Qed.

Lemma redirect_remembers_requested_address_witness :
  let H := RenderExamples.plain_helpers in
  let s' := Render.renderPage RenderExamples.page_redirected
              RenderExamples.no_render_options RenderExamples.visiting_old in
  Render.currentPageUrl s' = Render.location RenderExamples.visiting_old /\
  Render.location s' = "/new" /\
  Render.resolveUrl (Render.currentPageUrl s') <> Render.resolveUrl (Render.location s').
Proof.
  apply (redirect_remembers_requested_address RenderExamples.plain_helpers
           RenderExamples.page_redirected RenderExamples.no_render_options
           RenderExamples.visiting_old); reflexivity.
Defined.

(** ** The animation waiter: all promises together *)

Section AnimationJoin.
Import Animation.
Context {E : Env}.

Lemma getAnimationPromises_promises console :
  fst (getAnimationPromises console) =
    match queryAll animationSelector with
    | [] => [Promise_resolve]
    | elements => map promise_of elements
    end.
Proof.
  unfold getAnimationPromises. destruct (queryAll animationSelector) as [|e elements] eqn:Hq.
  - done.
  - replace (length (e :: elements) =? 0)%nat with false by done.
    by rewrite foldl_each.
Qed.

Lemma getAnimationPromises_console console :
  snd (getAnimationPromises console) =
    console ++
    match queryAll animationSelector with
    | [] => [(LogError, no_elements_message)]
    | elements => concat (map diagnostic_of elements)
    end.
Proof.
  unfold getAnimationPromises. destruct (queryAll animationSelector) as [|e elements] eqn:Hq.
  - done.
  - replace (length (e :: elements) =? 0)%nat with false by done.
    by rewrite foldl_each.
Qed.

Lemma resolved_after_promise_of element evs :
  resolved_after (promise_of element) evs = true <->
  (transitions element = true -> transition_ended element evs).
Proof.
  unfold promise_of, transitions, transition_ended.
  destruct (no_transition _); simpl negb.
  - split; [discriminate|done].
  - rewrite resolved_after_listening. split; [by intros ? _|by intros Hall; apply Hall].
Qed.

Lemma Promise_all_resolved_spec console evs :
  Promise_all_resolved (fst (getAnimationPromises console)) evs = true <->
  all_transitions_ended evs.
Proof.
  rewrite getAnimationPromises_promises. unfold all_transitions_ended, Promise_all_resolved.
  destruct (queryAll animationSelector) as [|e elements].
  - simpl. split; [by intros _ ? []|done].
  - rewrite forallb_forall. split.
    + intros Hall element Hin. apply resolved_after_promise_of, Hall. by apply in_map.
    + intros Hall p Hp. apply in_map_iff in Hp as (element & <- & Hin).
      apply resolved_after_promise_of. by apply Hall.
Qed.

Lemma transition_ended_mono element before evs after :
  transition_ended element evs -> transition_ended element (before ++ evs ++ after).
Proof.
  intros (ev & Hin & Hev). exists ev. split; [|done].
  rewrite !in_app_iff. auto.
Qed.

Lemma diagnostics_count elements :
  concat (map diagnostic_of elements) =
    repeat (LogError, no_transition_message)
      (length (List.filter (fun e => negb (transitions e)) elements)).
Proof.
  induction elements as [|e elements IH]; [done|].
  simpl. rewrite IH. unfold diagnostic_of, transitions.
  by destruct (no_transition _).
Qed.

Lemma all_transitions_ended_literal evs :
  all_transitions_ended evs <->
  forall element, In element (queryAll animationSelector) ->
    let duration := getComputedStyle element (transitionProperty +:+ "Duration") in
    duration <> None -> duration <> Some "" -> duration <> Some "0s" ->
    exists ev, In ev evs /\
      ev_type ev = transitionEnd /\
      el_id (ev_target ev) = el_id element.
Proof.
  unfold all_transitions_ended, transitions, transition_ended. cbv zeta. split.
  - intros Hall element Hin Hn He Hz.
    destruct (Hall element Hin) as (ev & Hev & Htype & Htarget).
    { apply negb_true_iff, no_transition_false. by repeat split. }
    exists ev. split; [exact Hev|]. split; [exact Htype|]. by apply same_element_eq.
  - intros Hall element Hin Ht.
    apply negb_true_iff, no_transition_false in Ht as (Hn & He & Hz).
    destruct (Hall element Hin Hn He Hz) as (ev & Hev & Htype & Htarget).
    exists ev. split; [exact Hev|]. split; [exact Htype|]. by apply same_element_eq.
Qed.

Lemma no_transition_decide d :
  no_transition d = bool_decide (d = None \/ d = Some "" \/ d = Some "0s").
Proof.
  destruct (no_transition d) eqn:Hd; symmetry.
  - apply bool_decide_eq_true_2. by apply no_transition_spec.
  - apply bool_decide_eq_false_2. intros Hs. apply no_transition_spec in Hs. congruence.
Qed.

End AnimationJoin.

(** X17: the promises of the waiter are all resolved exactly when every
    matched element whose computed transition duration is a string other
    than the empty one and [0s] has received a transition end event whose
    target is that very element.  Any other duration counts, [0s, 0s]
    too: an element with it is waited for.  The diagnostics already on the
    console play no part. *)
Theorem all_promises_resolved_iff (E : Animation.Env) console evs :
  Animation.Promise_all_resolved (fst (Animation.getAnimationPromises console)) evs = true <->
  forall element, In element (Animation.queryAll Animation.animationSelector) ->
    let duration :=
      Animation.getComputedStyle element (Animation.transitionProperty +:+ "Duration") in
    duration <> None -> duration <> Some "" -> duration <> Some "0s" ->
    exists ev, In ev evs /\
      Animation.ev_type ev = Animation.transitionEnd /\
      Animation.el_id (Animation.ev_target ev) = Animation.el_id element.
Proof. rewrite Promise_all_resolved_spec. apply all_transitions_ended_literal. Qed.

(** X18: the waiter only appends to the console: one diagnostic when no
    element matches the selector, otherwise one for each matched element
    whose computed transition duration is missing, empty or the string
    [0s], and none for an element with any other duration, [0s, 0s]
    included. *)
Theorem one_diagnostic_per_still_element (E : Animation.Env) console :
  let elements := Animation.queryAll Animation.animationSelector in
  snd (Animation.getAnimationPromises console) =
    console ++
    match elements with
    | [] =>
        [(LogError, "No animated elements found by selector " +:+ Animation.animationSelector)]
    | _ =>
        repeat
          (LogError,
           "No CSS transition defined for element of selector " +:+ Animation.animationSelector)
          (length (List.filter
             (fun e =>
                let duration :=
                  Animation.getComputedStyle e (Animation.transitionProperty +:+ "Duration") in
                bool_decide (duration = None \/ duration = Some "" \/ duration = Some "0s"))
             elements))
    end.
Proof.
  intros elements. rewrite getAnimationPromises_console. fold elements.
  destruct elements as [|e elements']; [done|].
  rewrite diagnostics_count. do 3 f_equal.
  apply List.filter_ext. intros a. unfold transitions.
  by rewrite negb_involutive, no_transition_decide.
Qed.

(** Once the promises of the waiter are all resolved they stay so: events
    dispatched before or after the ones that resolved them change nothing,
    and neither does what is on the console when the waiter is called. *)
Theorem resolved_promises_stay_resolved (E : Animation.Env) console console' before evs after :
  Animation.Promise_all_resolved (fst (Animation.getAnimationPromises console)) evs = true ->
  Animation.Promise_all_resolved (fst (Animation.getAnimationPromises console'))
    (before ++ evs ++ after) = true.
Proof.
  rewrite !Promise_all_resolved_spec. intros Hall element Hin Ht.
  by apply transition_ended_mono, Hall.
Qed.

Lemma resolved_promises_stay_resolved_witness :
  let E := AnimationExamples.page [AnimationExamples.animated; AnimationExamples.still] in
  Animation.Promise_all_resolved (fst (Animation.getAnimationPromises []))
    ([LeaveExamples.ended AnimationExamples.still] ++
     [LeaveExamples.ended AnimationExamples.animated] ++
     [LeaveExamples.ended AnimationExamples.unstyled]) = true.
Proof.
  intros E.
  apply (resolved_promises_stay_resolved E [] []
           [LeaveExamples.ended AnimationExamples.still]
           [LeaveExamples.ended AnimationExamples.animated]
           [LeaveExamples.ended AnimationExamples.unstyled]).
  by vm_compute.
Defined.

(** ** The leave stage *)

Section LeaveStage.
Import Render Leave.
Context {E : Animation.Env}.

Lemma leavePage_skipped opts evs s console :
  skipTransition opts = true ->
  leavePage opts evs s console = (perform (EventsRun "animationSkipped" None) s, console, true).
Proof. unfold leavePage. by intros ->. Qed.

Lemma leavePage_animated opts evs s console :
  skipTransition opts = false ->
  leavePage opts evs s console =
    let ended :=
      Animation.Promise_all_resolved (fst (Animation.getAnimationPromises console)) evs in
    (if ended then perform (EventsRun "animationOutDone" None) (leaving opts s)
     else leaving opts s,
     snd (Animation.getAnimationPromises console), ended).
Proof.
  unfold leavePage, leaving, events_run. intros ->.
  destruct (Animation.getAnimationPromises console) as [promises console'].
  cbn [fst snd]. by destruct (event opts); destruct (Animation.Promise_all_resolved _ _).
Qed.

Lemma in_classList_add c token s :
  In c (classList (classList_add token s)) <-> In c (classList s) \/ c = token.
Proof.
  rewrite classList_add_classList. destruct (existsb _ _) eqn:Hex.
  - split; [by left|]. intros [?| ->]; [done|].
    apply existsb_exists in Hex as (c & Hc & Heq). apply String.eqb_eq in Heq. by subst c.
  - rewrite in_app_iff. simpl. split; [intros [?|[<-|[]]]|intros [?| ->]]; auto.
Qed.

Lemma leaving_classes opts s c :
  In c (classList (leaving opts s)) <->
    In c (classList s) \/ c = "is-changing" \/ c = "is-leaving" \/ c = "is-animating" \/
    (c = "is-popstate" /\ event opts <> None).
Proof.
  unfold leaving. destruct (event opts) as [ev|].
  - rewrite !in_classList_add. cbn [classList perform].
    split; [|intros [?|[?|[?|[?|[? _]]]]]; tauto].
    intros [[[[?|?]|?]|?]|?]; auto. do 4 right. by split.
  - rewrite !in_classList_add. cbn [classList perform].
    split; [tauto|]. intros [?|[?|[?|[?|[_ ?]]]]]; tauto.
Qed.

Lemma leaving_effects opts s :
  effects (leaving opts s) = effects s ++ [EventsRun "animationOutStart" None].
Proof.
  unfold leaving.
  destruct (event opts);
    repeat (rewrite (proj2 (classList_add_rest _ _))); done.
Qed.

End LeaveStage.

(** X19: the leave stage ends exactly when the transition is skipped or
    every matched element whose computed transition duration is a string
    other than the empty one and [0s] has received a transition end event
    whose target is that very element; a page without such elements ends
    it at once.  An element with the duration [0s, 0s] is such an
    element: the stage waits for its event. *)
Theorem leave_ends_iff (E : Animation.Env) opts evs s console :
  snd (Leave.leavePage opts evs s console) = true <->
  Render.skipTransition opts = true \/
  forall element, In element (Animation.queryAll Animation.animationSelector) ->
    let duration :=
      Animation.getComputedStyle element (Animation.transitionProperty +:+ "Duration") in
    duration <> None -> duration <> Some "" -> duration <> Some "0s" ->
    exists ev, In ev evs /\
      Animation.ev_type ev = Animation.transitionEnd /\
      Animation.el_id (Animation.ev_target ev) = Animation.el_id element.
Proof.
  rewrite <- all_transitions_ended_literal.
  destruct (Render.skipTransition opts) eqn:Hskip.
  - rewrite (leavePage_skipped _ _ _ _ Hskip). simpl. split; [by left|done].
  - rewrite (leavePage_animated _ _ _ _ Hskip). cbn [snd].
    rewrite Promise_all_resolved_spec. split; [by right|]. by intros [?|?].
Qed.

(** X20: a leave that is not skipped keeps every class of the document and adds
    [is-changing], [is-leaving] and [is-animating], and [is-popstate] when
    the visit comes from the history; it adds no other class, whether the
    animations have ended or not. *)
Theorem leave_marks_the_document (E : Animation.Env) opts evs s console :
  Render.skipTransition opts = false ->
  forall c, In c (Render.classList (fst (fst (Leave.leavePage opts evs s console)))) <->
    In c (Render.classList s) \/
    c = "is-changing" \/ c = "is-leaving" \/ c = "is-animating" \/
    (c = "is-popstate" /\ Render.event opts <> None).
Proof.
  intros Hskip c. rewrite (leavePage_animated _ _ _ _ Hskip). cbn [fst].
  rewrite <- leaving_classes. by destruct (Animation.Promise_all_resolved _ _).
Qed.

Lemma leave_marks_the_document_witness :
  In "is-popstate"
    (Render.classList
       (fst (fst (@Leave.leavePage (AnimationExamples.page [AnimationExamples.animated])
                    LeaveExamples.history_visit [] LeaveExamples.idle [])))) /\
  ~ In "is-rendering"
    (Render.classList
       (fst (fst (@Leave.leavePage (AnimationExamples.page [AnimationExamples.animated])
                    LeaveExamples.history_visit [] LeaveExamples.idle [])))).
Proof.
  pose proof (leave_marks_the_document (AnimationExamples.page [AnimationExamples.animated])
                LeaveExamples.history_visit [] LeaveExamples.idle [] eq_refl) as Hclasses.
  split.
  - apply Hclasses. do 4 right. by split.
  - intros Hin. apply Hclasses in Hin.
    destruct Hin as [[Hin|[]]|[Hin|[Hin|[Hin|[Hin _]]]]]; discriminate Hin.
Defined.

(** X21: the leave stage announces [animationSkipped] alone when the transition
    is skipped; otherwise it announces [animationOutStart], and
    [animationOutDone] after it exactly when the stage has ended.  It
    leaves the location, the history entry, the cache, the address of the
    displayed page and the scroll target as they are. *)
Theorem leave_announcements (E : Animation.Env) opts evs s console :
  let s' := fst (fst (Leave.leavePage opts evs s console)) in
  let ended := snd (Leave.leavePage opts evs s console) in
  Render.effects s' =
    Render.effects s ++
    (if Render.skipTransition opts then [Render.EventsRun "animationSkipped" None]
     else Render.EventsRun "animationOutStart" None ::
          (if ended then [Render.EventsRun "animationOutDone" None] else [])) /\
  Render.location s' = Render.location s /\
  Render.historyState s' = Render.historyState s /\
  Render.cache s' = Render.cache s /\
  Render.currentPageUrl s' = Render.currentPageUrl s /\
  Render.scrollToElement s' = Render.scrollToElement s.
Proof.
  intros s' ended. unfold s', ended.
  destruct (Render.skipTransition opts) eqn:Hskip.
  - by rewrite (leavePage_skipped _ _ _ _ Hskip).
  - rewrite (leavePage_animated _ _ _ _ Hskip). cbn [fst snd].
    assert (Hframe : Render.location (leaving opts s) = Render.location s /\
      Render.historyState (leaving opts s) = Render.historyState s /\
      Render.cache (leaving opts s) = Render.cache s /\
      Render.currentPageUrl (leaving opts s) = Render.currentPageUrl s /\
      Render.scrollToElement (leaving opts s) = Render.scrollToElement s).
    { unfold leaving, Render.classList_add.
      by destruct (Render.event opts); repeat (destruct (existsb _ _)). }
    pose proof (leaving_effects opts s) as Heff.
    destruct (Animation.Promise_all_resolved _ _).
    + cbn [Render.effects Render.perform Render.location Render.historyState Render.cache
             Render.currentPageUrl Render.scrollToElement].
      rewrite Heff, <- app_assoc. by split.
    + by split.
Qed.

(** A skipped leave changes no class of the document and writes nothing on
    the console, and it ends whatever events were dispatched. *)
Theorem skipped_leave_is_silent (E : Animation.Env) opts evs s console :
  Render.skipTransition opts = true ->
  Render.classList (fst (fst (Leave.leavePage opts evs s console))) = Render.classList s /\
  snd (fst (Leave.leavePage opts evs s console)) = console /\
  snd (Leave.leavePage opts evs s console) = true.
Proof. intros Hskip. by rewrite (leavePage_skipped _ _ _ _ Hskip). Qed.

Lemma skipped_leave_is_silent_witness :
  Render.classList
    (fst (fst (@Leave.leavePage (AnimationExamples.page [AnimationExamples.animated])
                 LeaveExamples.skipped [] LeaveExamples.idle []))) = ["swup-enabled"].
Proof.
  exact (proj1 (skipped_leave_is_silent (AnimationExamples.page [AnimationExamples.animated])
                  LeaveExamples.skipped [] LeaveExamples.idle [] eq_refl)).
Defined.

(** X22: the render stage that follows a leave takes [is-leaving] off again and
    keeps [is-changing] and [is-animating], whatever page it is given and
    whether the visit is still the current one. *)
Theorem render_after_leave (E : Animation.Env) (H : Render.Helpers)
  opts evs s console page opts' :
  Render.skipTransition opts = false ->
  let left := fst (fst (Leave.leavePage opts evs s console)) in
  let rendered := Render.renderPage page opts' left in
  In "is-leaving" (Render.classList left) /\
  ~ In "is-leaving" (Render.classList rendered) /\
  In "is-changing" (Render.classList rendered) /\
  In "is-animating" (Render.classList rendered).
Proof.
  intros Hskip left rendered.
  assert (Hleft : forall c, In c (Render.classList left) <->
    In c (Render.classList s) \/
    c = "is-changing" \/ c = "is-leaving" \/ c = "is-animating" \/
    (c = "is-popstate" /\ Render.event opts <> None)).
  { intros c. unfold left. rewrite (leavePage_animated _ _ _ _ Hskip). cbn [fst].
    rewrite <- leaving_classes. by destruct (Animation.Promise_all_resolved _ _). }
  split; [apply Hleft; auto|]. unfold rendered. split; [|split].
  - intros Hin. apply renderPage_classes in Hin as [[_ Hne]|(Heq & _)];
      [done|discriminate Heq].
  - apply renderPage_classes. left. split; [apply Hleft; auto|done].
  - apply renderPage_classes. left. split; [apply Hleft; auto 6|done].
Qed.

Lemma render_after_leave_witness :
  ~ In "is-leaving"
    (Render.classList
       (@Render.renderPage RenderExamples.plain_helpers RenderExamples.page_a
          RenderExamples.no_render_options
          (fst (fst (@Leave.leavePage (AnimationExamples.page [AnimationExamples.animated])
                       LeaveExamples.history_visit
                       [LeaveExamples.ended AnimationExamples.animated]
                       LeaveExamples.idle []))))).
Proof.
  exact (proj1 (proj2
    (render_after_leave (AnimationExamples.page [AnimationExamples.animated])
       RenderExamples.plain_helpers LeaveExamples.history_visit
       [LeaveExamples.ended AnimationExamples.animated] LeaveExamples.idle []
       RenderExamples.page_a RenderExamples.no_render_options eq_refl))).
Defined.

(** ** The instance: resolved paths *)

Section SwupInstance.
Import SwupClass.

Lemma warned_app msgs msgs' i : warned msgs' (warned msgs i) = warned (msgs ++ msgs') i.
Proof. unfold warned. by rewrite foldl_app. Qed.

Lemma warned_frame msgs i :
  options (warned msgs i) = options i /\
  browser (warned msgs i) = browser i /\
  location_href (warned msgs i) = location_href i /\
  getAnchorElement (warned msgs i) = getAnchorElement i /\
  Link_getAddress (warned msgs i) = Link_getAddress i /\
  Link_getHash (warned msgs i) = Link_getHash i /\
  actions (warned msgs i) = actions i /\
  console (warned msgs i) = console i ++ map (fun msg => (LogWarn, msg)) msgs.
Proof.
  revert i. induction msgs as [|msg msgs IH]; intros i.
  - simpl. by rewrite app_nil_r.
  - change (warned (msg :: msgs) i) with (warned msgs (console_warn msg i)).
    destruct (IH (console_warn msg i)) as (-> & -> & -> & -> & -> & -> & -> & ->).
    simpl. by rewrite <- app_assoc.
Qed.

Lemma resolvePath_path path i :
  fst (resolvePath path i) =
    match resolvePath_option (options i) with
    | NotAFunction => path
    | Resolver f =>
        match f path with
        | JsString r => if String.eqb r "" then path else r
        | JsOther => path
        end
    end.
Proof.
  unfold resolvePath. destruct (resolvePath_option _) as [|f]; [done|].
  destruct (f path) as [r|]; [|done]. by destruct (String.eqb r "").
Qed.

Lemma resolvePath_warned path i : exists msgs, snd (resolvePath path i) = warned msgs i.
Proof.
  unfold resolvePath. destruct (resolvePath_option _) as [|f]; [by eexists [_]|].
  destruct (f path) as [r|]; [|by eexists [_]].
  destruct (String.eqb r ""); [by eexists [_]|by exists []].
Qed.

Lemma resolvePath_options path i j :
  options i = options j -> fst (resolvePath path i) = fst (resolvePath path j).
Proof. intros Ho. by rewrite !resolvePath_path, Ho. Qed.

Lemma isSameResolvedPath_eqb path1 path2 i :
  fst (isSameResolvedPath path1 path2 i) =
    String.eqb (fst (resolvePath path1 i)) (fst (resolvePath path2 i)).
Proof.
  unfold isSameResolvedPath.
  destruct (resolvePath_warned path1 i) as [msgs Hw].
  destruct (resolvePath path1 i) as [r1 i1] eqn:H1. cbn [fst snd] in *.
  pose proof (resolvePath_options path2 i1 i) as Ho.
  destruct (resolvePath path2 i1) as [r2 i2] eqn:H2. cbn [fst snd] in *.
  rewrite Ho; [done|]. subst i1. apply warned_frame.
Qed.

Lemma isSameResolvedPath_warned path1 path2 i :
  exists msgs, snd (isSameResolvedPath path1 path2 i) = warned msgs i.
Proof.
  unfold isSameResolvedPath.
  destruct (resolvePath_warned path1 i) as [msgs Hw].
  destruct (resolvePath path1 i) as [r1 i1] eqn:H1. cbn [fst snd] in *.
  destruct (resolvePath_warned path2 i1) as [msgs' Hw'].
  destruct (resolvePath path2 i1) as [r2 i2] eqn:H2. cbn [fst snd] in *.
  exists (msgs ++ msgs'). by rewrite Hw', Hw, warned_app.
Qed.

Lemma isSameResolvedPath_options path1 path2 i j :
  options i = options j ->
  fst (isSameResolvedPath path1 path2 i) = fst (isSameResolvedPath path1 path2 j).
Proof.
  intros Ho. rewrite !isSameResolvedPath_eqb.
  by rewrite (resolvePath_options path1 i j Ho), (resolvePath_options path2 i j Ho).
Qed.

Lemma new_actions_app i i' l : actions i' = actions i ++ l -> new_actions i i' = l.
Proof. unfold new_actions. intros ->. apply drop_app_length. Qed.

End SwupInstance.

(** X23: [resolvePath] always gives a path: the non-empty string the option
    returns, without a warning, or else the path it was given, with exactly
    one warning.  It changes nothing but the console. *)
Theorem resolvePath_gives_a_path path i :
  let r := fst (SwupClass.resolvePath path i) in
  let i' := snd (SwupClass.resolvePath path i) in
  ((exists f, SwupClass.resolvePath_option (SwupClass.options i) = SwupClass.Resolver f /\
      f path = SwupClass.JsString r /\ r <> "" /\
      SwupClass.console i' = SwupClass.console i) \/
   (r = path /\ exists msg, SwupClass.console i' = SwupClass.console i ++ [(LogWarn, msg)])) /\
  (path <> "" -> r <> "") /\
  SwupClass.options i' = SwupClass.options i /\
  SwupClass.browser i' = SwupClass.browser i /\
  SwupClass.actions i' = SwupClass.actions i.
Proof.
  intros r i'. unfold r, i', SwupClass.resolvePath.
  destruct (SwupClass.resolvePath_option _) as [|f] eqn:Hf.
  - simpl. split; [right; by eauto|]. by split.
  - destruct (f path) as [result|] eqn:Hres.
    + destruct (String.eqb result "") eqn:He.
      * simpl. split; [right; by eauto|]. by split.
      * apply String.eqb_neq in He. simpl. split; [|by split].
        left. exists f. by split.
    + simpl. split; [right; by eauto|]. by split.
Qed.

(** X24: having the same resolved path is an equivalence on paths, and it does
    not depend on what is on the console; with the resolver of the default
    options two paths have the same resolved path exactly when they are
    equal. *)
Theorem same_resolved_path_is_an_equivalence i :
  (forall p, fst (SwupClass.isSameResolvedPath p p i) = true) /\
  (forall p q, fst (SwupClass.isSameResolvedPath p q i) =
               fst (SwupClass.isSameResolvedPath q p i)) /\
  (forall p q r, fst (SwupClass.isSameResolvedPath p q i) = true ->
                 fst (SwupClass.isSameResolvedPath q r i) = true ->
                 fst (SwupClass.isSameResolvedPath p r i) = true) /\
  (forall p q msg, fst (SwupClass.isSameResolvedPath p q (SwupClass.console_warn msg i)) =
                   fst (SwupClass.isSameResolvedPath p q i)) /\
  (forall origin p q, SwupClass.options i = SwupClass.defaults origin ->
     (fst (SwupClass.isSameResolvedPath p q i) = true <-> p = q)).
Proof.
  split; [|split; [|split; [|split]]].
  - intros p. rewrite isSameResolvedPath_eqb. apply String.eqb_refl.
  - intros p q. rewrite !isSameResolvedPath_eqb. apply String.eqb_sym.
  - intros p q r. rewrite !isSameResolvedPath_eqb, !String.eqb_eq. congruence.
  - intros p q msg. by apply isSameResolvedPath_options.
  - intros origin p q Ho. rewrite isSameResolvedPath_eqb, !resolvePath_path, Ho. simpl.
    rewrite String.eqb_eq.
    destruct (String.eqb p "") eqn:Hp, (String.eqb q "") eqn:Hq; done.
Qed.

(** ** The instance: clicks on links *)

Section SwupClicks.
Import SwupClass.

Lemma handleLinkToSamePage_actions url hash i :
  actions (handleLinkToSamePage url hash i) =
    actions i ++
    [TriggerEvent (if String.eqb hash "" then "samePage" else "samePageWithHash")].
Proof.
  unfold handleLinkToSamePage. destruct (String.eqb hash ""); [done|].
  cbn [getAnchorElement act]. by destruct (getAnchorElement i hash).
Qed.

Lemma linkClickHandler_actions event i :
  new_actions i (linkClickHandler event i) =
    let linkEl := delegateTarget event in
    if plain_click event i then
      [TriggerEvent "clickLink"; PreventDefault] ++
      (if String.eqb (address linkEl) "" || String.eqb (address linkEl) (getCurrentUrl i) then
         [TriggerEvent (if String.eqb (hash linkEl) "" then "samePage" else "samePageWithHash")]
       else if fst (isSameResolvedPath (address linkEl) (getCurrentUrl i) i) then []
       else [LoadPage (address linkEl) (data_swup_transition linkEl) None])
    else if negb (matches_download_or_blank linkEl) &&
            negb (ignoreLink (options i) linkEl) &&
            (metaKey event || ctrlKey event || shiftKey event || altKey event)
         then [TriggerEvent "openPageInNewTab"]
         else [].
Proof.
  apply new_actions_app. unfold linkClickHandler, plain_click, triggerWillOpenNewWindow.
  set (linkEl := delegateTarget event).
  destruct (matches_download_or_blank linkEl); [by rewrite app_nil_r|].
  destruct (ignoreLink (options i) linkEl); [by rewrite app_nil_r|].
  destruct (metaKey event || ctrlKey event || shiftKey event || altKey event); [done|].
  destruct (button event =? 0)%Z; [|by rewrite app_nil_r].
  cbn [negb andb].
  set (i2 := act PreventDefault (act (TriggerEvent "clickLink") i)).
  assert (Hact : actions i2 = actions i ++ [TriggerEvent "clickLink"; PreventDefault]).
  { unfold i2. simpl. by rewrite <- app_assoc. }
  change (getCurrentUrl i2) with (getCurrentUrl i).
  destruct (String.eqb (address linkEl) "" || String.eqb (address linkEl) (getCurrentUrl i)).
  - by rewrite handleLinkToSamePage_actions, Hact, <- app_assoc.
  - pose proof (isSameResolvedPath_options (address linkEl) (getCurrentUrl i) i2 i eq_refl)
      as Hsame.
    destruct (isSameResolvedPath_warned (address linkEl) (getCurrentUrl i) i2) as [msgs Hw].
    destruct (isSameResolvedPath (address linkEl) (getCurrentUrl i) i2) as [same i3].
    cbn [fst snd] in Hsame, Hw. rewrite <- Hsame. subst i3.
    destruct (warned_frame msgs i2) as (_ & _ & _ & _ & _ & _ & Ha & _).
    destruct same.
    + by rewrite Ha, Hact, app_nil_r.
    + cbn [actions act with_browser]. by rewrite Ha, Hact, <- app_assoc.
Qed.

Lemma plain_click_spec event i :
  plain_click event i = true <->
  matches_download_or_blank (delegateTarget event) = false /\
  ignoreLink (options i) (delegateTarget event) = false /\
  metaKey event = false /\ ctrlKey event = false /\
  shiftKey event = false /\ altKey event = false /\
  button event = 0%Z.
Proof.
  unfold plain_click. rewrite !andb_true_iff, !negb_true_iff, !orb_false_iff, Z.eqb_eq.
  tauto.
Qed.

End SwupClicks.

(** X25: a click makes the instance load a page exactly when the link opens no
    new window and is not ignored, the left button was pressed without a
    modifier key, and the address of the link is not empty, is not the
    current address and does not resolve to the same path as it.  The page
    loaded is the one of the link, with the transition named on the link,
    and not as a history visit. *)
Theorem click_loads_page_iff event i url transition popstate :
  In (SwupClass.LoadPage url transition popstate)
     (new_actions i (SwupClass.linkClickHandler event i)) <->
  plain_click event i = true /\
  url = SwupClass.address (SwupClass.delegateTarget event) /\
  url <> "" /\ url <> SwupClass.getCurrentUrl i /\
  fst (SwupClass.isSameResolvedPath url (SwupClass.getCurrentUrl i) i) = false /\
  transition = SwupClass.data_swup_transition (SwupClass.delegateTarget event) /\
  popstate = None.
Proof.
  rewrite linkClickHandler_actions. cbv zeta.
  set (linkEl := SwupClass.delegateTarget event).
  destruct (plain_click event i).
  - destruct (String.eqb (SwupClass.address linkEl) "") eqn:He.
    { apply String.eqb_eq in He. simpl. split.
      - intros [?|[?|[?|[]]]]; discriminate.
      - intros (_ & -> & Hne & _). by rewrite He in Hne. }
    apply String.eqb_neq in He.
    destruct (String.eqb (SwupClass.address linkEl) (SwupClass.getCurrentUrl i)) eqn:Hc.
    { apply String.eqb_eq in Hc. simpl. split.
      - intros [?|[?|[?|[]]]]; discriminate.
      - intros (_ & -> & _ & Hne & _). done. }
    apply String.eqb_neq in Hc. cbn [orb].
    destruct (fst (SwupClass.isSameResolvedPath (SwupClass.address linkEl)
                     (SwupClass.getCurrentUrl i) i)) eqn:Hs.
    + simpl. split.
      * intros [?|[?|[]]]; discriminate.
      * intros (_ & -> & _ & _ & Hf & _). rewrite Hs in Hf. discriminate Hf.
    + simpl. split.
      * intros [?|[?|[[= <- <- <-]|[]]]]; try discriminate. by rewrite Hs.
      * intros (_ & -> & _ & _ & _ & -> & ->). auto.
  - split; [|by intros [? _]].
    destruct (_ && _); simpl; [intros [?|[]]; discriminate|done].
Qed.

(** The default action of a click is prevented, and [clickLink] triggered,
    exactly for the clicks the instance handles: the link opens no new
    window and is not ignored, and the left button was pressed without a
    modifier key. *)
Theorem click_prevents_default_iff event i :
  (In SwupClass.PreventDefault (new_actions i (SwupClass.linkClickHandler event i)) <->
   plain_click event i = true) /\
  (In (SwupClass.TriggerEvent "clickLink")
      (new_actions i (SwupClass.linkClickHandler event i)) <->
   plain_click event i = true).
Proof.
  rewrite linkClickHandler_actions. cbv zeta. destruct (plain_click event i).
  - simpl. split; (split; [done|auto]).
  - split; (split; [|done]); destruct (_ && _); simpl;
      [intros [?|[]]; discriminate|done|intros [?|[]]; discriminate|done].
Qed.

(** X26: a click the instance does not handle changes nothing: at most, when a
    modifier key was pressed on a link that is neither ignored nor opens a
    new window, [openPageInNewTab] is triggered. *)
Theorem unhandled_click_changes_nothing event i :
  plain_click event i = false ->
  let i' := SwupClass.linkClickHandler event i in
  SwupClass.browser i' = SwupClass.browser i /\
  SwupClass.console i' = SwupClass.console i /\
  (new_actions i i' = [] \/ new_actions i i' = [SwupClass.TriggerEvent "openPageInNewTab"]) /\
  (new_actions i i' = [SwupClass.TriggerEvent "openPageInNewTab"] <->
   SwupClass.matches_download_or_blank (SwupClass.delegateTarget event) = false /\
   SwupClass.ignoreLink (SwupClass.options i) (SwupClass.delegateTarget event) = false /\
   (SwupClass.metaKey event || SwupClass.ctrlKey event ||
    SwupClass.shiftKey event || SwupClass.altKey event) = true).
Proof.
  intros Hplain i'. unfold i'.
  assert (Hframe :
    SwupClass.browser (SwupClass.linkClickHandler event i) = SwupClass.browser i /\
    SwupClass.console (SwupClass.linkClickHandler event i) = SwupClass.console i).
  { unfold plain_click in Hplain.
    unfold SwupClass.linkClickHandler, SwupClass.triggerWillOpenNewWindow.
    destruct (SwupClass.matches_download_or_blank _); [done|].
    destruct (SwupClass.ignoreLink _ _); [done|].
    destruct (_ || _ || _ || _); [done|].
    simpl in Hplain. by rewrite Hplain. }
  destruct Hframe as [Hb Hc]. split; [exact Hb|]. split; [exact Hc|].
  rewrite linkClickHandler_actions. cbv zeta. rewrite Hplain.
  destruct (SwupClass.matches_download_or_blank _);
    [simpl; split; [by left|]; split; [done|by intros (? & _)]|].
  destruct (SwupClass.ignoreLink _ _);
    [simpl; split; [by left|]; split; [done|by intros (_ & ? & _)]|].
  destruct (_ || _ || _ || _); simpl.
  - split; [by right|]. by split.
  - split; [by left|]. split; [done|by intros (_ & _ & ?)].
Qed.

Lemma unhandled_click_changes_nothing_witness :
  new_actions SwupExamples.instance
    (SwupClass.linkClickHandler
       (SwupExamples.ctrl_click (SwupExamples.link "/b" "")) SwupExamples.instance) =
    [SwupClass.TriggerEvent "openPageInNewTab"].
Proof.
  apply (unhandled_click_changes_nothing
           (SwupExamples.ctrl_click (SwupExamples.link "/b" "")) SwupExamples.instance);
    by vm_compute.
Defined.

(** X27: a handled click on a link to the current page with a hash never loads a
    page: it triggers [samePageWithHash]; when the document has an element
    for the hash the history entry is rewritten to the address with the
    hash, and otherwise a warning is written and the history stays as it
    is.  The scroll target is left alone. *)
Theorem same_page_link_with_hash event i :
  let linkEl := SwupClass.delegateTarget event in
  let i' := SwupClass.linkClickHandler event i in
  plain_click event i = true ->
  SwupClass.address linkEl = "" \/ SwupClass.address linkEl = SwupClass.getCurrentUrl i ->
  SwupClass.hash linkEl <> "" ->
  new_actions i i' =
    [SwupClass.TriggerEvent "clickLink"; SwupClass.PreventDefault;
     SwupClass.TriggerEvent "samePageWithHash"] /\
  Render.scrollToElement (SwupClass.browser i') = Render.scrollToElement (SwupClass.browser i) /\
  (if SwupClass.getAnchorElement i (SwupClass.hash linkEl) then
     Render.historyState (SwupClass.browser i') =
       Some {| Render.hr_url := SwupClass.address linkEl +:+ SwupClass.hash linkEl;
               Render.hr_source := "swup" |} /\
     SwupClass.console i' = SwupClass.console i
   else
     SwupClass.browser i' = SwupClass.browser i /\
     SwupClass.console i' =
       SwupClass.console i ++
       [(LogWarn, "Element for offset not found (#" +:+ SwupClass.hash linkEl +:+ ")")]).
Proof.
  intros linkEl i' Hplain Hurl Hhash. unfold i'.
  assert (Hsame : String.eqb (SwupClass.address linkEl) "" ||
                  String.eqb (SwupClass.address linkEl) (SwupClass.getCurrentUrl i) = true).
  { apply orb_true_iff. rewrite !String.eqb_eq. exact Hurl. }
  apply String.eqb_neq in Hhash.
  split.
  { rewrite linkClickHandler_actions. cbv zeta. fold linkEl.
    by rewrite Hplain, Hsame, Hhash. }
  apply plain_click_spec in Hplain as (Hnw & Hig & Hm & Hc & Hs & Ha & Hb).
  subst linkEl. unfold SwupClass.linkClickHandler, SwupClass.triggerWillOpenNewWindow.
  rewrite Hnw, Hig, Hm, Hc, Hs, Ha, Hb. cbn [orb negb Z.eqb].
  change (SwupClass.getCurrentUrl (SwupClass.act _ (SwupClass.act _ i)))
    with (SwupClass.getCurrentUrl i).
  rewrite Hsame. unfold SwupClass.handleLinkToSamePage. rewrite Hhash.
  cbn [SwupClass.getAnchorElement SwupClass.act].
  by destruct (SwupClass.getAnchorElement i _).
Qed.

Lemma same_page_link_with_hash_witness :
  Render.historyState
    (SwupClass.browser
       (SwupClass.linkClickHandler (SwupExamples.click (SwupExamples.link "/a" "#top"))
          SwupExamples.instance)) =
    Some {| Render.hr_url := "/a#top"; Render.hr_source := "swup" |}.
Proof.
  pose proof (same_page_link_with_hash (SwupExamples.click (SwupExamples.link "/a" "#top"))
                SwupExamples.instance) as Hlink.
  cbv zeta in Hlink.
  destruct Hlink as (_ & _ & Hhist); [by vm_compute|by right|discriminate|].
  exact (proj1 Hhist).
Defined.

(** ** The instance: history visits *)

Section SwupHistory.
Import SwupClass.

(** What the handler does once it has decided to load the page, on the
    instance [j] that the comparison of the paths leaves. *)
Lemma popStateHandler_unfold event i :
  exists msgs,
    popStateHandler event i =
      if skipPopStateHandling (options i) event then i
      else
        let j := warned msgs i in
        if fst (isSameResolvedPath (getCurrentUrl i) (Render.currentPageUrl (browser i)) i)
        then j
        else
          let url := popstate_url event i in
          let j1 :=
            if negb (String.eqb (Link_getHash i url) "") then
              with_browser
                (Render.set_scrollToElement (Some (Link_getHash i url)) (browser j)) j
            else act PreventDefault j in
          let j2 := act (TriggerEvent "popState") j1 in
          let j3 :=
            if negb (animateHistoryBrowsing (options i)) then
              act CleanupAnimationClasses
                (with_browser (Render.classList_remove "is-animating" (browser j2)) j2)
            else j2 in
          act (LoadPage (Link_getAddress i url) None (Some event)) j3.
Proof.
  unfold popStateHandler.
  destruct (skipPopStateHandling (options i) event) eqn:Hskip; [by exists []|].
  destruct (isSameResolvedPath_warned (getCurrentUrl i) (Render.currentPageUrl (browser i)) i)
    as [msgs Hw].
  exists msgs. cbv zeta.
  destruct (isSameResolvedPath (getCurrentUrl i) (Render.currentPageUrl (browser i)) i)
    as [same j]. cbn [fst snd] in *. subst j.
  destruct same; [done|].
  destruct (warned_frame msgs i) as (Ho & Hb & Hh & Hg & Hla & Hlh & Ha & Hc).
  unfold popstate_url.
  set (j := warned msgs i) in *.
  rewrite Hh, Hlh.
  set (url := match state event with Some _ => _ | None => _ end).
  destruct (negb (String.eqb (Link_getHash i url) ""));
    cbn [options act with_browser]; rewrite Ho;
    destruct (negb (animateHistoryBrowsing (options i)));
    cbn [Link_getAddress act with_browser]; by rewrite Hla.
Qed.

Lemma popStateHandler_actions event i :
  new_actions i (popStateHandler event i) =
    if skipPopStateHandling (options i) event then []
    else if fst (isSameResolvedPath (getCurrentUrl i) (Render.currentPageUrl (browser i)) i)
    then []
    else
      let url := popstate_url event i in
      (if String.eqb (Link_getHash i url) "" then [PreventDefault] else []) ++
      [TriggerEvent "popState"] ++
      (if animateHistoryBrowsing (options i) then [] else [CleanupAnimationClasses]) ++
      [LoadPage (Link_getAddress i url) None (Some event)].
Proof.
  apply new_actions_app.
  destruct (popStateHandler_unfold event i) as (msgs & ->).
  destruct (skipPopStateHandling (options i) event); [by rewrite app_nil_r|].
  cbv zeta.
  destruct (warned_frame msgs i) as (_ & _ & _ & _ & _ & _ & Ha & _).
  destruct (fst (isSameResolvedPath _ _ i)).
  - by rewrite Ha, app_nil_r.
  - destruct (String.eqb (Link_getHash i (popstate_url event i)) "");
      destruct (animateHistoryBrowsing (options i));
      cbn [negb actions act with_browser]; rewrite Ha, <- ?app_assoc; done.
Qed.

End SwupHistory.

(** X28: a popstate event makes the instance load a page exactly when the event
    is not to be skipped and the current address does not resolve to the
    same path as the displayed page.  The page loaded is the one of the
    history entry, or of the location when the entry names none, as a
    history visit and without a custom transition. *)
Theorem popstate_loads_page_iff event i url transition popstate :
  In (SwupClass.LoadPage url transition popstate)
     (new_actions i (SwupClass.popStateHandler event i)) <->
  SwupClass.skipPopStateHandling (SwupClass.options i) event = false /\
  fst (SwupClass.isSameResolvedPath (SwupClass.getCurrentUrl i)
         (Render.currentPageUrl (SwupClass.browser i)) i) = false /\
  url = SwupClass.Link_getAddress i (popstate_url event i) /\
  transition = None /\ popstate = Some event.
Proof.
  rewrite popStateHandler_actions.
  destruct (SwupClass.skipPopStateHandling _ _); [split; [done|by intros [? _]]|].
  destruct (fst (SwupClass.isSameResolvedPath _ _ i)); [split; [done|by intros (_ & ? & _)]|].
  cbv zeta. rewrite !in_app_iff. split.
  - intros [Hin|[Hin|[Hin|Hin]]].
    + destruct (String.eqb _ ""); [destruct Hin as [Hin|[]]; discriminate Hin|destruct Hin].
    + destruct Hin as [Hin|[]]; discriminate Hin.
    + destruct (SwupClass.animateHistoryBrowsing _);
        [destruct Hin|destruct Hin as [Hin|[]]; discriminate Hin].
    + destruct Hin as [[= <- <- <-]|[]]. done.
  - intros (_ & _ & -> & -> & ->). do 3 right. by left.
Qed.

(** X29: with the default options the instance ignores the history entries it
    did not write itself: a popstate event whose state is missing or does
    not carry the marker of swup changes nothing at all. *)
Theorem foreign_history_entries_are_ignored origin event i :
  SwupClass.options i = SwupClass.defaults origin ->
  (forall st, SwupClass.state event = Some st -> SwupClass.state_source st <> Some "swup") ->
  SwupClass.popStateHandler event i = i.
Proof.
  intros Ho Hforeign. unfold SwupClass.popStateHandler. rewrite Ho.
  cbn [SwupClass.skipPopStateHandling SwupClass.defaults].
  destruct (SwupClass.state event) as [st|]; [|done].
  specialize (Hforeign st eq_refl).
  destruct (SwupClass.state_source st) as [source|]; [|done].
  destruct (String.eqb source "swup") eqn:He; [|done].
  apply String.eqb_eq in He. by subst source.
Qed.

Lemma foreign_history_entries_are_ignored_witness :
  SwupClass.popStateHandler SwupExamples.foreign SwupExamples.went_back =
    SwupExamples.went_back.
Proof.
  apply (foreign_history_entries_are_ignored "https://example.net"); [reflexivity|].
  intros st [= <-]. simpl. discriminate.
Defined.

(** X30: a history visit the instance handles triggers [popState] and then loads
    the page, in that order.  The default action is prevented exactly when
    the address has no hash, and otherwise the hash becomes the scroll
    target; unless history browsing is animated the class [is-animating]
    is taken off the document and the animation classes are cleaned up
    before the page is loaded.  The history entry is not rewritten. *)
Theorem history_visit_steps event i :
  let i' := SwupClass.popStateHandler event i in
  let hash := SwupClass.Link_getHash i (popstate_url event i) in
  SwupClass.skipPopStateHandling (SwupClass.options i) event = false ->
  fst (SwupClass.isSameResolvedPath (SwupClass.getCurrentUrl i)
         (Render.currentPageUrl (SwupClass.browser i)) i) = false ->
  new_actions i i' =
    (if String.eqb hash "" then [SwupClass.PreventDefault] else []) ++
    [SwupClass.TriggerEvent "popState"] ++
    (if SwupClass.animateHistoryBrowsing (SwupClass.options i) then []
     else [SwupClass.CleanupAnimationClasses]) ++
    [SwupClass.LoadPage (SwupClass.Link_getAddress i (popstate_url event i)) None (Some event)] /\
  Render.scrollToElement (SwupClass.browser i') =
    (if String.eqb hash "" then Render.scrollToElement (SwupClass.browser i) else Some hash) /\
  Render.classList (SwupClass.browser i') =
    (if SwupClass.animateHistoryBrowsing (SwupClass.options i)
     then Render.classList (SwupClass.browser i)
     else without "is-animating" (Render.classList (SwupClass.browser i))) /\
  Render.historyState (SwupClass.browser i') = Render.historyState (SwupClass.browser i) /\
  Render.location (SwupClass.browser i') = Render.location (SwupClass.browser i).
Proof.
  intros i' hash Hskip Hsame. unfold i'.
  split; [by rewrite popStateHandler_actions, Hskip, Hsame|].
  destruct (popStateHandler_unfold event i) as (msgs & ->).
  rewrite Hskip, Hsame. cbv zeta. fold hash.
  destruct (warned_frame msgs i) as (_ & Hb & _).
  destruct (String.eqb hash ""); destruct (SwupClass.animateHistoryBrowsing _);
    cbn [negb SwupClass.browser SwupClass.act SwupClass.with_browser]; by rewrite Hb.
Qed.

Lemma history_visit_steps_witness :
  new_actions SwupExamples.went_back
    (SwupClass.popStateHandler SwupExamples.back_to_b SwupExamples.went_back) =
    [SwupClass.PreventDefault; SwupClass.TriggerEvent "popState";
     SwupClass.CleanupAnimationClasses;
     SwupClass.LoadPage "/b" None (Some SwupExamples.back_to_b)] /\
  Render.classList
    (SwupClass.browser
       (SwupClass.popStateHandler SwupExamples.back_to_b SwupExamples.went_back)) =
    ["swup-enabled"].
Proof.
  pose proof (history_visit_steps SwupExamples.back_to_b SwupExamples.went_back) as Hsteps.
  cbv zeta in Hsteps.
  destruct Hsteps as (Hactions & _ & Hclasses & _); [by vm_compute|by vm_compute|].
  split; [exact Hactions|exact Hclasses].
Defined.
